(** * Vedoice audio session and buffering engine: a shallow embedding

    The development follows the TypeScript sources:

    - [utils/audioUtils.ts]: [decode], [encode], [decodeAudioData],
      [createPcmBlob], [audioBufferToWavBlob];
    - [services/geminiService.ts] (both variants of [generateSpeech] and
      [createLiveSessionManager]);
    - [components/DownloadOptions.tsx]: [handleDownloadCombined];
    - [components/VoiceControlPanel.tsx]: [playQueuedAudio],
      [handleLiveAudioChunk] and the panel's callbacks.

    Data representations.  A [Uint8Array] is a [list byte].  A JavaScript
    binary string (every code unit below 256) is a [string].  Signed 16-bit
    and unsigned 32-bit integers are [Z] with the wrap-around written out.
    A finite floating-point sample is the rational it denotes ([Q]): every
    arithmetic step the sources perform on samples (a product with 32768 or
    32767, a quotient by 32768) is exact in binary64, so no rounding is
    lost by reading the operations over [Q]; NaN and the infinities are
    outside the model. *)

From Stdlib Require Import ZArith QArith Qround Qabs List String Ascii Bool Lia Lqa.
From Stdlib Require Import Strings.Byte.
From Stdlib Require Import Permutation Sorted.
Import ListNotations.

Local Open Scope Z_scope.

(* ================================================================== *)
(** * Part I: definitions                                             *)
(* ================================================================== *)

(** ** Errors raised by the platform and by the sources *)

Inductive Error : Type :=
| InvalidCharacterError            (* atob on malformed base64 *)
| RangeError                       (* typed-array / DataView bounds, odd byte length *)
| NotSupportedError                (* createBuffer with a zero length or bad channel count *)
| IndexSizeError                   (* getChannelData on a missing channel *)
| ApiKeyError                      (* getGenAI: API_KEY missing or blank *)
| ValidationError                  (* multi-speaker mode without a valid speaker *)
| ApiError (msg : string).         (* a rejected generateContent call *)

(** A computation that either returns or throws. *)
Definition Result (A : Type) : Type := (A + Error)%type.

Definition ret {A} (a : A) : Result A := inl a.
Definition throw {A} (e : Error) : Result A := inr e.
Definition bind {A B} (m : Result A) (k : A -> Result B) : Result B :=
  match m with
  | inl a => k a
  | inr e => inr e
  end.

Notation "x <- m ;; k" := (bind m (fun x => k))
  (at level 61, m at next level, right associativity).

(** ** Base64: the platform's [btoa] and [atob] *)

Module Base64.

Definition alphabet : list ascii :=
  list_ascii_of_string
    "ABCDEFGHIJKLMNOPQRSTUVWXYZabcdefghijklmnopqrstuvwxyz0123456789+/".

Definition pad : ascii := "="%char.

(** [charCodeAt] on a binary string. *)
Definition code (c : ascii) : Z := Z.of_N (N_of_ascii c).

(** [String.fromCharCode] on a code below 256. *)
Definition fromCode (z : Z) : ascii := ascii_of_N (Z.to_N z).

Definition sextet_char (v : Z) : ascii := nth (Z.to_nat v) alphabet pad.

Fixpoint index_of (c : ascii) (l : list ascii) (i : Z) : option Z :=
  match l with
  | [] => None
  | x :: r => if Ascii.eqb x c then Some i else index_of c r (i + 1)
  end.

Definition sextet_value (c : ascii) : option Z := index_of c alphabet 0.

(** [btoa]: three input bytes make one 24-bit group and four output
    characters; a tail of one or two bytes is padded with [=]. *)
Fixpoint btoa_chars (l : list ascii) : list ascii :=
  match l with
  | [] => []
  | [a] =>
      let n := code a * 65536 in
      [sextet_char (n / 262144); sextet_char ((n / 4096) mod 64); pad; pad]
  | [a; b] =>
      let n := code a * 65536 + code b * 256 in
      [sextet_char (n / 262144); sextet_char ((n / 4096) mod 64);
       sextet_char ((n / 64) mod 64); pad]
  | a :: b :: c :: rest =>
      let n := code a * 65536 + code b * 256 + code c in
      sextet_char (n / 262144) :: sextet_char ((n / 4096) mod 64) ::
      sextet_char ((n / 64) mod 64) :: sextet_char (n mod 64) ::
      btoa_chars rest
  end.

Definition btoa (binary : string) : string :=
  string_of_list_ascii (btoa_chars (list_ascii_of_string binary)).

(** [atob] is the forgiving-base64 decoder: ASCII whitespace is dropped,
    one or two trailing [=] are removed when the length is a multiple of
    four, a length of 1 modulo 4 or a character outside the alphabet is an
    error, and the sextets are then read in groups of four. *)
Definition is_ascii_whitespace (c : ascii) : bool :=
  let n := code c in
  (n =? 9) || (n =? 10) || (n =? 12) || (n =? 13) || (n =? 32).

Definition only_padding (l : list ascii) : bool :=
  match l with
  | [x] => Ascii.eqb x pad
  | [x; y] => Ascii.eqb x pad && Ascii.eqb y pad
  | _ => false
  end.

Fixpoint strip_padding (l : list ascii) : list ascii :=
  match l with
  | [] => []
  | x :: r => if only_padding l then [] else x :: strip_padding r
  end.

Fixpoint sextets (l : list ascii) : option (list Z) :=
  match l with
  | [] => Some []
  | c :: r =>
      match sextet_value c, sextets r with
      | Some v, Some vs => Some (v :: vs)
      | _, _ => None
      end
  end.

Fixpoint atob_groups (vs : list Z) : list ascii :=
  match vs with
  | v0 :: v1 :: v2 :: v3 :: rest =>
      let n := ((v0 * 64 + v1) * 64 + v2) * 64 + v3 in
      fromCode (n / 65536) :: fromCode ((n / 256) mod 256) ::
      fromCode (n mod 256) :: atob_groups rest
  | [v0; v1; v2] =>
      let n := ((v0 * 64 + v1) * 64 + v2) / 4 in
      [fromCode (n / 256); fromCode (n mod 256)]
  | [v0; v1] =>
      let n := (v0 * 64 + v1) / 16 in
      [fromCode n]
  | _ => []
  end.

Definition atob (data : string) : Result string :=
  let d := filter (fun c => negb (is_ascii_whitespace c))
                  (list_ascii_of_string data) in
  let d := if Z.of_nat (List.length d) mod 4 =? 0 then strip_padding d else d in
  if Z.of_nat (List.length d) mod 4 =? 1 then throw InvalidCharacterError
  else match sextets d with
       | None => throw InvalidCharacterError
       | Some vs => ret (string_of_list_ascii (atob_groups vs))
       end.

End Base64.

(** ** [utils/audioUtils.ts]: [decode] and [encode] *)

(** [decode]: [atob], then one byte per character code. *)
Definition decode (base64 : string) : Result (list byte) :=
  binaryString <- Base64.atob base64 ;;
  ret (list_byte_of_string binaryString).

(** [encode]: one character per byte, then [btoa]. *)
Definition encode (bytes : list byte) : string :=
  Base64.btoa (string_of_list_byte bytes).

(** ** Typed arrays and machine integers *)

(** Writing at an index of a typed array; a write past the end is ignored.
    Reads are [nth] with a default: every read the sources make is within
    bounds on the buffers the platform hands out (a read past the end would
    give [undefined], which is outside the model). *)
Fixpoint upd {A} (i : nat) (v : A) (l : list A) : list A :=
  match l, i with
  | [], _ => []
  | _ :: r, O => v :: r
  | x :: r, S j => x :: upd j v r
  end.

Definition Z_of_byte (b : byte) : Z := Z.of_N (Byte.to_N b).

Definition byte_of_Z (z : Z) : byte :=
  match Byte.of_N (Z.to_N (z mod 256)) with
  | Some b => b
  | None => x00
  end.

(** [truncate]: the integral part of a number, rounding toward zero. *)
Definition truncate (x : Q) : Z := Z.quot (Qnum x) (Z.pos (Qden x)).

(** [ToInt16]: truncate, reduce modulo 2^16, read as two's complement. *)
Definition wrapInt16 (n : Z) : Z :=
  let int16bit := n mod 65536 in
  if int16bit >=? 32768 then int16bit - 65536 else int16bit.

Definition ToInt16 (x : Q) : Z := wrapInt16 (truncate x).

(** [ToUint16] and [ToUint32] on integral arguments. *)
Definition ToUint16 (n : Z) : Z := n mod 65536.
Definition ToUint32 (n : Z) : Z := n mod 4294967296.

(** Little-endian byte images. *)
Definition bytes16 (n : Z) : list byte :=
  let u := n mod 65536 in
  [byte_of_Z (u mod 256); byte_of_Z (u / 256)].

Definition bytes32 (n : Z) : list byte :=
  let u := n mod 4294967296 in
  [byte_of_Z (u mod 256); byte_of_Z ((u / 256) mod 256);
   byte_of_Z ((u / 65536) mod 256); byte_of_Z (u / 16777216)].

Definition getUint16 (lo hi : byte) : Z := Z_of_byte lo + 256 * Z_of_byte hi.

Definition getInt16 (lo hi : byte) : Z := wrapInt16 (getUint16 lo hi).

Definition getUint32 (b0 b1 b2 b3 : byte) : Z :=
  Z_of_byte b0 + 256 * Z_of_byte b1 + 65536 * Z_of_byte b2 + 16777216 * Z_of_byte b3.

(** [new Uint8Array(int16.buffer)]: the bytes behind an [Int16Array]
    (little-endian, as on every platform the browsers run on). *)
Definition Uint8Array_of_Int16Array (int16 : list Z) : list byte :=
  flat_map bytes16 int16.

(** [new Int16Array(data.buffer)]: a 16-bit view of a byte buffer; a
    [RangeError] when the byte length is odd. *)
Fixpoint Int16Array_of_buffer (data : list byte) : Result (list Z) :=
  match data with
  | [] => ret []
  | [_] => throw RangeError
  | lo :: hi :: rest =>
      r <- Int16Array_of_buffer rest ;;
      ret (getInt16 lo hi :: r)
  end.

(** ** Audio buffers *)

Module AudioBuffer.

(** The sample data: one [Float32Array] per channel. *)
Record t : Type := {
  sampleRate : Z;
  channelData : list (list Q)
}.

Definition numberOfChannels (b : t) : nat := List.length (channelData b).

Definition length (b : t) : nat := List.length (hd [] (channelData b)).

Definition duration (b : t) : Q :=
  (inject_Z (Z.of_nat (length b)) / inject_Z (sampleRate b))%Q.

(** [getChannelData]: an [IndexSizeError] for a channel that does not exist. *)
Definition getChannelData (b : t) (channel : nat) : Result (list Q) :=
  match nth_error (channelData b) channel with
  | Some d => ret d
  | None => throw IndexSizeError
  end.

(** Replacing the contents of one channel (the effect of writing through
    the array [getChannelData] returns). *)
Definition setChannelData (b : t) (channel : nat) (d : list Q) : t :=
  {| sampleRate := sampleRate b; channelData := upd channel d (channelData b) |}.

(** Every channel holds [length b] samples. *)
Definition rectangular (b : t) : bool :=
  forallb (fun d => Nat.eqb (List.length d) (length b)) (channelData b).

End AudioBuffer.

Abbreviation AudioBuffer := AudioBuffer.t.

(** The audio context: which sample rates this implementation supports
    (the Web Audio API leaves the range to the implementation). *)
Record AudioContext : Type := {
  supportsSampleRate : Z -> bool
}.

(** [ctx.createBuffer]: a zero-filled buffer; [NotSupportedError] when an
    argument is zero or outside its nominal range. *)
Definition createBuffer (ctx : AudioContext)
    (numberOfChannels length : nat) (sampleRate : Z) : Result AudioBuffer :=
  if (1 <=? numberOfChannels)%nat && (numberOfChannels <=? 32)%nat
     && (1 <=? length)%nat && supportsSampleRate ctx sampleRate
  then ret {| AudioBuffer.sampleRate := sampleRate;
              AudioBuffer.channelData := repeat (repeat 0%Q length) numberOfChannels |}
  else throw NotSupportedError.

(** A buffer that [ctx] can have produced. *)
Definition wf_buffer (ctx : AudioContext) (b : AudioBuffer) : bool :=
  (1 <=? AudioBuffer.numberOfChannels b)%nat
  && (AudioBuffer.numberOfChannels b <=? 32)%nat
  && (1 <=? AudioBuffer.length b)%nat
  && supportsSampleRate ctx (AudioBuffer.sampleRate b)
  && AudioBuffer.rectangular b.

(** ** [utils/audioUtils.ts]: [decodeAudioData] *)

(** The inner loop: [channelData[i] = dataInt16[i * numChannels + channel] / 32768.0]
    for [i] from 0 below [frameCount]. *)
Definition decodeChannel (dataInt16 : list Z) (numChannels channel frameCount : nat)
    (channelData : list Q) : list Q :=
  fold_left
    (fun cd i => upd i (nth (i * numChannels + channel) dataInt16 0 # 32768) cd)
    (seq 0 frameCount) channelData.

(** [frameCount] is the quotient [dataInt16.length / numChannels]; when it
    is not integral, [createBuffer] keeps its integral part and the writes
    of the loop past that length are ignored, so that the natural-number
    quotient gives the same buffer. *)
Definition decodeAudioData (data : list byte) (ctx : AudioContext)
    (sampleRate : Z) (numChannels : nat) : Result AudioBuffer :=
  dataInt16 <- Int16Array_of_buffer data ;;
  let frameCount := (List.length dataInt16 / numChannels)%nat in
  buffer <- createBuffer ctx numChannels frameCount sampleRate ;;
  fold_left
    (fun acc channel =>
       buffer <- acc ;;
       channelData <- AudioBuffer.getChannelData buffer channel ;;
       ret (AudioBuffer.setChannelData buffer channel
              (decodeChannel dataInt16 numChannels channel frameCount channelData)))
    (seq 0 numChannels) (ret buffer).

(** ** [utils/audioUtils.ts]: [createPcmBlob] *)

Record PcmBlob : Type := {
  data : string;
  mimeType : string
}.

(** The loop [int16[i] = data[i] * 32768] over a zero-filled [Int16Array]. *)
Definition createPcmBlob_int16 (data : list Q) : list Z :=
  let l := List.length data in
  fold_left
    (fun int16 i => upd i (ToInt16 (nth i data 0 * 32768)%Q) int16)
    (seq 0 l) (repeat 0 l).

Definition createPcmBlob (data : list Q) : PcmBlob :=
  {| data := encode (Uint8Array_of_Int16Array (createPcmBlob_int16 data));
     mimeType := "audio/pcm;rate=16000" |}.

(** ** [utils/audioUtils.ts]: [audioBufferToWavBlob] *)

(** Storing consecutive elements from an offset on: the body of a
    [DataView] setter and of [TypedArray.prototype.set]. *)
Fixpoint blit {A} (src : list A) (offset : nat) (target : list A) : list A :=
  match src with
  | [] => target
  | x :: r => blit r (S offset) (upd offset x target)
  end.

(** A store that does not fit is a [RangeError]. *)
Definition store {A} (target : list A) (offset : nat) (src : list A) : Result (list A) :=
  if (offset + List.length src <=? List.length target)%nat
  then ret (blit src offset target)
  else throw RangeError.

Definition setUint8 (view : list byte) (byteOffset : nat) (value : Z) :=
  store view byteOffset [byte_of_Z value].

(** The setters below are the little-endian ones ([littleEndian = true]). *)
Definition setUint16 (view : list byte) (byteOffset : nat) (value : Z) :=
  store view byteOffset (bytes16 value).

Definition setUint32 (view : list byte) (byteOffset : nat) (value : Z) :=
  store view byteOffset (bytes32 value).

Definition setInt16 (view : list byte) (byteOffset : nat) (value : Q) :=
  store view byteOffset (bytes16 (ToInt16 value)).

(** The [DataView] being filled and the running [offset]. *)
Record WavWriter : Type := {
  dataView : list byte;
  offset : nat
}.

Definition charCodeAt (s : string) (i : nat) : Z :=
  match String.get i s with
  | Some c => Base64.code c
  | None => 0
  end.

Definition writeString (s : string) (w : WavWriter) : Result WavWriter :=
  view <- fold_left
            (fun acc i => v <- acc ;; setUint8 v (offset w + i) (charCodeAt s i))
            (seq 0 (String.length s)) (ret (dataView w)) ;;
  ret {| dataView := view; offset := offset w + String.length s |}.

Definition writeUint32 (i : Z) (w : WavWriter) : Result WavWriter :=
  view <- setUint32 (dataView w) (offset w) i ;;
  ret {| dataView := view; offset := offset w + 4 |}.

Definition writeUint16 (i : Z) (w : WavWriter) : Result WavWriter :=
  view <- setUint16 (dataView w) (offset w) i ;;
  ret {| dataView := view; offset := offset w + 2 |}.

Definition Qlt_bool (a b : Q) : bool := negb (Qle_bool b a).

Definition Math_min (a b : Q) : Q := if Qle_bool a b then a else b.
Definition Math_max (a b : Q) : Q := if Qle_bool a b then b else a.

(** One sample of the data chunk: clamp to [-1, 1], then scale. *)
Definition scaleSample (x : Q) : Q :=
  let s := Math_max (-1) (Math_min 1 x) in
  if Qlt_bool s 0 then (s * 32768)%Q else (s * 32767)%Q.

(** The two nested loops filling [interleaved]. *)
Definition interleave (audioBuffer : AudioBuffer) : Result (list Q) :=
  let numOfChan := AudioBuffer.numberOfChannels audioBuffer in
  let length := AudioBuffer.length audioBuffer in
  fold_left
    (fun acc channel =>
       interleaved <- acc ;;
       channelData <- AudioBuffer.getChannelData audioBuffer channel ;;
       ret (fold_left
              (fun a i => upd (i * numOfChan + channel) (nth i channelData 0%Q) a)
              (seq 0 length) interleaved))
    (seq 0 numOfChan) (ret (repeat 0%Q (length * numOfChan))).

(** The last loop: one [setInt16] per interleaved sample. *)
Definition writeSamples (interleaved : list Q) (w : WavWriter) : Result WavWriter :=
  fold_left
    (fun acc i =>
       w <- acc ;;
       view <- setInt16 (dataView w) (offset w) (scaleSample (nth i interleaved 0%Q)) ;;
       ret {| dataView := view; offset := offset w + 2 |})
    (seq 0 (List.length interleaved)) (ret w).

Record Blob : Type := {
  blobBytes : list byte;
  blobType : string
}.

Definition audioBufferToWavBlob (audioBuffer : AudioBuffer) : Result Blob :=
  let numOfChan := AudioBuffer.numberOfChannels audioBuffer in
  let length := AudioBuffer.length audioBuffer in
  let sampleRate := AudioBuffer.sampleRate audioBuffer in
  let totalLength := (length * numOfChan * 2 + 44)%nat in
  let w := {| dataView := repeat x00 totalLength; offset := 0 |} in
  w <- writeString "RIFF" w ;;
  w <- writeUint32 (Z.of_nat totalLength - 8) w ;;
  w <- writeString "WAVE" w ;;
  w <- writeString "fmt " w ;;
  w <- writeUint32 16 w ;;
  w <- writeUint16 1 w ;;
  w <- writeUint16 (Z.of_nat numOfChan) w ;;
  w <- writeUint32 sampleRate w ;;
  w <- writeUint32 (sampleRate * Z.of_nat numOfChan * 2) w ;;
  w <- writeUint16 (Z.of_nat numOfChan * 2) w ;;
  w <- writeUint16 16 w ;;
  w <- writeString "data" w ;;
  w <- writeUint32 (Z.of_nat length * Z.of_nat numOfChan * 2) w ;;
  interleaved <- interleave audioBuffer ;;
  w <- writeSamples interleaved w ;;
  ret {| blobBytes := dataView w; blobType := "audio/wav" |}.

(** ** Generated chunks and [components/DownloadOptions.tsx] *)

Module GeneratedAudioChunk.
Record t : Type := {
  id : string;
  text : string;
  audioBuffer : AudioBuffer
}.
End GeneratedAudioChunk.

Abbreviation GeneratedAudioChunk := GeneratedAudioChunk.t.

(** One iteration of [for (const buffer of tempBuffers)]: copy every channel
    of [buffer] at [offset], then advance [offset]. *)
Definition copyBuffer (buffer : AudioBuffer)
    (st : AudioBuffer * nat) : Result (AudioBuffer * nat) :=
  let '(concatenatedBuffer, offset) := st in
  concatenated <-
    fold_left
      (fun acc channel =>
         cb <- acc ;;
         target <- AudioBuffer.getChannelData cb channel ;;
         source <- AudioBuffer.getChannelData buffer channel ;;
         target' <- store target offset source ;;
         ret (AudioBuffer.setChannelData cb channel target'))
      (seq 0 (AudioBuffer.numberOfChannels buffer)) (ret concatenatedBuffer) ;;
  ret (concatenated, (offset + AudioBuffer.length buffer)%nat).

(** The buffer [handleDownloadCombined] hands to [audioBufferToWavBlob];
    [None] when there is no chunk and the handler returns at once. *)
Definition combinedBuffer (ctx : AudioContext)
    (generatedAudioChunks : list GeneratedAudioChunk) : option (Result AudioBuffer) :=
  match generatedAudioChunks with
  | [] => None
  | first :: others =>
      Some
        (match others with
         | [] => ret (GeneratedAudioChunk.audioBuffer first)
         | _ :: _ =>
             let tempBuffers := map GeneratedAudioChunk.audioBuffer generatedAudioChunks in
             let totalLength :=
               fold_left (fun acc buffer => (acc + AudioBuffer.length buffer)%nat)
                         tempBuffers 0%nat in
             let first := GeneratedAudioChunk.audioBuffer first in
             concatenatedBuffer <-
               createBuffer ctx (AudioBuffer.numberOfChannels first) totalLength
                            (AudioBuffer.sampleRate first) ;;
             r <- fold_left (fun acc buffer => st <- acc ;; copyBuffer buffer st)
                            tempBuffers (ret (concatenatedBuffer, 0%nat)) ;;
             ret (fst r)
         end)
  end.

Definition handleDownloadCombined (ctx : AudioContext)
    (generatedAudioChunks : list GeneratedAudioChunk) : option (Result Blob) :=
  match combinedBuffer ctx generatedAudioChunks with
  | None => None
  | Some r => Some (finalMixedBuffer <- r ;; audioBufferToWavBlob finalMixedBuffer)
  end.

(** ** [services/geminiService.ts]: [generateSpeech] *)

(** [String.prototype.trim] on the white space of the 8-bit range. *)
Definition is_js_whitespace (c : ascii) : bool :=
  let n := Base64.code c in
  (n =? 9) || (n =? 10) || (n =? 11) || (n =? 12) || (n =? 13) || (n =? 32) || (n =? 160).

Fixpoint trimStart (s : list ascii) : list ascii :=
  match s with
  | [] => []
  | c :: r => if is_js_whitespace c then trimStart r else s
  end.

Definition trim (s : string) : string :=
  string_of_list_ascii (rev (trimStart (rev (trimStart (list_ascii_of_string s))))).

Definition DEFAULT_SAMPLE_RATE : Z := 24000.
Definition INPUT_SAMPLE_RATE : Z := 16000.

Module SpeakerConfig.
Record t : Type := {
  name : string;
  voiceId : string
}.
End SpeakerConfig.

Inductive SpeakerMode : Type := single | multi.

(** The options [generateSpeech] reads.  [scriptSegments] is the value of
    [script.split(...).filter(s => s.trim() !== '')]; [onProgress] tells
    whether a progress callback was supplied. *)
Record GenerateSpeechOptions : Type := {
  scriptSegments : list string;
  voiceId : string;
  speakerMode : SpeakerMode;
  multiSpeakerConfigs : option (list SpeakerConfig.t);
  onProgress : bool
}.

Inductive SpeechConfig : Type :=
| voiceConfig (voiceName : string)
| multiSpeakerVoiceConfig (speakerVoiceConfigs : list (string * string)).

Record Request : Type := {
  contents : string;
  config : SpeechConfig
}.

(** What a [generateContent] call does: it resolves with a response whose
    first inline data may be missing, or it rejects. *)
Inductive ApiResponse : Type :=
| Resolves (inlineData : option string)
| Rejects (e : Error).

(** The world around one run: the environment's API key, the answer of the
    speech API to the call issued for each segment, the identifiers
    [crypto.randomUUID] hands out (in call order) and the audio context. *)
Record Platform : Type := {
  API_KEY : option string;
  generateContent : nat -> Request -> ApiResponse;
  randomUUID : nat -> string;
  outputAudioContext : AudioContext
}.

Definition getGenAI (p : Platform) : Result unit :=
  match API_KEY p with
  | None => throw ApiKeyError
  | Some k => if String.eqb (trim k) "" then throw ApiKeyError else ret tt
  end.

Definition validSpeakerConfigs (o : GenerateSpeechOptions) : list SpeakerConfig.t :=
  match multiSpeakerConfigs o with
  | Some cs =>
      filter (fun s => negb (String.eqb (trim (SpeakerConfig.name s)) "")
                       && negb (String.eqb (trim (SpeakerConfig.voiceId s)) "")) cs
  | None => []
  end.

Definition validateSpeakers (o : GenerateSpeechOptions) : Result unit :=
  match speakerMode o with
  | multi =>
      if (List.length (validSpeakerConfigs o) =? 0)%nat then throw ValidationError
      else ret tt
  | single => ret tt
  end.

(** The [config.speechConfig] built for every request. *)
Definition speechConfigOf (o : GenerateSpeechOptions) : SpeechConfig :=
  match speakerMode o, multiSpeakerConfigs o with
  | single, _ => voiceConfig (voiceId o)
  | multi, Some (c :: cs) =>
      multiSpeakerVoiceConfig
        (map (fun speaker => (SpeakerConfig.name speaker, SpeakerConfig.voiceId speaker))
             (c :: cs))
  | multi, _ =>
      voiceConfig (if String.eqb (voiceId o) "" then "Zephyr"%string else voiceId o)
  end.

Inductive Promise (A : Type) : Type :=
| Pending
| Fulfilled (value : A)
| Rejected (reason : Error).

Arguments Pending {A}.
Arguments Fulfilled {A} value.
Arguments Rejected {A} reason.

(** What a segment's promise resolves with. *)
Record SegmentResult : Type := {
  originalIndex : nat;
  chunk : option GeneratedAudioChunk
}.

(** The state of one run of the concurrent [generateSpeech]: the shared
    counter, the calls made to [onProgress] (oldest first), one promise per
    segment, the first rejection seen by [Promise.all] and the number of
    identifiers drawn so far. *)
Record Run : Type := {
  processedCount : nat;
  progressCalls : list (nat * nat);
  segmentPromises : list (Promise SegmentResult);
  allRejected : option Error;
  uuidsDrawn : nat
}.

Definition reportProgress (o : GenerateSpeechOptions) (processed : nat) (r : Run) : Run :=
  {| processedCount := processed;
     progressCalls :=
       if onProgress o
       then progressCalls r ++ [(processed, List.length (scriptSegments o))]
       else progressCalls r;
     segmentPromises := segmentPromises r;
     allRejected := allRejected r;
     uuidsDrawn := uuidsDrawn r |}.

Definition settleWith (i : nat) (pr : Promise SegmentResult) (r : Run) : Run :=
  {| processedCount := processedCount r;
     progressCalls := progressCalls r;
     segmentPromises := upd i pr (segmentPromises r);
     allRejected :=
       match allRejected r, pr with
       | None, Rejected e => Some e
       | a, _ => a
       end;
     uuidsDrawn := uuidsDrawn r |}.

Definition drawUUID (r : Run) : Run :=
  {| processedCount := processedCount r;
     progressCalls := progressCalls r;
     segmentPromises := segmentPromises r;
     allRejected := allRejected r;
     uuidsDrawn := S (uuidsDrawn r) |}.

(** The part of the [map] callback that runs before its first [await]:
    a blank segment resolves at once, any other leaves its call in flight. *)
Definition startSegment (o : GenerateSpeechOptions) (r : Run)
    (entry : nat * string) : Run :=
  let '(originalIndex, segment) := entry in
  if String.eqb (trim segment) ""
  then settleWith originalIndex
         (Fulfilled {| originalIndex := originalIndex; chunk := None |})
         (reportProgress o (S (processedCount r)) r)
  else r.

(** The audio a response leads to: the decoded buffer, nothing when the
    response carries no (or an empty) payload, or the error thrown inside
    the [try] block. *)
Definition segmentAudio (p : Platform) (o : GenerateSpeechOptions)
    (originalIndex : nat) (segment : string) : Result (option AudioBuffer) :=
  match generateContent p originalIndex
          {| contents := trim segment; config := speechConfigOf o |} with
  | Rejects e => throw e
  | Resolves None => ret None
  | Resolves (Some base64Audio) =>
      if String.eqb base64Audio "" then ret None
      else
        bytes <- decode base64Audio ;;
        audioBuffer <- decodeAudioData bytes (outputAudioContext p) DEFAULT_SAMPLE_RATE 1 ;;
        ret (Some audioBuffer)
  end.

(** The rest of the [map] callback for the segment at [originalIndex], run
    when its call completes.  A promise settles once: a completion for a
    promise that is not pending changes nothing. *)
Definition completeSegment (p : Platform) (o : GenerateSpeechOptions)
    (r : Run) (originalIndex : nat) : Run :=
  match nth_error (scriptSegments o) originalIndex,
        nth_error (segmentPromises r) originalIndex with
  | Some segment, Some Pending =>
      match segmentAudio p o originalIndex segment with
      | inl (Some audioBuffer) =>
          let r := reportProgress o (S (processedCount r)) r in
          let c := {| GeneratedAudioChunk.id := randomUUID p (uuidsDrawn r);
                      GeneratedAudioChunk.text := trim segment;
                      GeneratedAudioChunk.audioBuffer := audioBuffer |} in
          settleWith originalIndex
            (Fulfilled {| originalIndex := originalIndex; chunk := Some c |})
            (drawUUID r)
      | inl None =>
          let r := reportProgress o (S (processedCount r)) r in
          settleWith originalIndex
            (Fulfilled {| originalIndex := originalIndex; chunk := None |}) r
      | inr error =>
          let r := reportProgress o (S (processedCount r)) r in
          settleWith originalIndex (Rejected error) r
      end
  | _, _ => r
  end.

(** [Promise.all]: the values in the order of the promises. *)
Fixpoint allValues {A} (ps : list (Promise A)) : option (list A) :=
  match ps with
  | [] => Some []
  | Fulfilled v :: r =>
      match allValues r with
      | Some vs => Some (v :: vs)
      | None => None
      end
  | _ :: _ => None
  end.

(** [Array.prototype.sort] with [(a, b) => a.originalIndex - b.originalIndex]
    (a stable sort). *)
Fixpoint insertByIndex (x : SegmentResult) (l : list SegmentResult) : list SegmentResult :=
  match l with
  | [] => [x]
  | y :: r =>
      if (originalIndex x <=? originalIndex y)%nat then x :: y :: r
      else y :: insertByIndex x r
  end.

Definition sortByIndex (l : list SegmentResult) : list SegmentResult :=
  fold_right insertByIndex [] l.

Definition hasChunk (res : SegmentResult) : bool :=
  match chunk res with
  | Some _ => true
  | None => false
  end.

(** The results that carry a chunk, sorted by their tags. *)
Definition orderedResults (results : list SegmentResult) : list SegmentResult :=
  sortByIndex (filter hasChunk results).

Definition orderedChunks (results : list SegmentResult) : list GeneratedAudioChunk :=
  flat_map (fun res => match chunk res with Some c => [c] | None => [] end)
           (orderedResults results).

Definition indexed {A} (l : list A) : list (nat * A) := combine (seq 0 (List.length l)) l.

Definition initialRun (o : GenerateSpeechOptions) : Run :=
  {| processedCount := 0;
     progressCalls := [];
     segmentPromises := repeat Pending (List.length (scriptSegments o));
     allRejected := None;
     uuidsDrawn := 0 |}.

(** The state once every call has been issued. *)
Definition issueAll (o : GenerateSpeechOptions) (r : Run) : Run :=
  fold_left (startSegment o) (indexed (scriptSegments o)) r.

(** The concurrent [generateSpeech].  [completions] lists the segments in
    the order in which their calls complete.  The result pairs what the
    returned promise settles to with the final state of the run. *)
Definition generateSpeech (p : Platform) (o : GenerateSpeechOptions)
    (completions : list nat) : Promise (list GeneratedAudioChunk) * Run :=
  match getGenAI p with
  | inr e => (Rejected e, initialRun o)
  | inl _ =>
      let r := reportProgress o 0 (initialRun o) in
      match validateSpeakers o with
      | inr e => (Rejected e, r)
      | inl _ =>
          let r := issueAll o r in
          let r := fold_left (completeSegment p o) completions r in
          (match allRejected r with
           | Some e => Rejected e
           | None =>
               match allValues (segmentPromises r) with
               | Some results => Fulfilled (orderedChunks results)
               | None => Pending
               end
           end, r)
      end
  end.

(** The sequential variant of [generateSpeech]: one call after the other,
    the first error ends the loop.  The result pairs what the function
    returns or throws with the calls made to [onProgress]. *)
Fixpoint generateSpeechLoop (p : Platform) (o : GenerateSpeechOptions)
    (entries : list (nat * string)) (chunks : list GeneratedAudioChunk)
    (calls : list (nat * nat)) : Result (list GeneratedAudioChunk) * list (nat * nat) :=
  match entries with
  | [] => (ret chunks, calls)
  | (index, segment) :: rest =>
      if String.eqb (trim segment) "" then generateSpeechLoop p o rest chunks calls
      else
        match segmentAudio p o index segment with
        | inl (Some audioBuffer) =>
            let chunks :=
              chunks ++ [{| GeneratedAudioChunk.id := randomUUID p (List.length chunks);
                            GeneratedAudioChunk.text := trim segment;
                            GeneratedAudioChunk.audioBuffer := audioBuffer |}] in
            let calls :=
              if onProgress o
              then calls ++ [(List.length chunks, List.length (scriptSegments o))]
              else calls in
            generateSpeechLoop p o rest chunks calls
        | inl None => generateSpeechLoop p o rest chunks calls
        | inr error => (throw error, calls)
        end
  end.

Definition generateSpeechSequential (p : Platform) (o : GenerateSpeechOptions)
    : Result (list GeneratedAudioChunk) * list (nat * nat) :=
  match getGenAI p with
  | inr e => (throw e, [])
  | inl _ =>
      let calls := if onProgress o then [(0%nat, List.length (scriptSegments o))] else [] in
      match validateSpeakers o with
      | inr e => (throw e, calls)
      | inl _ => generateSpeechLoop p o (indexed (scriptSegments o)) [] calls
      end
  end.

(** ** [components/VoiceControlPanel.tsx]: the streaming playback queue *)

(** A call of [source.start(when)] on a fresh source node. *)
Record Scheduled : Type := {
  source : nat;
  buffer : AudioBuffer;
  when : Q
}.

(** The refs of the panel: the FIFO of decoded chunks, the end-time cursor,
    the set of sources that have not ended, and (as a trace) every
    [source.start] so far, oldest first. *)
Record Playback : Type := {
  audioQueue : list AudioBuffer;
  nextStartTime : Q;
  audioSourceNodes : list nat;
  started : list Scheduled
}.

(** [playQueuedAudio], for the value of [isLiveActive] its closure holds and
    the reading [currentTime] of the audio clock. *)
Definition playQueuedAudio (isLiveActive : bool) (currentTime : Q)
    (st : Playback) : Playback :=
  match audioQueue st with
  | [] => st
  | buffer :: rest =>
      if negb isLiveActive then st
      else
        let source := List.length (started st) in
        let start := Math_max (nextStartTime st) currentTime in
        {| audioQueue := rest;
           nextStartTime := (start + AudioBuffer.duration buffer)%Q;
           audioSourceNodes := audioSourceNodes st ++ [source];
           started := started st ++ [{| source := source; buffer := buffer; when := start |}] |}
  end.

(** [source.onended]: the source leaves the set and, if a chunk waits, the
    scheduler runs. *)
Definition onended (isLiveActive : bool) (source : nat) (currentTime : Q)
    (st : Playback) : Playback :=
  let st :=
    {| audioQueue := audioQueue st;
       nextStartTime := nextStartTime st;
       audioSourceNodes := filter (fun s => negb (Nat.eqb s source)) (audioSourceNodes st);
       started := started st |} in
  if (0 <? List.length (audioQueue st))%nat
  then playQueuedAudio isLiveActive currentTime st
  else st.

Definition handleLiveAudioChunk (isLiveActive : bool) (audioBuffer : AudioBuffer)
    (currentTime : Q) (st : Playback) : Playback :=
  let st :=
    {| audioQueue := audioQueue st ++ [audioBuffer];
       nextStartTime := nextStartTime st;
       audioSourceNodes := audioSourceNodes st;
       started := started st |} in
  if (List.length (audioSourceNodes st) =? 0)%nat
     || Qle_bool (nextStartTime st) currentTime
  then playQueuedAudio isLiveActive currentTime st
  else st.

(** What reaches the playback queue, with the clock reading at that moment. *)
Inductive PlaybackEvent : Type :=
| ChunkArrives (audioBuffer : AudioBuffer) (currentTime : Q)
| SourceEnds (source : nat) (currentTime : Q).

Definition playbackStep (isLiveActive : bool) (st : Playback) (e : PlaybackEvent) : Playback :=
  match e with
  | ChunkArrives b t => handleLiveAudioChunk isLiveActive b t st
  | SourceEnds s t => onended isLiveActive s t st
  end.

Definition playbackRun (isLiveActive : bool) (events : list PlaybackEvent)
    (st : Playback) : Playback :=
  fold_left (playbackStep isLiveActive) events st.

Definition emptyPlayback : Playback :=
  {| audioQueue := []; nextStartTime := 0; audioSourceNodes := []; started := [] |}.

(** ** [services/geminiService.ts]: [createLiveSessionManager] *)

Inductive Speaker : Type := user | model.

Module LiveSpeakerTurn.
Record t : Type := {
  id : string;
  speaker : Speaker;
  text : string
}.
End LiveSpeakerTurn.

Abbreviation LiveSpeakerTurn := LiveSpeakerTurn.t.

(** The variables the manager's closures share.  A handle is the identity
    of the resource it names. *)
Record LiveSession : Type := {
  sessionPromise : option nat;
  mediaStream : option nat;
  scriptProcessorNode : option nat;
  currentInputTranscription : string;
  currentOutputTranscription : string;
  accumulatedTurns : list LiveSpeakerTurn
}.

(** What the manager does to the hardware and to the connection. *)
Inductive Effect : Type :=
| TracksStopped (stream : nat)
| NodeDisconnected (node : nat)
| CloseRequested (session : nat).

(** The manager's variables, the trace of its effects (oldest first), the
    number of turn identifiers drawn, and the state of whoever supplied the
    callbacks. *)
Record World (E : Type) : Type := {
  live : LiveSession;
  effects : list Effect;
  turnIds : nat;
  consumer : E
}.

Arguments live {E} _.
Arguments effects {E} _.
Arguments turnIds {E} _.
Arguments consumer {E} _.

Definition withLive {E} (f : LiveSession -> LiveSession) (w : World E) : World E :=
  {| live := f (live w); effects := effects w; turnIds := turnIds w; consumer := consumer w |}.

Definition withConsumer {E} (f : E -> E) (w : World E) : World E :=
  {| live := live w; effects := effects w; turnIds := turnIds w; consumer := f (consumer w) |}.

Definition addEffect {E} (e : Effect) (w : World E) : World E :=
  {| live := live w; effects := effects w ++ [e]; turnIds := turnIds w; consumer := consumer w |}.

(** The callbacks handed to [start].  A callback runs in the middle of the
    manager's code and may call back into the manager, so it acts on the
    whole world. *)
Record Callbacks (E : Type) : Type := {
  onTranscriptionUpdate : string -> string -> World E -> World E;
  onCompleteTurn : list LiveSpeakerTurn -> World E -> World E;
  onAudioChunk : AudioBuffer -> World E -> World E;
  onError : Error -> World E -> World E;
  onClose : World E -> World E
}.

Arguments onTranscriptionUpdate {E} _.
Arguments onCompleteTurn {E} _.
Arguments onAudioChunk {E} _.
Arguments onError {E} _.
Arguments onClose {E} _.

Definition resetTranscription {E} (w : World E) : World E :=
  withLive (fun s =>
    {| sessionPromise := sessionPromise s;
       mediaStream := mediaStream s;
       scriptProcessorNode := scriptProcessorNode s;
       currentInputTranscription := "";
       currentOutputTranscription := "";
       accumulatedTurns := [] |}) w.

Definition stop {E} (w : World E) : World E :=
  let w :=
    match mediaStream (live w) with
    | Some stream =>
        withLive (fun s =>
          {| sessionPromise := sessionPromise s;
             mediaStream := None;
             scriptProcessorNode := scriptProcessorNode s;
             currentInputTranscription := currentInputTranscription s;
             currentOutputTranscription := currentOutputTranscription s;
             accumulatedTurns := accumulatedTurns s |})
          (addEffect (TracksStopped stream) w)
    | None => w
    end in
  let w :=
    match scriptProcessorNode (live w) with
    | Some node =>
        withLive (fun s =>
          {| sessionPromise := sessionPromise s;
             mediaStream := mediaStream s;
             scriptProcessorNode := None;
             currentInputTranscription := currentInputTranscription s;
             currentOutputTranscription := currentOutputTranscription s;
             accumulatedTurns := accumulatedTurns s |})
          (addEffect (NodeDisconnected node) w)
    | None => w
    end in
  let w :=
    match sessionPromise (live w) with
    | Some session =>
        withLive (fun s =>
          {| sessionPromise := None;
             mediaStream := mediaStream s;
             scriptProcessorNode := scriptProcessorNode s;
             currentInputTranscription := currentInputTranscription s;
             currentOutputTranscription := currentOutputTranscription s;
             accumulatedTurns := accumulatedTurns s |})
          (addEffect (CloseRequested session) w)
    | None => w
    end in
  resetTranscription w.

(** The parts of a [LiveServerMessage] the handler reads: the text of
    [serverContent.outputTranscription] and [serverContent.inputTranscription]
    when present, [serverContent.turnComplete], and
    [serverContent.modelTurn.parts[0].inlineData.data]. *)
Record LiveServerMessage : Type := {
  outputTranscription : option string;
  inputTranscription : option string;
  turnComplete : bool;
  inlineAudio : option string
}.

Definition setTranscriptions (input output : string) (s : LiveSession) : LiveSession :=
  {| sessionPromise := sessionPromise s;
     mediaStream := mediaStream s;
     scriptProcessorNode := scriptProcessorNode s;
     currentInputTranscription := input;
     currentOutputTranscription := output;
     accumulatedTurns := accumulatedTurns s |}.

(** [accumulatedTurns.push({ id: crypto.randomUUID(), speaker, text })]. *)
Definition pushTurn {E} (randomUUID : nat -> string) (speaker : Speaker) (text : string)
    (w : World E) : World E :=
  {| live :=
       {| sessionPromise := sessionPromise (live w);
          mediaStream := mediaStream (live w);
          scriptProcessorNode := scriptProcessorNode (live w);
          currentInputTranscription := currentInputTranscription (live w);
          currentOutputTranscription := currentOutputTranscription (live w);
          accumulatedTurns :=
            accumulatedTurns (live w)
            ++ [{| LiveSpeakerTurn.id := randomUUID (turnIds w);
                   LiveSpeakerTurn.speaker := speaker;
                   LiveSpeakerTurn.text := text |}] |};
     effects := effects w;
     turnIds := S (turnIds w);
     consumer := consumer w |}.

(** The first two blocks of [onmessage]: the transcript deltas. *)
Definition onmessage_transcripts {E} (cbs : Callbacks E) (message : LiveServerMessage)
    (w : World E) : World E :=
  let w :=
    match outputTranscription message with
    | Some text =>
        let w := withLive (fun s =>
                   setTranscriptions (currentInputTranscription s)
                     (currentOutputTranscription s ++ text) s) w in
        onTranscriptionUpdate cbs (currentInputTranscription (live w))
                              (currentOutputTranscription (live w)) w
    | None => w
    end in
  match inputTranscription message with
  | Some text =>
      let w := withLive (fun s =>
                 setTranscriptions (currentInputTranscription s ++ text)
                   (currentOutputTranscription s) s) w in
      onTranscriptionUpdate cbs (currentInputTranscription (live w))
                            (currentOutputTranscription (live w)) w
  | None => w
  end.

(** The third block: [if (message.serverContent?.turnComplete)]. *)
Definition onmessage_turnComplete {E} (randomUUID : nat -> string) (cbs : Callbacks E)
    (w : World E) : World E :=
  let fullInput := currentInputTranscription (live w) in
  let fullOutput := currentOutputTranscription (live w) in
  let w := if String.eqb fullInput "" then w else pushTurn randomUUID user fullInput w in
  let w := if String.eqb fullOutput "" then w else pushTurn randomUUID model fullOutput w in
  let w := onCompleteTurn cbs (accumulatedTurns (live w)) w in
  withLive (setTranscriptions "" "") w.

(** The last block: the inline audio. *)
Definition onmessage_audio {E} (audioContext : AudioContext) (cbs : Callbacks E)
    (message : LiveServerMessage) (w : World E) : World E :=
  match inlineAudio message with
  | None => w
  | Some base64EncodedAudioString =>
      if String.eqb base64EncodedAudioString "" then w
      else
        match (bytes <- decode base64EncodedAudioString ;;
               decodeAudioData bytes audioContext DEFAULT_SAMPLE_RATE 1) with
        | inl audioBuffer => onAudioChunk cbs audioBuffer w
        | inr audioDecodeError => onError cbs audioDecodeError w
        end
  end.

Definition onmessage {E} (audioContext : AudioContext) (randomUUID : nat -> string)
    (cbs : Callbacks E) (message : LiveServerMessage) (w : World E) : World E :=
  let w := onmessage_transcripts cbs message w in
  let w := if turnComplete message then onmessage_turnComplete randomUUID cbs w else w in
  onmessage_audio audioContext cbs message w.

(** The connection's [onerror] and [onclose] callbacks. *)
Definition onerror {E} (cbs : Callbacks E) (e : Error) (w : World E) : World E :=
  stop (onError cbs e w).

Definition onclose {E} (cbs : Callbacks E) (w : World E) : World E :=
  stop (onClose cbs w).

(** ** [components/VoiceControlPanel.tsx]: the callbacks of the panel *)

(** The state of the panel: its React state ([liveError] holds the error
    whose message is shown), the transcript handed to [onTranscriptUpdate],
    and the refs of the playback queue. *)
Record Panel : Type := {
  isLiveActive : bool;
  isConnecting : bool;
  liveError : option Error;
  currentInputText : string;
  currentOutputText : string;
  transcript : list LiveSpeakerTurn;
  playback : Playback
}.

Definition handleTranscriptionUpdate (input output : string) (w : World Panel) : World Panel :=
  withConsumer (fun c =>
    {| isLiveActive := isLiveActive c; isConnecting := isConnecting c;
       liveError := liveError c;
       currentInputText := input; currentOutputText := output;
       transcript := transcript c; playback := playback c |}) w.

Definition handleCompleteTurn (turns : list LiveSpeakerTurn) (w : World Panel) : World Panel :=
  withConsumer (fun c =>
    {| isLiveActive := isLiveActive c; isConnecting := isConnecting c;
       liveError := liveError c;
       currentInputText := ""; currentOutputText := "";
       transcript := turns;
       playback :=
         {| audioQueue := []; nextStartTime := 0; audioSourceNodes := [];
            started := started (playback c) |} |}) w.

Definition handleLiveError (error : Error) (w : World Panel) : World Panel :=
  stop (withConsumer (fun c =>
    {| isLiveActive := false; isConnecting := false;
       liveError := Some error;
       currentInputText := currentInputText c; currentOutputText := currentOutputText c;
       transcript := transcript c; playback := playback c |}) w).

Definition handleLiveClose (w : World Panel) : World Panel :=
  withConsumer (fun c =>
    {| isLiveActive := false; isConnecting := false;
       liveError := None;
       currentInputText := ""; currentOutputText := "";
       transcript := transcript c; playback := playback c |}) w.

(** The callbacks [startLiveSession] passes to [start]; [closureLive] is the
    value of [isLiveActive] held by the closure of [playQueuedAudio] and
    [currentTime] the reading of the audio clock while the handler runs. *)
Definition panelCallbacks (closureLive : bool) (currentTime : Q) : Callbacks Panel :=
  {| onTranscriptionUpdate := handleTranscriptionUpdate;
     onCompleteTurn := handleCompleteTurn;
     onAudioChunk := fun audioBuffer =>
       withConsumer (fun c =>
         {| isLiveActive := isLiveActive c; isConnecting := isConnecting c;
            liveError := liveError c;
            currentInputText := currentInputText c; currentOutputText := currentOutputText c;
            transcript := transcript c;
            playback := handleLiveAudioChunk closureLive audioBuffer currentTime (playback c) |});
     onError := handleLiveError;
     onClose := handleLiveClose |}.

(** ** Auxiliary definitions used by the statements and proofs of Part II *)

Module Base64Aux.
Import Base64.

(** What has to hold of each of the 64 sextets; checked by evaluation. *)
Definition sextet_ok (v : Z) : bool :=
  match sextet_value (sextet_char v) with
  | Some w => (w =? v)
  | None => false
  end
  && negb (is_ascii_whitespace (sextet_char v))
  && negb (Ascii.eqb (sextet_char v) pad).

(** The sextets [btoa] emits, before they are turned into characters. *)
Fixpoint btoa_sextets (l : list ascii) : list Z :=
  match l with
  | [] => []
  | [a] =>
      let n := code a * 65536 in
      [n / 262144; (n / 4096) mod 64]
  | [a; b] =>
      let n := code a * 65536 + code b * 256 in
      [n / 262144; (n / 4096) mod 64; (n / 64) mod 64]
  | a :: b :: c :: rest =>
      let n := code a * 65536 + code b * 256 + code c in
      n / 262144 :: (n / 4096) mod 64 :: (n / 64) mod 64 :: n mod 64 ::
      btoa_sextets rest
  end.

Definition is_sextet (v : Z) : Prop := 0 <= v < 64.

End Base64Aux.

(** What a microphone frame has become once the receiving side has decoded
    the blob again: [createPcmBlob], then [decode] and [decodeAudioData]. *)
Definition roundTrip (ctx : AudioContext) (sampleRate : Z) (x : list Q) : Result AudioBuffer :=
  bytes <- decode (data (createPcmBlob x)) ;;
  decodeAudioData bytes ctx sampleRate 1.

(** A context that supports the sample rates every implementation of the
    Web Audio API has to support. *)
Definition sampleContext : AudioContext :=
  {| supportsSampleRate := fun r => (8000 <=? r) && (r <=? 96000) |}.

(** The bytes of an ASCII tag of the WAV header. *)
Definition asciiBytes (s : string) : list byte :=
  map (fun i => byte_of_Z (charCodeAt s i)) (seq 0 (String.length s)).

(** The 44-byte header as the format lays it out:
    [RIFF] size-8 [WAVE] [fmt ] 16 format=1 channels sampleRate byteRate
    blockAlign bitsPerSample=16 [data] dataSize. *)
Definition wavHeader (numOfChan length : nat) (sampleRate : Z) : list byte :=
  asciiBytes "RIFF"
  ++ bytes32 (Z.of_nat (length * numOfChan * 2 + 44) - 8)
  ++ asciiBytes "WAVE"
  ++ asciiBytes "fmt "
  ++ bytes32 16
  ++ bytes16 1
  ++ bytes16 (Z.of_nat numOfChan)
  ++ bytes32 sampleRate
  ++ bytes32 (sampleRate * Z.of_nat numOfChan * 2)
  ++ bytes16 (Z.of_nat numOfChan * 2)
  ++ bytes16 16
  ++ asciiBytes "data"
  ++ bytes32 (Z.of_nat length * Z.of_nat numOfChan * 2).

(** Reading fields back from a byte sequence (little-endian). *)
Definition byteAt (bytes : list byte) (i : nat) : byte := nth i bytes x00.

Definition readUint16 (bytes : list byte) (i : nat) : Z :=
  getUint16 (byteAt bytes i) (byteAt bytes (i + 1)).

Definition readInt16 (bytes : list byte) (i : nat) : Z :=
  getInt16 (byteAt bytes i) (byteAt bytes (i + 1)).

Definition readUint32 (bytes : list byte) (i : nat) : Z :=
  getUint32 (byteAt bytes i) (byteAt bytes (i + 1)) (byteAt bytes (i + 2)) (byteAt bytes (i + 3)).

(** The sample of channel [c] at frame [i]. *)
Definition sampleAt (b : AudioBuffer) (c i : nat) : Q :=
  nth i (nth c (AudioBuffer.channelData b) []) 0%Q.

(** The sizes the 16- and 32-bit fields of a WAV header can hold. *)
Definition fitsWav (b : AudioBuffer) : bool :=
  (0 <=? AudioBuffer.sampleRate b)
  && (AudioBuffer.sampleRate b <? 4294967296)
  && (AudioBuffer.sampleRate b * Z.of_nat (AudioBuffer.numberOfChannels b) * 2 <? 4294967296)
  && (Z.of_nat (AudioBuffer.numberOfChannels b) * 2 <? 65536)
  && (Z.of_nat (AudioBuffer.length b * AudioBuffer.numberOfChannels b * 2 + 44) <? 4294967296).

(** The two bytes written for one interleaved sample. *)
Definition sampleBytes (x : Q) : list byte := bytes16 (ToInt16 (scaleSample x)).

(** The sample value the format asks for: clamp to [-1, 1], then scale a
    negative value by 32768 and any other by 32767. *)
Definition clampUnit (x : Q) : Q :=
  if Qlt_bool x (-1) then (-1)%Q else if Qlt_bool 1 x then 1%Q else x.

Definition scaledUnit (x : Q) : Q :=
  let s := clampUnit x in
  if Qlt_bool s 0 then (s * 32768)%Q else (s * 32767)%Q.

(** A 2-channel, 24000 Hz, 100-sample buffer. *)
Definition stereoExample : AudioBuffer :=
  {| AudioBuffer.sampleRate := 24000;
     AudioBuffer.channelData := [repeat (1 # 2)%Q 100; repeat (-3 # 2)%Q 100] |}.

(** The data of channel [c]. *)
Definition channel (b : AudioBuffer) (c : nat) : list Q :=
  nth c (AudioBuffer.channelData b) [].

(** The number of frames in a sequence of buffers. *)
Definition totalFrames (buffers : list AudioBuffer) : nat :=
  list_sum (map AudioBuffer.length buffers).

(** The buffers the combiner accepts: produced by the context, and all with
    the channel count and sample rate of the first. *)
Definition combinable (ctx : AudioContext) (buffers : list AudioBuffer) : bool :=
  forallb (wf_buffer ctx) buffers
  && forallb (fun b =>
                Nat.eqb (AudioBuffer.numberOfChannels b)
                        (AudioBuffer.numberOfChannels (hd b buffers))
                && Z.eqb (AudioBuffer.sampleRate b)
                         (AudioBuffer.sampleRate (hd b buffers)))
             buffers.

(** Channel [c] of every buffer, one after the other. *)
Definition concatChannel (buffers : list AudioBuffer) (c : nat) : list Q :=
  List.concat (map (fun b => channel b c) buffers).

(** Three mono chunks of 100, 50 and 200 frames at 24000 Hz. *)
Definition monoChunk (name : string) (x : Q) (frames : nat) : GeneratedAudioChunk :=
  {| GeneratedAudioChunk.id := name;
     GeneratedAudioChunk.text := name;
     GeneratedAudioChunk.audioBuffer :=
       {| AudioBuffer.sampleRate := 24000;
          AudioBuffer.channelData := [repeat x frames] |} |}.

Definition threeChunks : list GeneratedAudioChunk :=
  [monoChunk "one" (1 # 2) 100; monoChunk "two" (1 # 4) 50; monoChunk "three" (-1 # 8) 200].

(** ** Auxiliary definitions for the orchestrator *)

Definition settled {A} (pr : Promise A) : bool :=
  match pr with
  | Pending => false
  | _ => true
  end.

Definition blank (segment : string) : bool := String.eqb (trim segment) "".

(** The segments whose synthesis call is in flight once all are issued. *)
Definition inFlight (o : GenerateSpeechOptions) : list nat :=
  map fst (filter (fun e => negb (blank (snd e))) (indexed (scriptSegments o))).

(** Whether the call for a segment ends in an error. *)
Definition fails (p : Platform) (o : GenerateSpeechOptions) (e : nat * string) : bool :=
  negb (blank (snd e))
  && match segmentAudio p o (fst e) (snd e) with
     | inl _ => false
     | inr _ => true
     end.

Definition anyFails (p : Platform) (o : GenerateSpeechOptions) : bool :=
  existsb (fails p o) (indexed (scriptSegments o)).

(** The text and audio of the chunks a run has to return, in the order of
    the script: one for each segment whose call yields audio. *)
Definition expectedContents (p : Platform) (o : GenerateSpeechOptions)
    : list (string * AudioBuffer) :=
  flat_map
    (fun e =>
       if blank (snd e) then []
       else match segmentAudio p o (fst e) (snd e) with
            | inl (Some audioBuffer) => [(trim (snd e), audioBuffer)]
            | _ => []
            end)
    (indexed (scriptSegments o)).

Definition contentOf (c : GeneratedAudioChunk) : string * AudioBuffer :=
  (GeneratedAudioChunk.text c, GeneratedAudioChunk.audioBuffer c).

Definition chunkOf (res : SegmentResult) : list GeneratedAudioChunk :=
  match chunk res with
  | Some c => [c]
  | None => []
  end.

(** What the promise of segment [i] may hold during a run in which the
    first [issued] segments have been started. *)
Definition promiseOk (p : Platform) (o : GenerateSpeechOptions) (issued : nat)
    (i : nat) (segment : string) (pr : Promise SegmentResult) : Prop :=
  match pr with
  | Pending => (issued <= i)%nat \/ blank segment = false
  | Fulfilled res =>
      originalIndex res = i
      /\ match chunk res with
         | None => blank segment = true \/ segmentAudio p o i segment = inl None
         | Some c =>
             blank segment = false
             /\ GeneratedAudioChunk.text c = trim segment
             /\ segmentAudio p o i segment
                = inl (Some (GeneratedAudioChunk.audioBuffer c))
         end
  | Rejected e => blank segment = false /\ segmentAudio p o i segment = inr e
  end.

(** The invariant of a run. *)
Record RunInv (p : Platform) (o : GenerateSpeechOptions) (issued : nat) (r : Run)
    : Prop := {
  inv_length : List.length (segmentPromises r) = List.length (scriptSegments o);
  inv_promises :
    forall i segment pr,
      nth_error (scriptSegments o) i = Some segment ->
      nth_error (segmentPromises r) i = Some pr ->
      promiseOk p o issued i segment pr;
  inv_count : processedCount r = List.length (filter settled (segmentPromises r));
  inv_calls :
    onProgress o = true ->
    progressCalls r
    = map (fun k => (k, List.length (scriptSegments o))) (seq 0 (S (processedCount r)));
  inv_rejected :
    match allRejected r with
    | Some e => In (Rejected e) (segmentPromises r)
    | None => forall e, ~ In (Rejected e) (segmentPromises r)
    end
}.

(** A run of five segments in which the third resolves first and the second
    carries no audio. *)
Definition fivePlatform : Platform :=
  {| API_KEY := Some "key"%string;
     generateContent := fun i _ =>
       if Nat.eqb i 1 then Resolves None else Resolves (Some "AAEC/w=="%string);
     randomUUID := fun n => String (ascii_of_nat (48 + n)) ""%string;
     outputAudioContext := sampleContext |}.

Definition fiveOptions : GenerateSpeechOptions :=
  {| scriptSegments := ["One"; ". "; "Two"; ". "; "Three"]%string;
     voiceId := "Kore";
     speakerMode := single;
     multiSpeakerConfigs := None;
     onProgress := true |}.

Definition fiveCompletions : list nat := [2; 0; 4; 3; 1]%nat.

(** The same script when the call for the fourth segment is rejected. *)
Definition failingPlatform : Platform :=
  {| API_KEY := Some "key"%string;
     generateContent := fun i _ =>
       if Nat.eqb i 3 then Rejects (ApiError "quota"%string) else Resolves (Some "AAEC/w=="%string);
     randomUUID := fun n => String (ascii_of_nat (48 + n)) ""%string;
     outputAudioContext := sampleContext |}.

(** What segment [e] contributes to the expected output. *)
Definition expectedEntry (p : Platform) (o : GenerateSpeechOptions) (e : nat * string)
    : list (string * AudioBuffer) :=
  if blank (snd e) then []
  else match segmentAudio p o (fst e) (snd e) with
       | inl (Some audioBuffer) => [(trim (snd e), audioBuffer)]
       | _ => []
       end.

(** ** Sample data for the playback queue *)

(** A mono buffer of [frames] silent frames at 24000 Hz. *)
Definition silence (frames : nat) : AudioBuffer :=
  {| AudioBuffer.sampleRate := 24000;
     AudioBuffer.channelData := [repeat 0%Q frames] |}.





(** ** Auxiliary definitions for the live session *)

(** The records a turn-complete event seals: one per non-empty side, the
    user's first. *)
Definition sealedSides (input output : string) : list (Speaker * string) :=
  (if String.eqb input "" then [] else [(user, input)])
  ++ (if String.eqb output "" then [] else [(model, output)]).

Definition sideOf (t : LiveSpeakerTurn) : Speaker * string :=
  (LiveSpeakerTurn.speaker t, LiveSpeakerTurn.text t).

(** What [stop] does to the hardware and the connection from a given state
    of the manager. *)
Definition releases (s : LiveSession) : list Effect :=
  match mediaStream s with Some stream => [TracksStopped stream] | None => [] end
  ++ match scriptProcessorNode s with Some node => [NodeDisconnected node] | None => [] end
  ++ match sessionPromise s with Some session => [CloseRequested session] | None => [] end.

(** Decoding an inline audio payload of the live session. *)
Definition decodeInlineAudio (audioContext : AudioContext) (base64 : string)
    : Result AudioBuffer :=
  bytes <- decode base64 ;;
  decodeAudioData bytes audioContext DEFAULT_SAMPLE_RATE 1.

(** A consumer that only keeps a record of what it is told. *)
Record Recorder : Type := {
  errorsSeen : list Error;
  turnsSeen : list (list LiveSpeakerTurn);
  chunksSeen : list AudioBuffer
}.

Definition recordingCallbacks : Callbacks Recorder :=
  {| onTranscriptionUpdate := fun _ _ w => w;
     onCompleteTurn := fun turns =>
       withConsumer (fun c =>
         {| errorsSeen := errorsSeen c; turnsSeen := turnsSeen c ++ [turns];
            chunksSeen := chunksSeen c |});
     onAudioChunk := fun audioBuffer =>
       withConsumer (fun c =>
         {| errorsSeen := errorsSeen c; turnsSeen := turnsSeen c;
            chunksSeen := chunksSeen c ++ [audioBuffer] |});
     onError := fun error =>
       withConsumer (fun c =>
         {| errorsSeen := errorsSeen c ++ [error]; turnsSeen := turnsSeen c;
            chunksSeen := chunksSeen c |});
     onClose := fun w => w |}.

(** An active session: microphone stream 1, processing node 2, connection 3. *)
Definition activeSession (input output : string) : LiveSession :=
  {| sessionPromise := Some 3%nat;
     mediaStream := Some 1%nat;
     scriptProcessorNode := Some 2%nat;
     currentInputTranscription := input;
     currentOutputTranscription := output;
     accumulatedTurns := [] |}.

Definition recordingWorld : World Recorder :=
  {| live := activeSession "" "";
     effects := [];
     turnIds := 0;
     consumer := {| errorsSeen := []; turnsSeen := []; chunksSeen := [] |} |}.

Definition idlePanel : Panel :=
  {| isLiveActive := true;
     isConnecting := false;
     liveError := None;
     currentInputText := "";
     currentOutputText := "";
     transcript := [];
     playback := emptyPlayback |}.

Definition panelWorld (input output : string) : World Panel :=
  {| live := activeSession input output;
     effects := [];
     turnIds := 0;
     consumer := idlePanel |}.

(** A message whose inline audio is not base64 (one character only). *)
Definition malformedAudio : LiveServerMessage :=
  {| outputTranscription := None;
     inputTranscription := None;
     turnComplete := false;
     inlineAudio := Some "A"%string |}.

Definition turnCompleteMessage : LiveServerMessage :=
  {| outputTranscription := None;
     inputTranscription := None;
     turnComplete := true;
     inlineAudio := None |}.

Definition turnUUID (n : nat) : string := String (ascii_of_nat (97 + n)) "".

(* ================================================================== *)
(** * Further definitions: the rest of the sources                    *)
(* ================================================================== *)

(** ** [utils/audioUtils.ts]: reading a PCM payload *)

(** The 16-bit sample number [k] of a byte buffer. *)
Definition int16At (data : list byte) (k : nat) : Z := readInt16 data (2 * k).

(** Whether [decodeAudioData] gets past [new Int16Array] and
    [ctx.createBuffer]: an even byte length, a channel count the platform
    accepts, at least one whole frame and a supported sample rate. *)
Definition decodable (data : list byte) (ctx : AudioContext) (sampleRate : Z)
    (numChannels : nat) : bool :=
  Nat.even (List.length data)
  && (1 <=? numChannels)%nat && (numChannels <=? 32)%nat
  && (numChannels <=? List.length data / 2)%nat
  && supportsSampleRate ctx sampleRate.

(** Six bytes: three 16-bit samples, or one frame of three channels. *)
Definition sixBytes : list byte := [x00; x40; x00; xc0; xff; x7f].

(** ** [services/geminiService.ts]: splitting the script into segments *)

(** The shape of the alternatives of the separator pattern: a sequence of
    characters, some of them optional. *)
Inductive Atom : Type :=
| Chr (c : ascii)       (* the character itself *)
| Opt (c : ascii).      (* the character followed by [?] *)

Definition CR : ascii := "013"%char.
Definition LF : ascii := "010"%char.

(** The pattern [\r?\n\r?\n|\. |\? |! |。|？|！] on strings of the 8-bit
    range, where the last three alternatives (the code units 0x3002, 0xFF1F
    and 0xFF01) match nowhere. *)
Definition separatorPattern : list (list Atom) :=
  [ [Opt CR; Chr LF; Opt CR; Chr LF];
    [Chr "."%char; Chr " "%char];
    [Chr "?"%char; Chr " "%char];
    [Chr "!"%char; Chr " "%char] ].

(** Matching one character at the head of the input, then the rest. *)
Definition matchChar (c : ascii) (rest : list ascii -> option nat) (l : list ascii)
    : option nat :=
  match l with
  | x :: r => if Ascii.eqb x c then option_map S (rest r) else None
  | [] => None
  end.

(** A sequence matched at the start of the input: the number of characters
    matched.  An optional character is taken first (the quantifier is
    greedy) and given up when the rest does not match (backtracking). *)
Fixpoint matchSeq (pat : list Atom) (l : list ascii) : option nat :=
  match pat with
  | [] => Some 0%nat
  | Chr c :: pat' => matchChar c (matchSeq pat') l
  | Opt c :: pat' =>
      match matchChar c (matchSeq pat') l with
      | Some n => Some n
      | None => matchSeq pat' l
      end
  end.

(** The alternatives are tried from left to right. *)
Fixpoint matchAlt (alts : list (list Atom)) (l : list ascii) : option nat :=
  match alts with
  | [] => None
  | pat :: alts' =>
      match matchSeq pat l with
      | Some n => Some n
      | None => matchAlt alts' l
      end
  end.

(** [String.prototype.split] with a pattern in one capture group: the scan
    moves through the input one position at a time; where the pattern
    matches, the piece read so far and the text matched are both pushed and
    the scan resumes after the match; the piece left at the end is pushed
    last.  [piece] is the current piece, last character first, and [skip]
    the number of characters still to pass over of a match already pushed.
    (The pattern matches no empty string.) *)
Fixpoint splitLoop (skip : nat) (piece : list ascii) (l : list ascii) : list string :=
  match l with
  | [] => [string_of_list_ascii (rev piece)]
  | c :: r =>
      match skip with
      | S k => splitLoop k piece r
      | O =>
          match matchAlt separatorPattern l with
          | Some (S n) =>
              string_of_list_ascii (rev piece)
              :: string_of_list_ascii (firstn (S n) l)
              :: splitLoop n [] r
          | _ => splitLoop 0 (c :: piece) r
          end
      end
  end.

Definition splitScript (script : string) : list string :=
  splitLoop 0 [] (list_ascii_of_string script).

(** [script.split(...).filter(s => s.trim() !== '')]. *)
Definition scriptSegmentsOf (script : string) : list string :=
  filter (fun s => negb (String.eqb (trim s) "")) (splitScript script).

(** The options as [generateSpeech] destructures them: [scriptSegments] is
    computed from [script]. *)
Definition optionsOf (script voiceId : string) (speakerMode : SpeakerMode)
    (multiSpeakerConfigs : option (list SpeakerConfig.t)) (onProgress : bool)
    : GenerateSpeechOptions :=
  {| scriptSegments := scriptSegmentsOf script;
     voiceId := voiceId;
     speakerMode := speakerMode;
     multiSpeakerConfigs := multiSpeakerConfigs;
     onProgress := onProgress |}.

(** A character with which a separator can start. *)
Definition startsSeparator (c : ascii) : bool :=
  Ascii.eqb c CR || Ascii.eqb c LF
  || Ascii.eqb c "."%char || Ascii.eqb c "?"%char || Ascii.eqb c "!"%char.

(** Text free of such characters, and text that is white space only. *)
Definition plain (s : string) : bool :=
  forallb (fun c => negb (startsSeparator c)) (list_ascii_of_string s).

Definition whitespaceOnly (s : string) : bool :=
  forallb is_js_whitespace (list_ascii_of_string s).

(** The requests a run issues, in the order of the script: one for every
    segment that is not blank. *)
Definition requestsOf (o : GenerateSpeechOptions) : list Request :=
  map (fun e => {| contents := trim (snd e); config := speechConfigOf o |})
      (filter (fun e => negb (blank (snd e))) (indexed (scriptSegments o))).

(** The speakers configured, and those [generateSpeech] cannot use: the
    name or the voice is blank. *)
Definition configsOf (o : GenerateSpeechOptions) : list SpeakerConfig.t :=
  match multiSpeakerConfigs o with
  | Some cs => cs
  | None => []
  end.

Definition unusable (s : SpeakerConfig.t) : bool :=
  whitespaceOnly (SpeakerConfig.name s) || whitespaceOnly (SpeakerConfig.voiceId s).

(** Whether the environment holds a usable API key. *)
Definition hasApiKey (p : Platform) : bool :=
  match API_KEY p with
  | Some k => negb (whitespaceOnly k)
  | None => false
  end.

(** Sample data: a platform without a key, and two speakers of which the
    second has no name. *)
Definition keylessPlatform : Platform :=
  {| API_KEY := Some "   "%string;
     generateContent := fun _ _ => Resolves (Some "AAEC/w=="%string);
     randomUUID := fun n => String (ascii_of_nat (48 + n)) ""%string;
     outputAudioContext := sampleContext |}.

Definition twoSpeakers : list SpeakerConfig.t :=
  [ {| SpeakerConfig.name := "Speaker1"; SpeakerConfig.voiceId := "Zephyr" |};
    {| SpeakerConfig.name := "  "; SpeakerConfig.voiceId := "Kore" |} ].

Definition blankSpeakers : list SpeakerConfig.t :=
  [ {| SpeakerConfig.name := ""; SpeakerConfig.voiceId := "Zephyr" |};
    {| SpeakerConfig.name := "Speaker2"; SpeakerConfig.voiceId := " " |} ].

Definition multiOptions (configs : list SpeakerConfig.t) : GenerateSpeechOptions :=
  {| scriptSegments := ["Speaker1: Hello"; ". "; "Speaker2: Hi"]%string;
     voiceId := "Zephyr";
     speakerMode := multi;
     multiSpeakerConfigs := Some configs;
     onProgress := true |}.

(** The identifiers of the chunks a promise holds. *)
Definition idsOf (pr : Promise SegmentResult) : list string :=
  match pr with
  | Fulfilled res => map GeneratedAudioChunk.id (chunkOf res)
  | _ => []
  end.

(** A platform whose identifiers are pairwise distinct: the [n]-th one is
    made of [n] letters. *)
Definition countingUUID (n : nat) : string := string_of_list_ascii (repeat "a"%char n).

Definition countingPlatform : Platform :=
  {| API_KEY := Some "key"%string;
     generateContent := fun i _ =>
       if Nat.eqb i 1 then Resolves None else Resolves (Some "AAEC/w=="%string);
     randomUUID := countingUUID;
     outputAudioContext := sampleContext |}.

(** What is known of the identifiers during a run: they are pairwise
    distinct and all among those drawn so far. *)
Definition IdInv (p : Platform) (r : Run) : Prop :=
  NoDup (flat_map idsOf (segmentPromises r))
  /\ forall x, In x (flat_map idsOf (segmentPromises r)) ->
               exists k, (k < uuidsDrawn r)%nat /\ x = randomUUID p k.


(** ** [createLiveSessionManager]: [start] *)

(** What the platform answers during one call of [start]: the microphone
    stream [getUserMedia] resolves with (or the error it rejects with), the
    node [createScriptProcessor] returns, and the session promise
    [ai.live.connect] returns (or the error it throws). *)
Record StartPlatform : Type := {
  getUserMedia : Result nat;
  createScriptProcessor : nat;
  connect : Result nat
}.

Definition setMediaStream (stream : option nat) (s : LiveSession) : LiveSession :=
  {| sessionPromise := sessionPromise s;
     mediaStream := stream;
     scriptProcessorNode := scriptProcessorNode s;
     currentInputTranscription := currentInputTranscription s;
     currentOutputTranscription := currentOutputTranscription s;
     accumulatedTurns := accumulatedTurns s |}.

Definition setScriptProcessorNode (node : option nat) (s : LiveSession) : LiveSession :=
  {| sessionPromise := sessionPromise s;
     mediaStream := mediaStream s;
     scriptProcessorNode := node;
     currentInputTranscription := currentInputTranscription s;
     currentOutputTranscription := currentOutputTranscription s;
     accumulatedTurns := accumulatedTurns s |}.

Definition setSessionPromise (session : option nat) (s : LiveSession) : LiveSession :=
  {| sessionPromise := session;
     mediaStream := mediaStream s;
     scriptProcessorNode := scriptProcessorNode s;
     currentInputTranscription := currentInputTranscription s;
     currentOutputTranscription := currentOutputTranscription s;
     accumulatedTurns := accumulatedTurns s |}.

(** [start], run to its end without any other event in between: what the
    promise it returns settles to, and the world then.  [getGenAI] is
    called outside the [try] block, so that its error rejects the promise;
    an error inside the block goes to [onError] and is followed by [stop],
    and the promise resolves. *)
Definition start {E} (p : Platform) (sp : StartPlatform) (cbs : Callbacks E)
    (w : World E) : Result unit * World E :=
  let w := resetTranscription (stop w) in
  match getGenAI p with
  | inr e => (throw e, w)
  | inl _ =>
      match getUserMedia sp with
      | inr error => (ret tt, stop (onError cbs error w))
      | inl stream =>
          let w := withLive (setMediaStream (Some stream)) w in
          let w := withLive (setScriptProcessorNode (Some (createScriptProcessor sp))) w in
          match connect sp with
          | inr error => (ret tt, stop (onError cbs error w))
          | inl session => (ret tt, withLive (setSessionPromise (Some session)) w)
          end
      end
  end.

(** ** [components/VoiceControlPanel.tsx]: starting and stopping *)

(** Emptying the queue, resetting the cursor and stopping every source. *)
Definition clearPlayback (st : Playback) : Playback :=
  {| audioQueue := []; nextStartTime := 0; audioSourceNodes := [];
     started := started st |}.

Definition startLiveSession (p : Platform) (sp : StartPlatform)
    (closureLive : bool) (currentTime : Q) (w : World Panel) : World Panel :=
  let w :=
    withConsumer (fun c =>
      {| isLiveActive := isLiveActive c; isConnecting := true;
         liveError := None;
         currentInputText := ""; currentOutputText := "";
         transcript := [];
         playback := clearPlayback (playback c) |}) w in
  let outcome := start p sp (panelCallbacks closureLive currentTime) w in
  let w :=
    match fst outcome with
    | inl _ =>
        withConsumer (fun c =>
          {| isLiveActive := true; isConnecting := isConnecting c;
             liveError := liveError c;
             currentInputText := currentInputText c;
             currentOutputText := currentOutputText c;
             transcript := transcript c; playback := playback c |}) (snd outcome)
    | inr err =>
        stop (withConsumer (fun c =>
          {| isLiveActive := false; isConnecting := isConnecting c;
             liveError := Some err;
             currentInputText := currentInputText c;
             currentOutputText := currentOutputText c;
             transcript := transcript c; playback := playback c |}) (snd outcome))
    end in
  withConsumer (fun c =>
    {| isLiveActive := isLiveActive c; isConnecting := false;
       liveError := liveError c;
       currentInputText := currentInputText c;
       currentOutputText := currentOutputText c;
       transcript := transcript c; playback := playback c |}) w.

Definition stopLiveSession (w : World Panel) : World Panel :=
  withConsumer (fun c =>
    {| isLiveActive := false; isConnecting := isConnecting c;
       liveError := None;
       currentInputText := currentInputText c;
       currentOutputText := currentOutputText c;
       transcript := transcript c;
       playback := clearPlayback (playback c) |}) (stop w).

(** The handles a manager holds, and a manager that holds none. *)
Definition handlesOf (s : LiveSession) : option nat * option nat * option nat :=
  (mediaStream s, scriptProcessorNode s, sessionPromise s).

Definition idleSession : LiveSession :=
  {| sessionPromise := None;
     mediaStream := None;
     scriptProcessorNode := None;
     currentInputTranscription := "";
     currentOutputTranscription := "";
     accumulatedTurns := [] |}.

(** Sample answers of the platform: everything granted (stream 11, node 12,
    session 13), and the microphone denied. *)
Definition grantingPlatform : StartPlatform :=
  {| getUserMedia := ret 11%nat; createScriptProcessor := 12%nat; connect := ret 13%nat |}.

Definition denyingPlatform : StartPlatform :=
  {| getUserMedia := throw (ApiError "NotAllowedError");
     createScriptProcessor := 12%nat; connect := ret 13%nat |}.

Definition refusingPlatform : StartPlatform :=
  {| getUserMedia := ret 11%nat; createScriptProcessor := 12%nat;
     connect := throw (ApiError "connect") |}.

(** ** The panel and the manager side by side *)

(** The panel shows what the manager has accumulated. *)
Definition synced (w : World Panel) : Prop :=
  currentInputText (consumer w) = currentInputTranscription (live w)
  /\ currentOutputText (consumer w) = currentOutputTranscription (live w).

(** The text a message adds to an accumulator. *)
Definition deltaOf (text : option string) : string :=
  match text with
  | Some t => t
  | None => ""
  end.

(** Whether the inline audio of a message, if any, decodes. *)
Definition audioDecodes (audioContext : AudioContext) (message : LiveServerMessage) : bool :=
  match inlineAudio message with
  | None => true
  | Some base64 =>
      String.eqb base64 ""
      || match decodeInlineAudio audioContext base64 with
         | inl _ => true
         | inr _ => false
         end
  end.

(** A message with both deltas and a payload of three samples. *)
Definition deltaMessage : LiveServerMessage :=
  {| outputTranscription := Some "Hi"%string;
     inputTranscription := Some "Hello"%string;
     turnComplete := false;
     inlineAudio := Some "AAEC/w=="%string |}.

(** A message that ends the turn and carries a payload of two samples. *)
Definition closingMessage : LiveServerMessage :=
  {| outputTranscription := None;
     inputTranscription := Some "Bye"%string;
     turnComplete := true;
     inlineAudio := Some "AAEC/w=="%string |}.

(** ** The playback queue over a run of events *)

(** The chunks a sequence of events brings, in order of arrival. *)
Definition arrivals (events : list PlaybackEvent) : list AudioBuffer :=
  flat_map (fun e => match e with
                     | ChunkArrives b _ => [b]
                     | SourceEnds _ _ => []
                     end) events.

(** When a scheduled source ends. *)
Definition endOf (s : Scheduled) : Q := (when s + AudioBuffer.duration (buffer s))%Q.

(** Sources that do not overlap: each starts no earlier than [prevEnd], the
    end of the one before. *)
Fixpoint spaced (prevEnd : Q) (l : list Scheduled) : Prop :=
  match l with
  | [] => True
  | s :: r => (prevEnd <= when s)%Q /\ spaced (endOf s) r
  end.

(** The end of the last source of a list ([prevEnd] when there is none). *)
Definition finalEnd (prevEnd : Q) (l : list Scheduled) : Q :=
  fold_left (fun _ s => endOf s) l prevEnd.

(** No chunk waits while nothing plays. *)
Definition fed (st : Playback) : Prop :=
  audioQueue st = [] \/ audioSourceNodes st <> [].

(** Sample events: three chunks arriving at clock 1, of which the first
    source ends at clock 2. *)
Definition sampleEvents : list PlaybackEvent :=
  [ChunkArrives (silence 120) 1; ChunkArrives (silence 60) 1;
   ChunkArrives (silence 30) 1; SourceEnds 0 2].

(** ** [utils/audioUtils.ts]: [mixAudioBuffers] *)

(** The sums and products of [mixAudioBuffers] are not exact: a result of
    binary64 arithmetic is rounded ([toFloat64]), and rounded again when it
    is stored in a [Float32Array] ([toFloat32]).  The two roundings are
    parameters of the model. *)
Record Rounding : Type := {
  toFloat64 : Q -> Q;
  toFloat32 : Q -> Q
}.

(** Arithmetic without rounding. *)
Definition exactArithmetic : Rounding :=
  {| toFloat64 := fun x => x; toFloat32 := fun x => x |}.

(** [mixed[i] += x] and [mixed[i] *= gain] on a [Float32Array]. *)
Definition addInto (fl : Rounding) (a b : Q) : Q := toFloat32 fl (toFloat64 fl (a + b)).
Definition scaleInto (fl : Rounding) (a gain : Q) : Q := toFloat32 fl (toFloat64 fl (a * gain)).

(** What the promise of [mixAudioBuffers] settles to. *)
Inductive MixOutcome : Type :=
| Resolved (mixedBuffer : AudioBuffer)
| NoAudioBuffers                   (* Error('No audio buffers to mix.') *)
| Thrown (e : Error).              (* an exception of the platform *)

(** The loop [for (i = 0; i < buffer.length; i++) mixed[i] += data[i]]. *)
Definition mixChannel (fl : Rounding) (bufferChannelData : list Q) (length : nat)
    (mixedChannelData : list Q) : list Q :=
  fold_left
    (fun mixed i => upd i (addInto fl (nth i mixed 0%Q) (nth i bufferChannelData 0%Q)) mixed)
    (seq 0 length) mixedChannelData.

(** One iteration of [for (const buffer of audioBuffers)]. *)
Definition mixBuffer (fl : Rounding) (numberOfChannels : nat) (buffer : AudioBuffer)
    (mixedBuffer : AudioBuffer) : Result AudioBuffer :=
  fold_left
    (fun acc channel =>
       mixedBuffer <- acc ;;
       mixedChannelData <- AudioBuffer.getChannelData mixedBuffer channel ;;
       bufferChannelData <- AudioBuffer.getChannelData buffer channel ;;
       ret (AudioBuffer.setChannelData mixedBuffer channel
              (mixChannel fl bufferChannelData (AudioBuffer.length buffer)
                          mixedChannelData)))
    (seq 0 numberOfChannels) (ret mixedBuffer).

(** The search for the peak: [maxVal = Math.max(maxVal, Math.abs(x))] over
    every sample of every channel. *)
Definition peakOfChannel (length : nat) (channelData : list Q) (maxVal : Q) : Q :=
  fold_left (fun maxVal i => Math_max maxVal (Qabs (nth i channelData 0%Q)))
            (seq 0 length) maxVal.

Definition peakOf (numberOfChannels : nat) (mixedBuffer : AudioBuffer) : Result Q :=
  fold_left
    (fun acc channel =>
       maxVal <- acc ;;
       channelData <- AudioBuffer.getChannelData mixedBuffer channel ;;
       ret (peakOfChannel (AudioBuffer.length mixedBuffer) channelData maxVal))
    (seq 0 numberOfChannels) (ret 0%Q).

(** The loop [channelData[i] *= gain]. *)
Definition scaleChannel (fl : Rounding) (gain : Q) (length : nat)
    (channelData : list Q) : list Q :=
  fold_left (fun cd i => upd i (scaleInto fl (nth i cd 0%Q) gain) cd)
            (seq 0 length) channelData.

Definition normalize (fl : Rounding) (numberOfChannels : nat) (maxVal : Q)
    (mixedBuffer : AudioBuffer) : Result AudioBuffer :=
  if Qlt_bool 1 maxVal then
    let gain := toFloat64 fl (1 / maxVal) in
    fold_left
      (fun acc channel =>
         mixedBuffer <- acc ;;
         channelData <- AudioBuffer.getChannelData mixedBuffer channel ;;
         ret (AudioBuffer.setChannelData mixedBuffer channel
                (scaleChannel fl gain (AudioBuffer.length mixedBuffer) channelData)))
      (seq 0 numberOfChannels) (ret mixedBuffer)
  else ret mixedBuffer.

Definition mixAudioBuffers (fl : Rounding) (audioBuffers : list AudioBuffer)
    (outputAudioContext : AudioContext) : MixOutcome :=
  match audioBuffers with
  | [] => NoAudioBuffers
  | first :: _ =>
      let sampleRate := AudioBuffer.sampleRate first in
      let numberOfChannels := AudioBuffer.numberOfChannels first in
      let maxLength :=
        fold_left (fun max buffer => Nat.max max (AudioBuffer.length buffer))
                  audioBuffers 0%nat in
      match (mixedBuffer <- createBuffer outputAudioContext numberOfChannels maxLength
                                         sampleRate ;;
             mixedBuffer <- fold_left
                              (fun acc buffer =>
                                 mixedBuffer <- acc ;;
                                 mixBuffer fl numberOfChannels buffer mixedBuffer)
                              audioBuffers (ret mixedBuffer) ;;
             maxVal <- peakOf numberOfChannels mixedBuffer ;;
             normalize fl numberOfChannels maxVal mixedBuffer) with
      | inl mixedBuffer => Resolved mixedBuffer
      | inr e => Thrown e
      end
  end.

(** The longest of a list of buffers. *)
Definition maxLength (buffers : list AudioBuffer) : nat :=
  fold_left (fun max buffer => Nat.max max (AudioBuffer.length buffer)) buffers 0%nat.

(** What the mixing loops leave at frame [i] of channel [c]: the samples of
    the buffers that reach frame [i], added one after the other. *)
Definition mixedSample (fl : Rounding) (buffers : list AudioBuffer) (c i : nat) : Q :=
  fold_left
    (fun acc b => if (i <? AudioBuffer.length b)%nat then addInto fl acc (sampleAt b c i)
                  else acc)
    buffers 0%Q.

(** The peak of these sums over [channels] channels and [frames] frames. *)
Definition mixedPeak (fl : Rounding) (buffers : list AudioBuffer)
    (channels frames : nat) : Q :=
  fold_left
    (fun maxVal c =>
       fold_left (fun maxVal i => Math_max maxVal (Qabs (mixedSample fl buffers c i)))
                 (seq 0 frames) maxVal)
    (seq 0 channels) 0%Q.

(** The sample [mixAudioBuffers] returns for a sum [x] when the peak is
    [maxVal]. *)
Definition normalized (fl : Rounding) (maxVal x : Q) : Q :=
  if Qlt_bool 1 maxVal then scaleInto fl x (toFloat64 fl (1 / maxVal)) else x.

(** The buffers [mixAudioBuffers] accepts: produced by the context, each
    with at least as many channels as the first. *)
Definition mixable (ctx : AudioContext) (buffers : list AudioBuffer) : bool :=
  forallb (wf_buffer ctx) buffers
  && forallb (fun b => (AudioBuffer.numberOfChannels (hd b buffers)
                        <=? AudioBuffer.numberOfChannels b)%nat) buffers.

(** What the proof of the bound on the output needs of the two roundings;
    round-to-nearest has all of it. *)
Record RoundsWell (fl : Rounding) : Prop := {
  toFloat64_monotone : forall x y, (x <= y)%Q -> (toFloat64 fl x <= toFloat64 fl y)%Q;
  toFloat32_monotone : forall x y, (x <= y)%Q -> (toFloat32 fl x <= toFloat32 fl y)%Q;
  toFloat64_zero : (toFloat64 fl 0 == 0)%Q;
  toFloat32_one : (toFloat32 fl 1 == 1)%Q;
  toFloat32_minus_one : (toFloat32 fl (-1) == -1)%Q;
  reciprocal_up : forall m, (1 < m)%Q -> (toFloat64 fl (m * toFloat64 fl (1 / m)) <= 1)%Q;
  reciprocal_down : forall m, (1 < m)%Q -> (-1 <= toFloat64 fl (- m * toFloat64 fl (1 / m)))%Q
}.

(** Two mono buffers whose sum exceeds full scale. *)
Definition loudPair : list AudioBuffer :=
  [ {| AudioBuffer.sampleRate := 24000; AudioBuffer.channelData := [[1 # 2; 3 # 4; -1]%Q] |};
    {| AudioBuffer.sampleRate := 24000; AudioBuffer.channelData := [[1 # 2; 3 # 4]%Q] |} ].

(** A buffer given by its samples: [channels] channels of [frames] frames,
    channel [c] holding [f c i] at frame [i]. *)
Definition tabulate (sampleRate : Z) (f : nat -> nat -> Q) (channels frames : nat)
    : AudioBuffer :=
  {| AudioBuffer.sampleRate := sampleRate;
     AudioBuffer.channelData :=
       map (fun c => map (fun i => f c i) (seq 0 frames)) (seq 0 channels) |}.

(* ================================================================== *)
(** * Part II: properties                                             *)
(* ================================================================== *)

(** ** Base64 round trip *)

Example encode_Man : encode [x4d; x61; x6e] = "TWFu"%string.
Proof. reflexivity. Qed.

Example encode_Ma : encode [x4d; x61] = "TWE="%string.
Proof. reflexivity. Qed.

Example decode_TQ : decode "TQ==" = ret [x4d].
Proof. reflexivity. Qed.

Example decode_bad : decode "T" = throw InvalidCharacterError.
Proof. reflexivity. Qed.

Section Base64Facts.
Import Base64 Base64Aux.

(** Induction over a list three elements at a time, the way [btoa]
    consumes its input. *)
Lemma list_ind3 {A} (P : list A -> Prop) :
  P [] ->
  (forall a, P [a]) ->
  (forall a b, P [a; b]) ->
  (forall a b c rest, P rest -> P (a :: b :: c :: rest)) ->
  forall l, P l.
Proof.
  intros H0 H1 H2 H3.
  fix IH 1.
  intros [|a [|b [|c rest]]].
  - exact H0.
  - apply H1.
  - apply H2.
  - apply H3, IH.
Qed.

Lemma code_range c : 0 <= code c < 256.
Proof.
  unfold code. pose proof (N_ascii_bounded c). lia.
Qed.

Lemma fromCode_code c : fromCode (code c) = c.
Proof.
  unfold fromCode, code. rewrite N2Z.id. apply ascii_N_embedding.
Qed.


Lemma sextet_ok_all v : 0 <= v < 64 -> sextet_ok v = true.
Proof.
  intros Hv.
  assert (Hall : forallb sextet_ok (map Z.of_nat (seq 0 64)) = true)
    by (vm_compute; reflexivity).
  rewrite forallb_forall in Hall. apply Hall.
  apply in_map_iff. exists (Z.to_nat v). split; [lia|].
  apply in_seq. lia.
Qed.

Lemma sextet_value_char v : 0 <= v < 64 -> sextet_value (sextet_char v) = Some v.
Proof.
  intros Hv. pose proof (sextet_ok_all v Hv) as H. unfold sextet_ok in H.
  apply andb_prop in H as [H _]. apply andb_prop in H as [H _].
  destruct (sextet_value (sextet_char v)); [|discriminate].
  apply Z.eqb_eq in H. now subst.
Qed.

Lemma sextet_char_not_ws v : 0 <= v < 64 -> is_ascii_whitespace (sextet_char v) = false.
Proof.
  intros Hv. pose proof (sextet_ok_all v Hv) as H. unfold sextet_ok in H.
  apply andb_prop in H as [H _]. apply andb_prop in H as [_ H].
  now apply negb_true_iff in H.
Qed.

Lemma sextet_char_not_pad v : 0 <= v < 64 -> Ascii.eqb (sextet_char v) pad = false.
Proof.
  intros Hv. pose proof (sextet_ok_all v Hv) as H. unfold sextet_ok in H.
  apply andb_prop in H as [_ H]. now apply negb_true_iff in H.
Qed.

Lemma pad_not_ws : is_ascii_whitespace pad = false.
Proof. reflexivity. Qed.



Lemma btoa_sextets_range l : Forall is_sextet (btoa_sextets l).
Proof.
  induction l as [|a|a b|a b c rest IH] using list_ind3; cbn [btoa_sextets];
    repeat constructor; auto; unfold is_sextet;
    pose proof (code_range a);
    try pose proof (code_range b); try pose proof (code_range c);
    Z.div_mod_to_equations; lia.
Qed.

Lemma btoa_chars_no_ws l :
  filter (fun c => negb (is_ascii_whitespace c)) (btoa_chars l) = btoa_chars l.
Proof.
  pose proof (btoa_sextets_range l) as Hr.
  induction l as [|a|a b|a b c rest IH] using list_ind3;
    cbn [btoa_chars btoa_sextets filter] in *.
  - reflexivity.
  - inversion Hr as [|? ? H0 Hr1]; subst. inversion Hr1 as [|? ? H1 _]; subst.
    rewrite !sextet_char_not_ws, pad_not_ws by assumption. reflexivity.
  - inversion Hr as [|? ? H0 Hr1]; subst. inversion Hr1 as [|? ? H1 Hr2]; subst.
    inversion Hr2 as [|? ? H2 _]; subst.
    rewrite !sextet_char_not_ws, pad_not_ws by assumption. reflexivity.
  - inversion Hr as [|? ? H0 Hr1]; subst. inversion Hr1 as [|? ? H1 Hr2]; subst.
    inversion Hr2 as [|? ? H2 Hr3]; subst. inversion Hr3 as [|? ? H3 Hr4]; subst.
    rewrite !sextet_char_not_ws by assumption. cbn [negb].
    rewrite IH by assumption. reflexivity.
Qed.

Lemma btoa_chars_length l : exists k, List.length (btoa_chars l) = (4 * k)%nat.
Proof.
  induction l as [|a|a b|a b c rest [k IH]] using list_ind3; cbn [btoa_chars List.length].
  - now exists 0%nat.
  - now exists 1%nat.
  - now exists 1%nat.
  - exists (S k). rewrite IH. lia.
Qed.

Lemma btoa_sextets_length l :
  exists k r, List.length (btoa_sextets l) = (4 * k + r)%nat /\ (r = 0 \/ r = 2 \/ r = 3)%nat.
Proof.
  induction l as [|a|a b|a b c rest (k & r & IH & Hr)] using list_ind3;
    cbn [btoa_sextets List.length].
  - exists 0%nat, 0%nat. lia.
  - exists 0%nat, 2%nat. lia.
  - exists 0%nat, 3%nat. lia.
  - exists (S k), r. rewrite IH. lia.
Qed.

Lemma strip_padding_cons x r :
  Ascii.eqb x pad = false -> strip_padding (x :: r) = x :: strip_padding r.
Proof.
  intros Hx. cbn [strip_padding only_padding].
  destruct r as [|y [|z r']]; rewrite ?Hx; reflexivity.
Qed.

Lemma strip_padding_btoa l :
  strip_padding (btoa_chars l) = map sextet_char (btoa_sextets l).
Proof.
  pose proof (btoa_sextets_range l) as Hr.
  induction l as [|a|a b|a b c rest IH] using list_ind3;
    cbn [btoa_chars btoa_sextets map] in *.
  - reflexivity.
  - inversion Hr as [|? ? H0 Hr1]; subst. inversion Hr1 as [|? ? H1 _]; subst.
    rewrite !strip_padding_cons by now apply sextet_char_not_pad.
    reflexivity.
  - inversion Hr as [|? ? H0 Hr1]; subst. inversion Hr1 as [|? ? H1 Hr2]; subst.
    inversion Hr2 as [|? ? H2 _]; subst.
    rewrite !strip_padding_cons by now apply sextet_char_not_pad.
    reflexivity.
  - inversion Hr as [|? ? H0 Hr1]; subst. inversion Hr1 as [|? ? H1 Hr2]; subst.
    inversion Hr2 as [|? ? H2 Hr3]; subst. inversion Hr3 as [|? ? H3 Hr4]; subst.
    rewrite !strip_padding_cons by now apply sextet_char_not_pad.
    now rewrite IH.
Qed.

Lemma sextets_map_char vs :
  Forall is_sextet vs -> sextets (map sextet_char vs) = Some vs.
Proof.
  induction 1 as [|v vs Hv _ IH]; cbn [map sextets]; [reflexivity|].
  now rewrite sextet_value_char, IH.
Qed.

Lemma atob_groups_btoa_sextets l : atob_groups (btoa_sextets l) = l.
Proof.
  induction l as [|a|a b|a b c rest IH] using list_ind3;
    cbn [btoa_sextets atob_groups].
  - reflexivity.
  - pose proof (code_range a).
    replace ((code a * 65536 / 262144 * 64 + code a * 65536 / 4096 mod 64) / 16)
      with (code a) by (Z.div_mod_to_equations; lia).
    now rewrite fromCode_code.
  - pose proof (code_range a). pose proof (code_range b).
    set (n := code a * 65536 + code b * 256).
    set (m := ((n / 262144 * 64 + n / 4096 mod 64) * 64 + n / 64 mod 64) / 4).
    replace (m / 256) with (code a)
      by (subst m n; Z.div_mod_to_equations; lia).
    replace (m mod 256) with (code b)
      by (subst m n; Z.div_mod_to_equations; lia).
    now rewrite !fromCode_code.
  - pose proof (code_range a). pose proof (code_range b). pose proof (code_range c).
    set (n := code a * 65536 + code b * 256 + code c).
    set (m := ((n / 262144 * 64 + n / 4096 mod 64) * 64 + n / 64 mod 64) * 64 + n mod 64).
    assert (Hm : m = n) by (subst m; Z.div_mod_to_equations; lia).
    rewrite Hm.
    replace (n / 65536) with (code a) by (subst n; Z.div_mod_to_equations; lia).
    replace (n / 256 mod 256) with (code b) by (subst n; Z.div_mod_to_equations; lia).
    replace (n mod 256) with (code c) by (subst n; Z.div_mod_to_equations; lia).
    now rewrite !fromCode_code, IH.
Qed.

(** [atob] undoes [btoa] on every binary string. *)
Lemma atob_btoa s : atob (btoa s) = ret s.
Proof.
  unfold atob, btoa.
  rewrite list_ascii_of_string_of_list_ascii, btoa_chars_no_ws.
  destruct (btoa_chars_length (list_ascii_of_string s)) as [k Hk].
  rewrite Hk.
  replace (Z.of_nat (4 * k) mod 4) with 0
    by (rewrite Nat2Z.inj_mul, Z.mul_comm; symmetry; apply Z.mod_mul; lia).
  cbn [Z.eqb].
  rewrite strip_padding_btoa, length_map.
  destruct (btoa_sextets_length (list_ascii_of_string s)) as (q & r & Hq & Hr).
  rewrite Hq.
  assert (Hmod : (Z.of_nat (4 * q + r) mod 4 =? 1) = false).
  { apply Z.eqb_neq.
    replace (Z.of_nat (4 * q + r)) with (Z.of_nat r + Z.of_nat q * 4) by lia.
    rewrite Z.mod_add by lia.
    destruct Hr as [-> | [-> | ->]]; cbn; lia. }
  rewrite Hmod.
  rewrite sextets_map_char by apply btoa_sextets_range.
  rewrite atob_groups_btoa_sextets, string_of_list_ascii_of_string.
  reflexivity.
Qed.

End Base64Facts.

(** The payload of a blob decodes to the bytes it was made of (used for the
    PCM round trip below). *)
Lemma decode_encode_bytes (bytes : list byte) : decode (encode bytes) = ret bytes.
Proof.
  unfold decode, encode.
  rewrite atob_btoa. cbn [bind ret].
  now rewrite list_byte_of_string_of_list_byte.
Qed.

(** C10. For every byte array [b], [decode (encode b)] returns [b]: encoding
    a [Uint8Array] with [encode] and decoding the resulting base64 text with
    [decode] reconstructs the original bytes exactly, byte for byte. *)
Theorem decode_encode_roundtrip (b : list byte) : decode (encode b) = ret b.
Proof.
  unfold decode, encode.
  rewrite atob_btoa. cbn [bind ret].
  f_equal. apply list_byte_of_string_of_list_byte.
Qed.

(** ** Typed arrays: writes, loops of writes, bytes *)

Section ArrayFacts.
Context {A : Type}.

Lemma upd_length i (v : A) l : List.length (upd i v l) = List.length l.
Proof.
  revert i; induction l as [|x l IH]; intros [|i]; cbn; auto.
Qed.

Lemma nth_upd_eq i (v d : A) l :
  (i < List.length l)%nat -> nth i (upd i v l) d = v.
Proof.
  revert i; induction l as [|x l IH]; intros [|i] H; cbn in *; try lia; auto.
  apply IH; lia.
Qed.

Lemma nth_upd_neq i j (v d : A) l :
  i <> j -> nth j (upd i v l) d = nth j l d.
Proof.
  revert i j; induction l as [|x l IH]; intros [|i] [|j] H; cbn; auto; try lia.
Qed.

Lemma nth_error_upd_eq i (v : A) l :
  (i < List.length l)%nat -> nth_error (upd i v l) i = Some v.
Proof.
  revert i; induction l as [|x l IH]; intros [|i] H; cbn in *; try lia; auto.
  apply IH; lia.
Qed.

Lemma nth_error_upd_neq i j (v : A) l :
  i <> j -> nth_error (upd i v l) j = nth_error l j.
Proof.
  revert i j; induction l as [|x l IH]; intros [|i] [|j] H; cbn; auto; try lia.
Qed.

Lemma upd_app_length (l1 l2 : list A) x v :
  upd (List.length l1) v (l1 ++ x :: l2) = l1 ++ v :: l2.
Proof.
  induction l1 as [|y l1 IH]; cbn; [reflexivity|]. now rewrite IH.
Qed.

Lemma skipn_cons_nth n (l : list A) d :
  (n < List.length l)%nat -> skipn n l = nth n l d :: skipn (S n) l.
Proof.
  revert n; induction l as [|x l IH]; intros [|n] H; cbn in *; try lia; auto.
  apply IH; lia.
Qed.

(** A loop [for (i = 0; i < n; i++) a[i] = f(i)] rewrites the first [n]
    cells. *)
Lemma write_loop (f : nat -> A) n init :
  (n <= List.length init)%nat ->
  fold_left (fun acc i => upd i (f i) acc) (seq 0 n) init
  = map f (seq 0 n) ++ skipn n init.
Proof.
  induction n as [|n IH]; intros Hn; [reflexivity|].
  rewrite seq_S, fold_left_app, IH by lia. cbn [fold_left Nat.add].
  rewrite map_app. cbn [map].
  rewrite (skipn_cons_nth n init (f n)) by lia.
  replace n with (List.length (map f (seq 0 n))) at 1
    by now rewrite length_map, length_seq.
  rewrite upd_app_length, <- app_assoc. reflexivity.
Qed.

Lemma write_loop_all (f : nat -> A) init :
  fold_left (fun acc i => upd i (f i) acc) (seq 0 (List.length init)) init
  = map f (seq 0 (List.length init)).
Proof.
  rewrite write_loop by lia. now rewrite skipn_all, app_nil_r.
Qed.

Lemma write_loop_repeat (f : nat -> A) n d :
  fold_left (fun acc i => upd i (f i) acc) (seq 0 n) (repeat d n)
  = map f (seq 0 n).
Proof.
  rewrite write_loop by (rewrite repeat_length; lia).
  rewrite skipn_all2 by (rewrite repeat_length; lia). apply app_nil_r.
Qed.

Lemma map_nth_seq {B} (g : A -> B) (l : list A) d :
  map (fun i => g (nth i l d)) (seq 0 (List.length l)) = map g l.
Proof.
  induction l as [|x l IH]; [reflexivity|].
  cbn [List.length seq map nth]. f_equal.
  rewrite <- seq_shift, map_map. exact IH.
Qed.

End ArrayFacts.

Lemma Z_of_byte_range b : 0 <= Z_of_byte b < 256.
Proof.
  unfold Z_of_byte. pose proof (Byte.to_N_bounded b). lia.
Qed.

Lemma Z_of_byte_of_Z z : Z_of_byte (byte_of_Z z) = z mod 256.
Proof.
  unfold Z_of_byte, byte_of_Z.
  assert (Hr : 0 <= z mod 256 < 256) by (apply Z.mod_pos_bound; lia).
  destruct (Byte.of_N (Z.to_N (z mod 256))) as [b|] eqn:E.
  - apply Byte.to_of_N in E. rewrite E. lia.
  - apply Byte.of_N_None_iff in E. lia.
Qed.

Lemma byte_of_Z_of_byte b : byte_of_Z (Z_of_byte b) = b.
Proof.
  unfold byte_of_Z. pose proof (Z_of_byte_range b) as Hr.
  rewrite Z.mod_small by assumption.
  unfold Z_of_byte. rewrite N2Z.id, Byte.of_to_N. reflexivity.
Qed.

Lemma wrapInt16_range n : -32768 <= wrapInt16 n < 32768.
Proof.
  unfold wrapInt16.
  assert (0 <= n mod 65536 < 65536) by (apply Z.mod_pos_bound; lia).
  destruct (Z.geb_spec (n mod 65536) 32768); lia.
Qed.

Lemma wrapInt16_small n : -32768 <= n < 32768 -> wrapInt16 n = n.
Proof.
  intros Hn. unfold wrapInt16.
  destruct (Z.geb_spec (n mod 65536) 32768); Z.div_mod_to_equations; lia.
Qed.

Lemma wrapInt16_idem n : wrapInt16 (wrapInt16 n) = wrapInt16 n.
Proof. apply wrapInt16_small, wrapInt16_range. Qed.

(** Reading back the two bytes of a 16-bit store. *)
Lemma getInt16_bytes16 n :
  getInt16 (byte_of_Z ((n mod 65536) mod 256)) (byte_of_Z ((n mod 65536) / 256))
  = wrapInt16 n.
Proof.
  unfold getInt16, getUint16. rewrite !Z_of_byte_of_Z.
  assert (Hu : 0 <= n mod 65536 < 65536) by (apply Z.mod_pos_bound; lia).
  set (u := n mod 65536) in *.
  replace ((u mod 256) mod 256 + 256 * ((u / 256) mod 256)) with u
    by (Z.div_mod_to_equations; lia).
  unfold wrapInt16. subst u. rewrite Z.mod_mod by lia. reflexivity.
Qed.

Lemma Int16Array_of_Uint8Array int16 :
  Int16Array_of_buffer (Uint8Array_of_Int16Array int16) = ret (map wrapInt16 int16).
Proof.
  unfold Uint8Array_of_Int16Array.
  induction int16 as [|v vs IH]; [reflexivity|].
  cbn [flat_map bytes16 app Int16Array_of_buffer map].
  rewrite IH. cbn [bind ret]. now rewrite getInt16_bytes16.
Qed.

(** ** PCM: [createPcmBlob] followed by [decode] and [decodeAudioData] *)

Lemma createPcmBlob_int16_map x :
  createPcmBlob_int16 x = map (fun s => ToInt16 (s * 32768)%Q) x.
Proof.
  unfold createPcmBlob_int16.
  rewrite (write_loop_repeat (fun i => ToInt16 (nth i x 0 * 32768)%Q)).
  apply (map_nth_seq (fun s => ToInt16 (s * 32768)%Q)).
Qed.

(** A mono payload decodes to one channel holding every 16-bit sample
    divided by 32768. *)
Lemma decodeAudioData_mono data ctx sampleRate int16 :
  Int16Array_of_buffer data = ret int16 ->
  int16 <> [] ->
  supportsSampleRate ctx sampleRate = true ->
  decodeAudioData data ctx sampleRate 1
  = ret {| AudioBuffer.sampleRate := sampleRate;
           AudioBuffer.channelData := [map (fun v => v # 32768) int16] |}.
Proof.
  intros Hview Hne Hrate. unfold decodeAudioData.
  rewrite Hview. cbn [bind ret]. rewrite Nat.div_1_r.
  unfold createBuffer. rewrite Hrate.
  destruct int16 as [|v vs]; [contradiction|].
  cbn [List.length Nat.leb andb repeat seq fold_left bind ret].
  unfold AudioBuffer.getChannelData, AudioBuffer.setChannelData.
  cbn [AudioBuffer.channelData AudioBuffer.sampleRate nth_error bind ret upd].
  do 3 f_equal.
  unfold decodeChannel.
  change (0%Q :: repeat 0%Q (List.length vs)) with (repeat 0%Q (List.length (v :: vs))).
  change (S (List.length vs)) with (List.length (v :: vs)).
  rewrite (write_loop_repeat (fun i => nth (i * 1 + 0) (v :: vs) 0 # 32768)).
  rewrite <- (map_nth_seq (fun z => z # 32768) (v :: vs) 0).
  apply map_ext. intros i. now rewrite Nat.mul_1_r, Nat.add_0_r.
Qed.


Lemma roundTrip_samples ctx sampleRate x :
  x <> [] ->
  supportsSampleRate ctx sampleRate = true ->
  roundTrip ctx sampleRate x
  = ret {| AudioBuffer.sampleRate := sampleRate;
           AudioBuffer.channelData := [map (fun s => ToInt16 (s * 32768)%Q # 32768) x] |}.
Proof.
  intros Hne Hrate. unfold roundTrip, createPcmBlob. cbn [data].
  rewrite decode_encode_bytes. cbn [bind ret].
  rewrite (decodeAudioData_mono _ ctx sampleRate
             (map wrapInt16 (createPcmBlob_int16 x))).
  - rewrite createPcmBlob_int16_map, !map_map. do 3 f_equal.
    apply map_ext. intros s. unfold ToInt16. now rewrite wrapInt16_idem.
  - apply Int16Array_of_Uint8Array.
  - rewrite createPcmBlob_int16_map. destruct x; [contradiction|discriminate].
  - exact Hrate.
Qed.

(** [truncate] stays within one unit of its argument, on the side of zero. *)
Lemma truncate_bounds (x : Q) :
  (0 <= x -> inject_Z (truncate x) <= x /\ x < inject_Z (truncate x + 1))%Q /\
  (x <= 0 -> inject_Z (truncate x - 1) < x /\ x <= inject_Z (truncate x))%Q.
Proof.
  destruct x as [n d]. unfold truncate, Qle, Qlt, inject_Z. cbn [Qnum Qden].
  pose proof (Z.quot_rem' n (Z.pos d)) as Hqr.
  assert (Hd : 0 < Z.pos d) by lia.
  split; intros Hx; rewrite ?Z.mul_1_r in *.
  - pose proof (Z.rem_bound_pos n (Z.pos d) Hx Hd). nia.
  - assert (Hn : n <= 0) by lia.
    pose proof (Z.rem_nonpos n (Z.pos d) ltac:(lia) Hn).
    pose proof (Z.rem_bound_abs n (Z.pos d) ltac:(lia)). nia.
Qed.

(** Below full scale, the decoded sample is within 1/32768 of the original. *)
Lemma sample_error_bound (s : Q) :
  (-1 <= s)%Q -> (s < 1)%Q ->
  (Qabs (s - (ToInt16 (s * 32768) # 32768)) < 1 # 32768)%Q.
Proof.
  intros Hlo Hhi.
  set (t := truncate (s * 32768)%Q).
  destruct (truncate_bounds (s * 32768)%Q) as [Hpos Hneg]. fold t in Hpos, Hneg.
  assert (Ht : -32768 <= t < 32768).
  { destruct (Qlt_le_dec s 0) as [Hs|Hs].
    - destruct Hneg as [H1 H2]; [lra|].
      assert (Ha : (inject_Z (-32768) <= inject_Z t)%Q)
        by (change (inject_Z (-32768)) with (-32768)%Q; lra).
      assert (Hb : (inject_Z (t - 1) < inject_Z 0)%Q)
        by (change (inject_Z 0) with 0%Q; lra).
      rewrite <- Zle_Qle in Ha. rewrite <- Zlt_Qlt in Hb. lia.
    - destruct Hpos as [H1 H2]; [lra|].
      assert (Ha : (inject_Z t < inject_Z 32768)%Q)
        by (change (inject_Z 32768) with 32768%Q; lra).
      assert (Hb : (inject_Z (-32768) < inject_Z (t + 1))%Q)
        by (change (inject_Z (-32768)) with (-32768)%Q; lra).
      rewrite <- Zlt_Qlt in Ha, Hb. lia. }
  unfold ToInt16. fold t. rewrite wrapInt16_small by exact Ht.
  assert (Heq : (t # 32768 == inject_Z t * (1 # 32768))%Q).
  { unfold Qeq, inject_Z, Qmult; cbn. lia. }
  rewrite Heq.
  assert (Hb : (inject_Z t - 1 < s * 32768 /\ s * 32768 < inject_Z t + 1)%Q).
  { destruct (Qlt_le_dec s 0) as [Hs|Hs].
    - destruct Hneg as [H1 H2]; [lra|].
      unfold Z.sub in H1. rewrite inject_Z_plus in H1.
      change (inject_Z (Z.opp 1)) with (-1)%Q in H1. lra.
    - destruct Hpos as [H1 H2]; [lra|].
      rewrite inject_Z_plus in H2. change (inject_Z 1) with 1%Q in H2. lra. }
  clear Hpos Hneg Heq Ht. clearbody t. destruct Hb as [Hb1 Hb2].
  apply Qabs_case; intros _; lra.
Qed.

(** Every sample strictly below full scale survives the round trip within
    1/32768: the receiving side gets one channel whose samples are each
    that close to the frame sent. *)
Lemma roundTrip_below_full_scale ctx sampleRate x :
  x <> [] ->
  supportsSampleRate ctx sampleRate = true ->
  Forall (fun s => -1 <= s /\ s < 1)%Q x ->
  exists y,
    roundTrip ctx sampleRate x
    = ret {| AudioBuffer.sampleRate := sampleRate; AudioBuffer.channelData := [y] |}
    /\ Forall2 (fun s d => Qabs (s - d) < 1 # 32768)%Q x y.
Proof.
  intros Hne Hrate Hx.
  exists (map (fun s => ToInt16 (s * 32768)%Q # 32768) x). split.
  - now apply roundTrip_samples.
  - clear Hne. induction Hx as [|s x [Hlo Hhi] _ IH]; cbn [map]; constructor.
    + now apply sample_error_bound.
    + exact IH.
Qed.

(** C3, at the input on which it fails.  A frame holding the single sample
    1.0 is encoded by [createPcmBlob] as the 16-bit value -32768 (the
    product 32768 does not fit and wraps), so that decoding the payload
    yields the sample -1: the round trip is off by 2, not by at most
    1/32768. *)
Theorem roundTrip_full_scale_wraps :
  createPcmBlob_int16 [1%Q] = [-32768]
  /\ roundTrip sampleContext INPUT_SAMPLE_RATE [1%Q]
     = ret {| AudioBuffer.sampleRate := 16000;
              AudioBuffer.channelData := [[-32768 # 32768]] |}
  /\ (Qabs (1 - (-32768 # 32768)) == 2)%Q
  /\ ~ (Qabs (1 - (-32768 # 32768)) <= 1 # 32768)%Q.
Proof.
  split; [reflexivity|]. split; [reflexivity|]. split; [reflexivity|].
  intros H. vm_compute in H. apply H. reflexivity.
Qed.

(** ** The WAV writer *)

Section StoreFacts.
Context {A : Type}.

Lemma blit_middle (src pre mid post : list A) :
  List.length mid = List.length src ->
  blit src (List.length pre) (pre ++ mid ++ post) = pre ++ src ++ post.
Proof.
  revert pre mid. induction src as [|x src IH]; intros pre mid Hlen.
  - destruct mid; [reflexivity|discriminate].
  - destruct mid as [|m mid]; [discriminate|].
    cbn [blit app]. rewrite upd_app_length.
    replace (S (List.length pre)) with (List.length (pre ++ [x]))
      by (rewrite length_app; cbn; lia).
    replace (pre ++ x :: mid ++ post) with ((pre ++ [x]) ++ mid ++ post)
      by (rewrite <- app_assoc; reflexivity).
    rewrite IH by (cbn in Hlen; lia).
    rewrite <- app_assoc. reflexivity.
Qed.

(** A store over a region of the right size replaces exactly that region. *)
Lemma store_middle (src pre mid post : list A) :
  List.length mid = List.length src ->
  store (pre ++ mid ++ post) (List.length pre) src = ret (pre ++ src ++ post).
Proof.
  intros Hlen. unfold store.
  replace (List.length pre + List.length src <=? List.length (pre ++ mid ++ post))%nat
    with true
    by (symmetry; apply Nat.leb_le; rewrite !length_app; lia).
  now rewrite blit_middle.
Qed.

Lemma store_length (target src r : list A) offset :
  store target offset src = ret r -> List.length r = List.length target.
Proof.
  unfold store.
  destruct (offset + List.length src <=? List.length target)%nat; [|discriminate].
  intros H. inversion H; subst. clear H.
  revert offset target. induction src as [|x src IH]; intros offset target; cbn [blit].
  - reflexivity.
  - rewrite IH. apply upd_length.
Qed.

End StoreFacts.

Lemma bytes16_length n : List.length (bytes16 n) = 2%nat.
Proof. reflexivity. Qed.

Lemma bytes32_length n : List.length (bytes32 n) = 4%nat.
Proof. reflexivity. Qed.

Lemma asciiBytes_length s : List.length (asciiBytes s) = String.length s.
Proof. unfold asciiBytes. now rewrite length_map, length_seq. Qed.

(** Each writer fills the next cells of the view and moves the offset. *)
Lemma writeUint32_spec i pre mid post :
  List.length mid = 4%nat ->
  writeUint32 i {| dataView := pre ++ mid ++ post; offset := List.length pre |}
  = ret {| dataView := (pre ++ bytes32 i) ++ post;
           offset := List.length (pre ++ bytes32 i) |}.
Proof.
  intros Hm. unfold writeUint32, setUint32. cbn [dataView offset].
  rewrite store_middle by (rewrite bytes32_length; exact Hm).
  cbn [bind ret]. rewrite length_app, bytes32_length, <- app_assoc. reflexivity.
Qed.

Lemma writeUint16_spec i pre mid post :
  List.length mid = 2%nat ->
  writeUint16 i {| dataView := pre ++ mid ++ post; offset := List.length pre |}
  = ret {| dataView := (pre ++ bytes16 i) ++ post;
           offset := List.length (pre ++ bytes16 i) |}.
Proof.
  intros Hm. unfold writeUint16, setUint16. cbn [dataView offset].
  rewrite store_middle by (rewrite bytes16_length; exact Hm).
  cbn [bind ret]. rewrite length_app, bytes16_length, <- app_assoc. reflexivity.
Qed.

Lemma writeString_loop s pre post n mid :
  (List.length mid = String.length s)%nat ->
  (n <= String.length s)%nat ->
  fold_left
    (fun acc i => v <- acc ;; setUint8 v (List.length pre + i) (charCodeAt s i))
    (seq 0 n) (ret (pre ++ mid ++ post))
  = ret (pre ++ map (fun i => byte_of_Z (charCodeAt s i)) (seq 0 n)
             ++ skipn n mid ++ post).
Proof.
  intros Hmid. induction n as [|n IH]; intros Hn; [reflexivity|].
  rewrite seq_S, fold_left_app, IH by lia. cbn [fold_left Nat.add bind ret].
  unfold setUint8.
  rewrite (skipn_cons_nth n mid x00) by lia.
  set (done := map (fun i => byte_of_Z (charCodeAt s i)) (seq 0 n)).
  replace (pre ++ done ++ (nth n mid x00 :: skipn (S n) mid) ++ post)
    with ((pre ++ done) ++ [nth n mid x00] ++ (skipn (S n) mid ++ post))
    by (rewrite <- !app_assoc; reflexivity).
  replace (List.length pre + n)%nat with (List.length (pre ++ done))
    by (rewrite length_app; unfold done; rewrite length_map, length_seq; reflexivity).
  rewrite store_middle by reflexivity.
  rewrite map_app. cbn [map]. fold done. rewrite <- !app_assoc. reflexivity.
Qed.

Lemma writeString_spec s pre mid post :
  List.length mid = String.length s ->
  writeString s {| dataView := pre ++ mid ++ post; offset := List.length pre |}
  = ret {| dataView := (pre ++ asciiBytes s) ++ post;
           offset := List.length (pre ++ asciiBytes s) |}.
Proof.
  intros Hm. unfold writeString. cbn [dataView offset].
  rewrite (writeString_loop s pre post (String.length s) mid Hm) by lia.
  cbn [bind ret]. rewrite skipn_all2 by lia. cbn [app].
  fold (asciiBytes s). rewrite length_app, asciiBytes_length, <- app_assoc.
  reflexivity.
Qed.

(** The thirteen header writes, on a zero-filled view of [body + 44] bytes. *)
Lemma header_writes (numOfChan length : nat) (sampleRate : Z) (body : nat) :
  (w <- writeString "RIFF" {| dataView := repeat x00 (body + 44); offset := 0 |} ;;
   w <- writeUint32 (Z.of_nat (length * numOfChan * 2 + 44) - 8) w ;;
   w <- writeString "WAVE" w ;;
   w <- writeString "fmt " w ;;
   w <- writeUint32 16 w ;;
   w <- writeUint16 1 w ;;
   w <- writeUint16 (Z.of_nat numOfChan) w ;;
   w <- writeUint32 sampleRate w ;;
   w <- writeUint32 (sampleRate * Z.of_nat numOfChan * 2) w ;;
   w <- writeUint16 (Z.of_nat numOfChan * 2) w ;;
   w <- writeUint16 16 w ;;
   w <- writeString "data" w ;;
   writeUint32 (Z.of_nat length * Z.of_nat numOfChan * 2) w)
  = ret {| dataView := wavHeader numOfChan length sampleRate ++ repeat x00 body;
           offset := 44 |}.
Proof.
  rewrite (Nat.add_comm body 44).
  pose (z2 := repeat x00 2). pose (z4 := repeat x00 4).
  change (repeat x00 (44 + body))
    with ([] ++ z4 ++ z4 ++ z4 ++ z4 ++ z4 ++ z2 ++ z2 ++ z4 ++ z4 ++ z2 ++ z2
             ++ z4 ++ z4 ++ repeat x00 body).
  change 0%nat with (List.length (@nil byte)) at 1.
  rewrite writeString_spec by reflexivity. cbn [bind ret].
  rewrite writeUint32_spec by reflexivity. cbn [bind ret].
  rewrite writeString_spec by reflexivity. cbn [bind ret].
  rewrite writeString_spec by reflexivity. cbn [bind ret].
  rewrite writeUint32_spec by reflexivity. cbn [bind ret].
  rewrite writeUint16_spec by reflexivity. cbn [bind ret].
  rewrite writeUint16_spec by reflexivity. cbn [bind ret].
  rewrite writeUint32_spec by reflexivity. cbn [bind ret].
  rewrite writeUint32_spec by reflexivity. cbn [bind ret].
  rewrite writeUint16_spec by reflexivity. cbn [bind ret].
  rewrite writeUint16_spec by reflexivity. cbn [bind ret].
  rewrite writeString_spec by reflexivity. cbn [bind ret].
  rewrite writeUint32_spec by reflexivity.
  unfold ret. do 2 f_equal.
Qed.

Lemma wavHeader_length numOfChan length sampleRate :
  List.length (wavHeader numOfChan length sampleRate) = 44%nat.
Proof.
  unfold wavHeader.
  rewrite !length_app, !asciiBytes_length, !bytes32_length, !bytes16_length.
  reflexivity.
Qed.

(** The inner loop of the interleaving writes the cells [i * N + c] only,
    and each of them once. *)
Lemma strided_writes {A} (N c : nat) (g : nat -> A) (d : A) n acc :
  (0 < N)%nat ->
  let r := fold_left (fun a i => upd (i * N + c) (g i) a) (seq 0 n) acc in
  List.length r = List.length acc
  /\ (forall i, (i < n)%nat -> (i * N + c < List.length acc)%nat ->
                nth (i * N + c) r d = g i)
  /\ (forall k, (forall i, (i < n)%nat -> k <> (i * N + c)%nat) ->
                nth k r d = nth k acc d).
Proof.
  intros HN. induction n as [|n IH]; cbn zeta.
  - cbn. repeat split; auto. intros; lia.
  - rewrite seq_S, fold_left_app. cbn [fold_left Nat.add].
    cbn zeta in IH. destruct IH as (Hlen & Hhit & Hmiss).
    set (r := fold_left (fun a i => upd (i * N + c) (g i) a) (seq 0 n) acc) in *.
    repeat split.
    + now rewrite upd_length.
    + intros i Hi Hin.
      destruct (Nat.eq_dec i n) as [->|Hne].
      * apply nth_upd_eq. lia.
      * rewrite nth_upd_neq by nia. apply Hhit; lia.
    + intros k Hk.
      rewrite nth_upd_neq by (intros E; apply (Hk n); lia).
      apply Hmiss. intros i Hi. apply Hk. lia.
Qed.

Lemma getChannelData_nth b c :
  (c < AudioBuffer.numberOfChannels b)%nat ->
  AudioBuffer.getChannelData b c = ret (nth c (AudioBuffer.channelData b) []).
Proof.
  unfold AudioBuffer.getChannelData, AudioBuffer.numberOfChannels. intros Hc.
  destruct (nth_error (AudioBuffer.channelData b) c) as [x|] eqn:E.
  - now rewrite (nth_error_nth _ _ _ E).
  - apply nth_error_None in E. lia.
Qed.

(** [interleaved[i * numOfChan + channel]] holds the sample of [channel] at
    frame [i]. *)
Lemma interleave_spec b :
  exists interleaved,
    interleave b = ret interleaved
    /\ List.length interleaved
       = (AudioBuffer.length b * AudioBuffer.numberOfChannels b)%nat
    /\ forall c i,
         (c < AudioBuffer.numberOfChannels b)%nat ->
         (i < AudioBuffer.length b)%nat ->
         nth (i * AudioBuffer.numberOfChannels b + c) interleaved 0%Q = sampleAt b c i.
Proof.
  unfold interleave.
  set (N := AudioBuffer.numberOfChannels b). set (L := AudioBuffer.length b).
  set (step := fun acc channel =>
         interleaved <- acc ;;
         channelData <- AudioBuffer.getChannelData b channel ;;
         ret (fold_left
                (fun a i => upd (i * N + channel) (nth i channelData 0%Q) a)
                (seq 0 L) interleaved)).
  assert (Hgen : forall m, (m <= N)%nat ->
            exists r, fold_left step (seq 0 m) (ret (repeat 0%Q (L * N))) = ret r
                      /\ List.length r = (L * N)%nat
                      /\ forall c i, (c < m)%nat -> (i < L)%nat ->
                                     nth (i * N + c) r 0%Q = sampleAt b c i).
  { induction m as [|m IH]; intros Hm.
    - exists (repeat 0%Q (L * N)). cbn. rewrite repeat_length.
      repeat split; auto. intros; lia.
    - destruct IH as (r & Hr & Hlen & Hsamples); [lia|].
      rewrite seq_S, fold_left_app, Hr. cbn [fold_left Nat.add].
      unfold step at 1. cbn [bind ret].
      rewrite getChannelData_nth by (fold N; lia). cbn [bind ret].
      destruct (strided_writes N m
                  (fun i => nth i (nth m (AudioBuffer.channelData b) []) 0%Q)
                  0%Q L r ltac:(lia)) as (Hl & Hhit & Hmiss).
      eexists. split; [reflexivity|]. split; [lia|].
      intros c i Hc Hi.
      destruct (Nat.eq_dec c m) as [->|Hne].
      + rewrite Hhit by nia. reflexivity.
      + rewrite Hmiss.
        * apply Hsamples; lia.
        * intros j Hj E.
          assert (c < N)%nat by lia.
          assert (i = j) by nia. subst. lia. }
  destruct (Hgen N (Nat.le_refl N)) as (r & Hr & Hlen & Hs).
  exists r. repeat split; auto.
Qed.

Lemma flat_map_length_const {A B} (f : A -> list B) k l :
  (forall x, List.length (f x) = k) ->
  List.length (flat_map f l) = (k * List.length l)%nat.
Proof.
  intros Hf. induction l as [|x l IH]; cbn [flat_map List.length]; [lia|].
  rewrite length_app, Hf, IH. lia.
Qed.

Lemma flat_map_nth_seq {A B} (g : A -> list B) (l : list A) d :
  flat_map (fun i => g (nth i l d)) (seq 0 (List.length l)) = flat_map g l.
Proof.
  rewrite !flat_map_concat_map. f_equal. apply map_nth_seq.
Qed.

Lemma writeSamples_loop interleaved pre n :
  (n <= List.length interleaved)%nat ->
  fold_left
    (fun acc i =>
       w <- acc ;;
       view <- setInt16 (dataView w) (offset w) (scaleSample (nth i interleaved 0%Q)) ;;
       ret {| dataView := view; offset := offset w + 2 |})
    (seq 0 n)
    (ret {| dataView := pre ++ repeat x00 (2 * List.length interleaved);
            offset := List.length pre |})
  = ret {| dataView :=
             pre ++ flat_map (fun i => sampleBytes (nth i interleaved 0%Q)) (seq 0 n)
                 ++ repeat x00 (2 * (List.length interleaved - n));
           offset := (List.length pre + 2 * n)%nat |}.
Proof.
  induction n as [|n IH]; intros Hn.
  - cbn [seq fold_left flat_map app]. rewrite Nat.sub_0_r, Nat.add_0_r. reflexivity.
  - rewrite seq_S, fold_left_app, IH by lia. cbn [fold_left Nat.add bind ret dataView offset].
    set (done := flat_map (fun i => sampleBytes (nth i interleaved 0%Q)) (seq 0 n)).
    assert (Hdone : List.length done = (2 * n)%nat).
    { unfold done. rewrite (flat_map_length_const _ 2) by reflexivity.
      now rewrite length_seq. }
    replace (List.length interleaved - n)%nat with (S (List.length interleaved - S n)) by lia.
    replace (2 * S (List.length interleaved - S n))%nat
      with (2 + 2 * (List.length interleaved - S n))%nat by lia.
    rewrite repeat_app.
    replace (pre ++ done ++ repeat x00 2 ++ repeat x00 (2 * (List.length interleaved - S n)))
      with ((pre ++ done) ++ repeat x00 2 ++ repeat x00 (2 * (List.length interleaved - S n)))
      by (rewrite <- app_assoc; reflexivity).
    replace (List.length pre + 2 * n)%nat with (List.length (pre ++ done))
      by (rewrite length_app; lia).
    unfold setInt16. rewrite store_middle by reflexivity. cbn [bind ret].
    unfold ret. f_equal. f_equal.
    + rewrite flat_map_app. cbn [flat_map]. rewrite app_nil_r. fold done.
      unfold sampleBytes. rewrite <- !app_assoc. reflexivity.
    + rewrite length_app. lia.
Qed.

Lemma writeSamples_spec interleaved pre :
  writeSamples interleaved
    {| dataView := pre ++ repeat x00 (2 * List.length interleaved);
       offset := List.length pre |}
  = ret {| dataView := pre ++ flat_map sampleBytes interleaved;
           offset := (List.length pre + 2 * List.length interleaved)%nat |}.
Proof.
  unfold writeSamples.
  rewrite writeSamples_loop by lia.
  rewrite Nat.sub_diag, Nat.mul_0_r. cbn [repeat]. rewrite app_nil_r.
  now rewrite (flat_map_nth_seq sampleBytes).
Qed.

(** The whole file: the header, then two bytes per interleaved sample. *)
Lemma audioBufferToWavBlob_bytes b :
  exists interleaved,
    interleave b = ret interleaved
    /\ List.length interleaved
       = (AudioBuffer.length b * AudioBuffer.numberOfChannels b)%nat
    /\ (forall c i,
          (c < AudioBuffer.numberOfChannels b)%nat ->
          (i < AudioBuffer.length b)%nat ->
          nth (i * AudioBuffer.numberOfChannels b + c) interleaved 0%Q = sampleAt b c i)
    /\ audioBufferToWavBlob b
       = ret {| blobBytes :=
                  wavHeader (AudioBuffer.numberOfChannels b) (AudioBuffer.length b)
                            (AudioBuffer.sampleRate b)
                  ++ flat_map sampleBytes interleaved;
                blobType := "audio/wav" |}.
Proof.
  destruct (interleave_spec b) as (interleaved & Hi & Hlen & Hs).
  exists interleaved. repeat split; auto.
  unfold audioBufferToWavBlob.
  pose proof (header_writes (AudioBuffer.numberOfChannels b) (AudioBuffer.length b)
                (AudioBuffer.sampleRate b)
                (AudioBuffer.length b * AudioBuffer.numberOfChannels b * 2)) as Hh.
  cbn zeta.
  set (w := {| dataView := _; offset := 0 |}) in *.
  destruct (writeString "RIFF" w) as [w1|e] eqn:E1; cbn [bind] in Hh |- *; [|discriminate].
  destruct (writeUint32 _ w1) as [w2|e] eqn:E2; cbn [bind] in Hh |- *; [|discriminate].
  destruct (writeString "WAVE" w2) as [w3|e] eqn:E3; cbn [bind] in Hh |- *; [|discriminate].
  destruct (writeString "fmt " w3) as [w4|e] eqn:E4; cbn [bind] in Hh |- *; [|discriminate].
  destruct (writeUint32 16 w4) as [w5|e] eqn:E5; cbn [bind] in Hh |- *; [|discriminate].
  destruct (writeUint16 1 w5) as [w6|e] eqn:E6; cbn [bind] in Hh |- *; [|discriminate].
  destruct (writeUint16 _ w6) as [w7|e] eqn:E7; cbn [bind] in Hh |- *; [|discriminate].
  destruct (writeUint32 _ w7) as [w8|e] eqn:E8; cbn [bind] in Hh |- *; [|discriminate].
  destruct (writeUint32 _ w8) as [w9|e] eqn:E9; cbn [bind] in Hh |- *; [|discriminate].
  destruct (writeUint16 _ w9) as [w10|e] eqn:E10; cbn [bind] in Hh |- *; [|discriminate].
  destruct (writeUint16 16 w10) as [w11|e] eqn:E11; cbn [bind] in Hh |- *; [|discriminate].
  destruct (writeString "data" w11) as [w12|e] eqn:E12; cbn [bind] in Hh |- *; [|discriminate].
  rewrite Hh, Hi. cbn [bind ret].
  replace (AudioBuffer.length b * AudioBuffer.numberOfChannels b * 2)%nat
    with (2 * List.length interleaved)%nat by lia.
  replace 44%nat
    with (List.length (wavHeader (AudioBuffer.numberOfChannels b) (AudioBuffer.length b)
                         (AudioBuffer.sampleRate b)))
    by apply wavHeader_length.
  rewrite writeSamples_spec. reflexivity.
Qed.

(** Reading header fields and samples back. *)
Lemma nth_after {A} (pre l : list A) k d :
  nth (List.length pre + k) (pre ++ l) d = nth k l d.
Proof. apply app_nth2_plus. Qed.

Lemma readUint32_at pre v post :
  readUint32 (pre ++ bytes32 v ++ post) (List.length pre) = ToUint32 v.
Proof.
  unfold readUint32, byteAt.
  rewrite <- (Nat.add_0_r (List.length pre)) at 1.
  rewrite !nth_after. cbn [Nat.add bytes32 app nth].
  unfold getUint32, ToUint32. rewrite !Z_of_byte_of_Z.
  assert (0 <= v mod 4294967296 < 4294967296) by (apply Z.mod_pos_bound; lia).
  Z.div_mod_to_equations. lia.
Qed.

Lemma readUint16_at pre v post :
  readUint16 (pre ++ bytes16 v ++ post) (List.length pre) = ToUint16 v.
Proof.
  unfold readUint16, byteAt.
  rewrite <- (Nat.add_0_r (List.length pre)) at 1.
  rewrite !nth_after. cbn [Nat.add bytes16 app nth].
  unfold getUint16, ToUint16. rewrite !Z_of_byte_of_Z.
  assert (0 <= v mod 65536 < 65536) by (apply Z.mod_pos_bound; lia).
  Z.div_mod_to_equations. lia.
Qed.

Lemma readInt16_at pre v post :
  readInt16 (pre ++ bytes16 v ++ post) (List.length pre) = wrapInt16 v.
Proof.
  unfold readInt16, byteAt.
  rewrite <- (Nat.add_0_r (List.length pre)) at 1.
  rewrite !nth_after. cbn [Nat.add bytes16 app nth].
  apply getInt16_bytes16.
Qed.

(** The fields of the header, read back from any file that starts with it. *)
Lemma wavHeader_fields numOfChan length sampleRate rest :
  let bytes := wavHeader numOfChan length sampleRate ++ rest in
  firstn 4 bytes = asciiBytes "RIFF"
  /\ readUint32 bytes 4 = ToUint32 (Z.of_nat (length * numOfChan * 2 + 44) - 8)
  /\ firstn 8 (skipn 8 bytes) = asciiBytes "WAVE" ++ asciiBytes "fmt "
  /\ readUint32 bytes 16 = 16
  /\ readUint16 bytes 20 = 1
  /\ readUint16 bytes 22 = ToUint16 (Z.of_nat numOfChan)
  /\ readUint32 bytes 24 = ToUint32 sampleRate
  /\ readUint32 bytes 28 = ToUint32 (sampleRate * Z.of_nat numOfChan * 2)
  /\ readUint16 bytes 32 = ToUint16 (Z.of_nat numOfChan * 2)
  /\ readUint16 bytes 34 = 16
  /\ firstn 4 (skipn 36 bytes) = asciiBytes "data"
  /\ readUint32 bytes 40 = ToUint32 (Z.of_nat length * Z.of_nat numOfChan * 2).
Proof.
  cbn zeta.
  set (f1 := bytes32 (Z.of_nat (length * numOfChan * 2 + 44) - 8)).
  set (f2 := bytes16 (Z.of_nat numOfChan)).
  set (f3 := bytes32 sampleRate).
  set (f4 := bytes32 (sampleRate * Z.of_nat numOfChan * 2)).
  set (f5 := bytes16 (Z.of_nat numOfChan * 2)).
  set (f6 := bytes32 (Z.of_nat length * Z.of_nat numOfChan * 2)).
  set (r := asciiBytes "RIFF"). set (w := asciiBytes "WAVE").
  set (f := asciiBytes "fmt "). set (d := asciiBytes "data").
  assert (E : wavHeader numOfChan length sampleRate ++ rest
              = r ++ f1 ++ w ++ f ++ bytes32 16 ++ bytes16 1 ++ f2 ++ f3 ++ f4 ++ f5
                  ++ bytes16 16 ++ d ++ f6 ++ rest).
  { unfold wavHeader. rewrite <- !app_assoc. reflexivity. }
  rewrite E.
  repeat match goal with |- _ /\ _ => split end.
  - reflexivity.
  - apply (readUint32_at r).
  - reflexivity.
  - apply (readUint32_at (r ++ f1 ++ w ++ f) 16).
  - apply (readUint16_at (r ++ f1 ++ w ++ f ++ bytes32 16) 1).
  - apply (readUint16_at (r ++ f1 ++ w ++ f ++ bytes32 16 ++ bytes16 1)).
  - apply (readUint32_at (r ++ f1 ++ w ++ f ++ bytes32 16 ++ bytes16 1 ++ f2)).
  - apply (readUint32_at (r ++ f1 ++ w ++ f ++ bytes32 16 ++ bytes16 1 ++ f2 ++ f3)).
  - apply (readUint16_at (r ++ f1 ++ w ++ f ++ bytes32 16 ++ bytes16 1 ++ f2 ++ f3 ++ f4)).
  - apply (readUint16_at
             (r ++ f1 ++ w ++ f ++ bytes32 16 ++ bytes16 1 ++ f2 ++ f3 ++ f4 ++ f5) 16).
  - reflexivity.
  - apply (readUint32_at
             (r ++ f1 ++ w ++ f ++ bytes32 16 ++ bytes16 1 ++ f2 ++ f3 ++ f4 ++ f5
                ++ bytes16 16 ++ d)).
Qed.

Lemma readInt16_sample pre l k :
  (k < List.length l)%nat ->
  readInt16 (pre ++ flat_map sampleBytes l) (List.length pre + 2 * k)
  = ToInt16 (scaleSample (nth k l 0%Q)).
Proof.
  intros Hk.
  rewrite <- (firstn_skipn k l) at 1.
  rewrite (skipn_cons_nth k l 0%Q Hk), flat_map_app. cbn [flat_map].
  set (done := flat_map sampleBytes (firstn k l)).
  assert (Hdone : List.length done = (2 * k)%nat).
  { unfold done. rewrite (flat_map_length_const _ 2) by reflexivity.
    rewrite length_firstn. lia. }
  replace (List.length pre + 2 * k)%nat with (List.length (pre ++ done))
    by (rewrite length_app; lia).
  rewrite app_assoc. unfold sampleBytes at 1.
  rewrite readInt16_at. apply wrapInt16_idem.
Qed.

(** Deciding comparisons of rationals. *)
Lemma Qle_bool_false x y : Qle_bool x y = false -> (y < x)%Q.
Proof.
  intros H. apply Qnot_le_lt. intros Hle.
  apply Qle_bool_iff in Hle. congruence.
Qed.

Ltac qcases :=
  unfold Qlt_bool in *;
  repeat match goal with
         | |- context [Qle_bool ?a ?b] =>
             let E := fresh "E" in
             destruct (Qle_bool a b) eqn:E;
             [apply Qle_bool_iff in E | apply Qle_bool_false in E]
         | _ : context [Qle_bool ?a ?b] |- _ =>
             let E := fresh "E" in
             destruct (Qle_bool a b) eqn:E;
             [apply Qle_bool_iff in E | apply Qle_bool_false in E]
         end;
  cbn [negb] in *.

Lemma truncate_Qeq x y : (x == y)%Q -> truncate x = truncate y.
Proof.
  destruct x as [a b], y as [c d]. unfold Qeq, truncate. cbn [Qnum Qden]. intros H.
  rewrite <- (Z.quot_mul_cancel_r a (Z.pos b) (Z.pos d)) by lia.
  rewrite <- (Z.quot_mul_cancel_r c (Z.pos d) (Z.pos b)) by lia.
  rewrite H. f_equal. lia.
Qed.

(** [scaleSample] clamps and scales. *)
Lemma scaleSample_scaledUnit x : (scaleSample x == scaledUnit x)%Q.
Proof.
  unfold scaleSample, scaledUnit, clampUnit, Math_max, Math_min.
  qcases; try lra; try reflexivity.
Qed.

Lemma scaleSample_range x : (-32768 <= scaleSample x /\ scaleSample x <= 32767)%Q.
Proof.
  unfold scaleSample, Math_max, Math_min.
  qcases; split; lra.
Qed.

Lemma truncate_monotone_range x lo hi :
  (inject_Z lo <= x)%Q -> (x <= inject_Z hi)%Q -> lo <= truncate x <= hi.
Proof.
  intros Hlo Hhi.
  destruct (truncate_bounds x) as [Hpos Hneg].
  destruct (Qlt_le_dec x 0) as [Hx|Hx].
  - destruct Hneg as [H1 H2]; [lra|].
    assert (Ha : (inject_Z lo <= inject_Z (truncate x))%Q) by lra.
    assert (Hb : (inject_Z (truncate x - 1) < inject_Z hi)%Q) by lra.
    rewrite <- Zle_Qle in Ha. rewrite <- Zlt_Qlt in Hb. lia.
  - destruct Hpos as [H1 H2]; [lra|].
    assert (Ha : (inject_Z lo < inject_Z (truncate x + 1))%Q) by lra.
    assert (Hb : (inject_Z (truncate x) <= inject_Z hi)%Q) by lra.
    rewrite <- Zlt_Qlt in Ha. rewrite <- Zle_Qle in Hb. lia.
Qed.

(** The 16-bit value stored for a sample: no wrap-around can occur. *)
Lemma ToInt16_scaleSample x : ToInt16 (scaleSample x) = truncate (scaledUnit x).
Proof.
  unfold ToInt16.
  destruct (scaleSample_range x) as [Hlo Hhi].
  rewrite wrapInt16_small.
  - apply truncate_Qeq, scaleSample_scaledUnit.
  - pose proof (truncate_monotone_range (scaleSample x) (-32768) 32767 Hlo Hhi). lia.
Qed.

(** C4. For every buffer (rectangular, as every [AudioBuffer] is, and of a
    size the header's fields can hold) [audioBufferToWavBlob] returns a blob
    of exactly [44 + sampleCount * channels * 2] bytes.  Its header holds
    the RIFF/WAVE/fmt/data tags, format 1, the channel count and sample
    rate, byteRate = sampleRate * channels * 2, blockAlign = channels * 2,
    bitsPerSample = 16 and dataSize = sampleCount * channels * 2; the
    sample of channel [c] at frame [i] follows at byte
    [44 + 2 * (i * channels + c)] as a little-endian 16-bit integer: the
    sample clamped to [-1, 1], scaled by 32768 if negative and by 32767
    otherwise, and truncated. *)
Theorem audioBufferToWavBlob_layout (b : AudioBuffer) :
  AudioBuffer.rectangular b = true ->
  fitsWav b = true ->
  let channels := AudioBuffer.numberOfChannels b in
  let sampleCount := AudioBuffer.length b in
  let sampleRate := AudioBuffer.sampleRate b in
  exists bytes,
    audioBufferToWavBlob b = ret {| blobBytes := bytes; blobType := "audio/wav" |}
    /\ List.length bytes = (44 + sampleCount * channels * 2)%nat
    /\ firstn 4 bytes = asciiBytes "RIFF"
    /\ readUint32 bytes 4 = Z.of_nat (List.length bytes) - 8
    /\ firstn 8 (skipn 8 bytes) = asciiBytes "WAVE" ++ asciiBytes "fmt "
    /\ readUint32 bytes 16 = 16
    /\ readUint16 bytes 20 = 1
    /\ readUint16 bytes 22 = Z.of_nat channels
    /\ readUint32 bytes 24 = sampleRate
    /\ readUint32 bytes 28 = sampleRate * Z.of_nat channels * 2
    /\ readUint16 bytes 32 = Z.of_nat channels * 2
    /\ readUint16 bytes 34 = 16
    /\ firstn 4 (skipn 36 bytes) = asciiBytes "data"
    /\ readUint32 bytes 40 = Z.of_nat sampleCount * Z.of_nat channels * 2
    /\ forall c i,
         (c < channels)%nat -> (i < sampleCount)%nat ->
         readInt16 bytes (44 + 2 * (i * channels + c))
         = truncate (scaledUnit (sampleAt b c i)).
Proof.
  intros _ Hfits. cbn zeta.
  destruct (audioBufferToWavBlob_bytes b) as (interleaved & _ & Hlen & Hs & Hblob).
  set (N := AudioBuffer.numberOfChannels b) in *.
  set (L := AudioBuffer.length b) in *.
  set (R := AudioBuffer.sampleRate b) in *.
  unfold fitsWav in Hfits. fold N L R in Hfits.
  apply andb_prop in Hfits as [Hfits H4]. apply andb_prop in Hfits as [Hfits H3].
  apply andb_prop in Hfits as [Hfits H2]. apply andb_prop in Hfits as [H0 H1].
  apply Z.leb_le in H0. apply Z.ltb_lt in H1, H2, H3, H4.
  clearbody N L R.
  exists (wavHeader N L R ++ flat_map sampleBytes interleaved).
  assert (Hbytes : List.length (wavHeader N L R ++ flat_map sampleBytes interleaved)
                   = (44 + L * N * 2)%nat).
  { rewrite length_app, wavHeader_length.
    rewrite (flat_map_length_const _ 2) by reflexivity. lia. }
  destruct (wavHeader_fields N L R (flat_map sampleBytes interleaved))
    as (F0 & F1 & F2 & F3 & F4 & F5 & F6 & F7 & F8 & F9 & F10 & F11).
  split; [exact Hblob|]. split; [exact Hbytes|].
  split; [exact F0|].
  split. { rewrite F1, Hbytes. unfold ToUint32. rewrite Z.mod_small; lia. }
  split; [exact F2|]. split; [exact F3|]. split; [exact F4|].
  split. { rewrite F5. unfold ToUint16. rewrite Z.mod_small; lia. }
  split. { rewrite F6. unfold ToUint32. rewrite Z.mod_small; lia. }
  split. { rewrite F7. unfold ToUint32. rewrite Z.mod_small; nia. }
  split. { rewrite F8. unfold ToUint16. rewrite Z.mod_small; lia. }
  split; [exact F9|]. split; [exact F10|].
  split. { rewrite F11. unfold ToUint32. rewrite Z.mod_small; nia. }
  intros c i Hc Hi.
  rewrite <- (wavHeader_length N L R) at 1.
  rewrite readInt16_sample by (rewrite Hlen; nia).
  rewrite Hs by assumption. apply ToInt16_scaleSample.
Qed.

(** The header of the 2-channel, 24000 Hz, 100-sample buffer: byteRate
    96000, blockAlign 4, dataSize 400, and 444 bytes in all. *)
Lemma audioBufferToWavBlob_layout_witness :
  AudioBuffer.rectangular stereoExample = true
  /\ fitsWav stereoExample = true
  /\ exists bytes,
       audioBufferToWavBlob stereoExample
       = ret {| blobBytes := bytes; blobType := "audio/wav" |}
       /\ List.length bytes = 444%nat
       /\ readUint32 bytes 28 = 96000
       /\ readUint16 bytes 32 = 4
       /\ readUint16 bytes 34 = 16
       /\ readUint32 bytes 40 = 400.
Proof.
  split; [reflexivity|]. split; [reflexivity|].
  destruct (audioBufferToWavBlob_layout stereoExample eq_refl eq_refl)
    as (bytes & Hb & Hl & _ & _ & _ & _ & _ & _ & _ & H28 & H32 & H34 & _ & H40 & _).
  exists bytes. repeat match goal with |- _ /\ _ => split end; assumption.
Defined.

(** ** The combiner *)

Lemma fold_left_add_length (l : list AudioBuffer) a :
  fold_left (fun acc buffer => (acc + AudioBuffer.length buffer)%nat) l a
  = (a + totalFrames l)%nat.
Proof.
  unfold totalFrames. revert a. induction l as [|b l IH]; intros a; cbn [fold_left map].
  - cbn. lia.
  - rewrite IH. unfold list_sum. cbn [fold_right]. lia.
Qed.

Lemma rectangular_channel b c :
  AudioBuffer.rectangular b = true ->
  (c < AudioBuffer.numberOfChannels b)%nat ->
  List.length (channel b c) = AudioBuffer.length b.
Proof.
  unfold AudioBuffer.rectangular, AudioBuffer.numberOfChannels, channel.
  intros Hr Hc. rewrite forallb_forall in Hr.
  apply Nat.eqb_eq, Hr, nth_In, Hc.
Qed.

Lemma blit_length {A} (src target : list A) offset :
  List.length (blit src offset target) = List.length target.
Proof.
  revert offset target. induction src as [|x src IH]; intros offset target; cbn [blit].
  - reflexivity.
  - rewrite IH. apply upd_length.
Qed.

(** The inner loop of the combiner: the first [m] channels of [buffer] are
    stored at [offset] in the matching channels of the target. *)
Lemma copyChannels_spec buffer offset m : forall cb,
  (m <= AudioBuffer.numberOfChannels buffer)%nat ->
  (m <= AudioBuffer.numberOfChannels cb)%nat ->
  (forall c, (c < m)%nat ->
             (offset + List.length (channel buffer c) <= List.length (channel cb c))%nat) ->
  exists cb',
    fold_left
      (fun acc channel =>
         cb <- acc ;;
         target <- AudioBuffer.getChannelData cb channel ;;
         source <- AudioBuffer.getChannelData buffer channel ;;
         target' <- store target offset source ;;
         ret (AudioBuffer.setChannelData cb channel target'))
      (seq 0 m) (ret cb) = ret cb'
    /\ AudioBuffer.sampleRate cb' = AudioBuffer.sampleRate cb
    /\ AudioBuffer.numberOfChannels cb' = AudioBuffer.numberOfChannels cb
    /\ forall c,
         channel cb' c
         = if (c <? m)%nat then blit (channel buffer c) offset (channel cb c)
           else channel cb c.
Proof.
  intros cb. induction m as [|m IH]; intros Hb Hcb Hfit.
  - exists cb. cbn. repeat split; auto.
  - destruct IH as (cb1 & Hfold & Hrate & Hn & Hch); [lia|lia|intros; apply Hfit; lia|].
    rewrite seq_S, fold_left_app, Hfold. cbn [fold_left Nat.add bind ret].
    rewrite !getChannelData_nth by lia. cbn [bind ret].
    fold (channel cb1 m). fold (channel buffer m).
    assert (Hcb1 : channel cb1 m = channel cb m).
    { rewrite Hch. replace (m <? m)%nat with false
        by (symmetry; apply Nat.ltb_ge; lia). reflexivity. }
    unfold store.
    replace (offset + List.length (channel buffer m) <=? List.length (channel cb1 m))%nat
      with true
      by (symmetry; apply Nat.leb_le; rewrite Hcb1; apply Hfit; lia).
    cbn [bind ret]. eexists. split; [reflexivity|].
    unfold AudioBuffer.setChannelData, AudioBuffer.numberOfChannels in *.
    cbn [AudioBuffer.sampleRate AudioBuffer.channelData].
    split; [exact Hrate|]. split; [rewrite upd_length; exact Hn|].
    intros c. unfold channel at 1. cbn [AudioBuffer.channelData].
    destruct (Nat.eq_dec c m) as [->|Hne].
    + rewrite nth_upd_eq by lia.
      replace (m <? S m)%nat with true by (symmetry; apply Nat.ltb_lt; lia).
      now rewrite Hcb1.
    + rewrite nth_upd_neq by lia. fold (channel cb1 c). rewrite Hch.
      destruct (Nat.ltb_spec c m), (Nat.ltb_spec c (S m)); try lia; reflexivity.
Qed.

Lemma concatChannel_app l1 l2 c :
  concatChannel (l1 ++ l2) c = concatChannel l1 c ++ concatChannel l2 c.
Proof. unfold concatChannel. now rewrite map_app, List.concat_app. Qed.

Lemma totalFrames_app l1 l2 :
  totalFrames (l1 ++ l2) = (totalFrames l1 + totalFrames l2)%nat.
Proof. unfold totalFrames. now rewrite map_app, list_sum_app. Qed.

Lemma totalFrames_cons b l :
  totalFrames (b :: l) = (AudioBuffer.length b + totalFrames l)%nat.
Proof. reflexivity. Qed.

(** The outer loop of the combiner.  [done] are the buffers copied so far:
    every channel of the target holds their samples followed by zeros. *)
Lemma copyBuffers_spec (N total : nat) : forall rest done cb,
  (forall b, In b rest ->
             AudioBuffer.numberOfChannels b = N /\ AudioBuffer.rectangular b = true) ->
  (totalFrames done + totalFrames rest = total)%nat ->
  AudioBuffer.numberOfChannels cb = N ->
  (forall c, (c < N)%nat ->
             List.length (concatChannel done c) = totalFrames done
             /\ channel cb c
                = concatChannel done c ++ repeat 0%Q (total - totalFrames done)) ->
  exists cb',
    fold_left (fun acc buffer => st <- acc ;; copyBuffer buffer st) rest
              (ret (cb, totalFrames done))
    = ret (cb', total)
    /\ AudioBuffer.sampleRate cb' = AudioBuffer.sampleRate cb
    /\ AudioBuffer.numberOfChannels cb' = N
    /\ forall c, (c < N)%nat -> channel cb' c = concatChannel (done ++ rest) c.
Proof.
  induction rest as [|b rest IH]; intros done cb Hrest Htotal HN Hinv.
  - cbn [fold_left]. unfold totalFrames at 2 in Htotal. cbn in Htotal.
    exists cb. replace (totalFrames done) with total by lia.
    repeat split; auto.
    intros c Hc. destruct (Hinv c Hc) as [_ H]. rewrite H, app_nil_r.
    replace (total - totalFrames done)%nat with 0%nat by lia.
    cbn [repeat]. now rewrite app_nil_r.
  - destruct (Hrest b (or_introl eq_refl)) as [HbN Hbrect].
    assert (Hsum : (totalFrames done + AudioBuffer.length b + totalFrames rest = total)%nat).
    { unfold totalFrames in *. cbn [map list_sum fold_right] in Htotal.
      unfold list_sum in *. lia. }
    destruct (copyChannels_spec b (totalFrames done) N cb) as (cb1 & Hfold & Hrate & Hn1 & Hch).
    { lia. }
    { lia. }
    { intros c Hc. destruct (Hinv c Hc) as [Hlen Hcb].
      rewrite Hcb, length_app, repeat_length, Hlen.
      rewrite rectangular_channel by (auto; lia). lia. }
    cbn [fold_left bind ret]. unfold copyBuffer at 2.
    rewrite HbN, Hfold. cbn [bind ret].
    replace (totalFrames done + AudioBuffer.length b)%nat
      with (totalFrames (done ++ [b]))
      by (rewrite totalFrames_app; unfold totalFrames at 2; cbn; lia).
    destruct (IH (done ++ [b]) cb1) as (cb' & Hfold' & Hrate' & Hn' & Hch').
    + intros b' Hb'. apply Hrest. now right.
    + rewrite totalFrames_app. unfold totalFrames at 2. cbn. lia.
    + congruence.
    + intros c Hc. destruct (Hinv c Hc) as [Hlen Hcb].
      assert (Hlb : List.length (channel b c) = AudioBuffer.length b)
        by (apply rectangular_channel; auto; lia).
      rewrite concatChannel_app, totalFrames_app, length_app.
      unfold concatChannel at 2, totalFrames at 2. cbn [map List.concat list_sum fold_right].
      rewrite app_nil_r, Hlen, Hlb, Nat.add_0_r.
      split; [reflexivity|].
      rewrite Hch. replace (c <? N)%nat with true by (symmetry; apply Nat.ltb_lt; lia).
      rewrite Hcb.
      replace (total - totalFrames done)%nat
        with (AudioBuffer.length b + (total - (totalFrames done + AudioBuffer.length b)))%nat
        by lia.
      rewrite repeat_app, <- Hlen.
      rewrite blit_middle by (rewrite repeat_length; lia).
      change (concatChannel [b] c) with (channel b c ++ []).
      change (totalFrames [b]) with (AudioBuffer.length b + 0)%nat.
      rewrite app_nil_r, Nat.add_0_r, <- app_assoc. reflexivity.
    + exists cb'. repeat split; auto; try congruence.
      intros c Hc. rewrite Hch' by exact Hc. now rewrite <- app_assoc.
Qed.

Lemma combinable_inv ctx buffers :
  combinable ctx buffers = true ->
  forall b, In b buffers ->
    wf_buffer ctx b = true
    /\ AudioBuffer.rectangular b = true
    /\ (1 <= AudioBuffer.length b)%nat
    /\ forall first, hd_error buffers = Some first ->
         AudioBuffer.numberOfChannels b = AudioBuffer.numberOfChannels first
         /\ AudioBuffer.sampleRate b = AudioBuffer.sampleRate first.
Proof.
  unfold combinable. intros H b Hb.
  apply andb_prop in H as [Hwf Hsame].
  rewrite forallb_forall in Hwf, Hsame.
  specialize (Hwf b Hb). specialize (Hsame b Hb).
  split; [exact Hwf|].
  unfold wf_buffer in Hwf.
  apply andb_prop in Hwf as [Hwf Hrect]. apply andb_prop in Hwf as [Hwf _].
  apply andb_prop in Hwf as [_ Hlen].
  split; [exact Hrect|]. split; [now apply Nat.leb_le|].
  intros first Hfirst. destruct buffers as [|x l]; [discriminate|].
  cbn in Hfirst. inversion Hfirst; subst. cbn [hd] in Hsame.
  apply andb_prop in Hsame as [H1 H2].
  split; [now apply Nat.eqb_eq|now apply Z.eqb_eq].
Qed.

Lemma concatChannel_length buffers N c :
  (forall b, In b buffers ->
             AudioBuffer.numberOfChannels b = N /\ AudioBuffer.rectangular b = true) ->
  (c < N)%nat ->
  List.length (concatChannel buffers c) = totalFrames buffers.
Proof.
  intros H Hc. induction buffers as [|b l IH]; [reflexivity|].
  change (b :: l) with ([b] ++ l).
  rewrite concatChannel_app, totalFrames_app, length_app, IH
    by (intros b' Hb'; apply H; now right).
  change (concatChannel [b] c) with (channel b c ++ []).
  change (totalFrames [b]) with (AudioBuffer.length b + 0)%nat.
  destruct (H b (or_introl eq_refl)) as [HN Hr].
  rewrite app_nil_r, rectangular_channel by (auto; lia). lia.
Qed.

(** The samples of the [k]-th buffer sit at the offset that is the number
    of frames before it. *)
Lemma concatChannel_nth buffers N c k b i :
  (forall b, In b buffers ->
             AudioBuffer.numberOfChannels b = N /\ AudioBuffer.rectangular b = true) ->
  (c < N)%nat ->
  nth_error buffers k = Some b ->
  (i < AudioBuffer.length b)%nat ->
  nth (totalFrames (firstn k buffers) + i) (concatChannel buffers c) 0%Q
  = sampleAt b c i.
Proof.
  intros H Hc Hk Hi.
  destruct (nth_error_split _ _ Hk) as (l1 & l2 & Hsplit & Hl1).
  assert (Hfirst : firstn k buffers = l1).
  { subst buffers k. rewrite firstn_app, Nat.sub_diag, firstn_all. cbn. apply app_nil_r. }
  rewrite Hfirst. subst buffers.
  change (b :: l2) with ([b] ++ l2).
  rewrite !concatChannel_app.
  change (concatChannel [b] c) with (channel b c ++ []). rewrite app_nil_r.
  rewrite <- (concatChannel_length l1 N c)
    by (auto; intros b' Hb'; apply H, in_or_app; now left).
  rewrite nth_after, app_nth1.
  - reflexivity.
  - destruct (H b) as [HN Hr]; [apply in_or_app; right; now left|].
    rewrite rectangular_channel by (auto; lia). exact Hi.
Qed.

Lemma createBuffer_channel ctx N L R cb c :
  createBuffer ctx N L R = ret cb ->
  AudioBuffer.sampleRate cb = R
  /\ AudioBuffer.numberOfChannels cb = N
  /\ ((c < N)%nat -> channel cb c = repeat 0%Q L).
Proof.
  unfold createBuffer.
  destruct ((1 <=? N)%nat && (N <=? 32)%nat && (1 <=? L)%nat && supportsSampleRate ctx R);
    [|discriminate].
  intros H. inversion H; subst; clear H.
  unfold AudioBuffer.numberOfChannels, channel. cbn [AudioBuffer.sampleRate AudioBuffer.channelData].
  rewrite repeat_length. repeat split; auto.
  intros Hc.
  apply (repeat_spec N (repeat 0%Q L)), nth_In. now rewrite repeat_length.
Qed.

(** C9. For every non-empty sequence of chunks whose buffers share channel
    count and sample rate, the combiner produces one buffer whose length is
    the sum of the input lengths and whose channels are the inputs'
    channels one after the other, in input order: the sample of the [k]-th
    input at frame [i] is found at frame [offset + i], where [offset] is the
    number of frames of the inputs before it. *)
Theorem combinedBuffer_concatenates ctx (chunks : list GeneratedAudioChunk) :
  let buffers := map GeneratedAudioChunk.audioBuffer chunks in
  chunks <> [] ->
  combinable ctx buffers = true ->
  exists out,
    combinedBuffer ctx chunks = Some (ret out)
    /\ AudioBuffer.length out = totalFrames buffers
    /\ (forall first, hd_error buffers = Some first ->
          AudioBuffer.numberOfChannels out = AudioBuffer.numberOfChannels first
          /\ AudioBuffer.sampleRate out = AudioBuffer.sampleRate first)
    /\ (forall c, (c < AudioBuffer.numberOfChannels out)%nat ->
          channel out c = concatChannel buffers c)
    /\ (forall k b c i,
          nth_error buffers k = Some b ->
          (c < AudioBuffer.numberOfChannels out)%nat ->
          (i < AudioBuffer.length b)%nat ->
          sampleAt out c (totalFrames (firstn k buffers) + i) = sampleAt b c i).
Proof.
  intros buffers Hne Hcomb.
  destruct chunks as [|ch0 others]; [contradiction|]. clear Hne.
  set (first := GeneratedAudioChunk.audioBuffer ch0).
  set (N := AudioBuffer.numberOfChannels first).
  pose proof (combinable_inv ctx buffers Hcomb) as Hinv.
  assert (Hall : forall b, In b buffers ->
            AudioBuffer.numberOfChannels b = N /\ AudioBuffer.rectangular b = true).
  { intros b Hb. destruct (Hinv b Hb) as (_ & Hr & _ & Hsame).
    destruct (Hsame first eq_refl) as [HN _]. auto. }
  destruct (Hinv first (or_introl eq_refl)) as (Hwf & _ & Hlen1 & _).
  unfold wf_buffer in Hwf.
  apply andb_prop in Hwf as [Hwf _]. apply andb_prop in Hwf as [Hwf Hrate].
  apply andb_prop in Hwf as [Hwf _]. apply andb_prop in Hwf as [HN1 HN32].
  apply Nat.leb_le in HN1, HN32. fold N in HN1, HN32.
  (* It is enough to produce a buffer with the right channels. *)
  assert (Hgoal : exists out,
            combinedBuffer ctx (ch0 :: others) = Some (ret out)
            /\ AudioBuffer.sampleRate out = AudioBuffer.sampleRate first
            /\ AudioBuffer.numberOfChannels out = N
            /\ forall c, (c < N)%nat -> channel out c = concatChannel buffers c).
  { destruct others as [|ch1 others'].
    - exists first. cbn [combinedBuffer]. repeat split; auto.
      intros c Hc. subst buffers. cbn [map]. fold first.
      change (concatChannel [first] c) with (channel first c ++ []).
      now rewrite app_nil_r.
    - set (others := ch1 :: others') in *.
      unfold combinedBuffer. fold buffers. fold first. fold N.
      rewrite fold_left_add_length. cbn [Nat.add].
      destruct (createBuffer ctx N (totalFrames buffers) (AudioBuffer.sampleRate first))
        as [cb|e] eqn:Ecb.
      2:{ exfalso. unfold createBuffer in Ecb.
          replace (1 <=? N)%nat with true in Ecb by (symmetry; now apply Nat.leb_le).
          replace (N <=? 32)%nat with true in Ecb by (symmetry; now apply Nat.leb_le).
          replace (1 <=? totalFrames buffers)%nat with true in Ecb.
          - rewrite Hrate in Ecb. discriminate.
          - symmetry. apply Nat.leb_le. subst buffers. cbn [map].
            rewrite totalFrames_cons. fold first. lia. }
      destruct (createBuffer_channel ctx N (totalFrames buffers)
                  (AudioBuffer.sampleRate first) cb 0 Ecb) as (Hcr & Hcn & _).
      destruct (copyBuffers_spec N (totalFrames buffers) buffers [] cb) as
        (cb' & Hfold & Hrate' & Hn' & Hch'); auto.
      { intros c Hc. split; [reflexivity|].
        destruct (createBuffer_channel ctx N (totalFrames buffers)
                    (AudioBuffer.sampleRate first) cb c Ecb) as (_ & _ & Hz).
        rewrite Hz by exact Hc. cbn [concatChannel map List.concat app].
        change (totalFrames []) with 0%nat. now rewrite Nat.sub_0_r. }
      change (totalFrames []) with 0%nat in Hfold.
      cbn [bind ret]. rewrite Hfold. cbn [bind ret fst].
      exists cb'. repeat split; auto. congruence. }
  destruct Hgoal as (out & Hout & Hr & Hn & Hch).
  exists out. split; [exact Hout|].
  split.
  { unfold AudioBuffer.length.
    assert (H0 : hd [] (AudioBuffer.channelData out) = channel out 0).
    { unfold channel. now destruct (AudioBuffer.channelData out). }
    rewrite H0, Hch by lia. apply (concatChannel_length buffers N); auto; lia. }
  split.
  { intros f Hf. cbn in Hf. inversion Hf; subst. split; [exact Hn|exact Hr]. }
  split.
  { intros c Hc. apply Hch. lia. }
  intros k b c i Hk Hc Hi.
  unfold sampleAt at 1. fold (channel out c). rewrite Hch by lia.
  apply (concatChannel_nth buffers N); auto; lia.
Qed.

(** Inputs of lengths 100, 50 and 200 yield a buffer of 350 frames that
    equals the first on [0..100), the second on [100..150) and the third on
    [150..350). *)
Lemma combinedBuffer_concatenates_witness :
  threeChunks <> []
  /\ combinable sampleContext (map GeneratedAudioChunk.audioBuffer threeChunks) = true
  /\ exists out,
       combinedBuffer sampleContext threeChunks = Some (ret out)
       /\ AudioBuffer.length out = 350%nat
       /\ (forall i, (i < 100)%nat -> sampleAt out 0 i = (1 # 2)%Q)
       /\ (forall i, (i < 50)%nat -> sampleAt out 0 (100 + i) = (1 # 4)%Q)
       /\ (forall i, (i < 200)%nat -> sampleAt out 0 (150 + i) = (-1 # 8)%Q).
Proof.
  split; [discriminate|]. split; [reflexivity|].
  destruct (combinedBuffer_concatenates sampleContext threeChunks
              ltac:(discriminate) eq_refl)
    as (out & Hout & Hlen & Hfirst & _ & Hnth).
  destruct (Hfirst _ eq_refl) as [Hn _].
  exists out. split; [exact Hout|]. split; [exact Hlen|].
  assert (Hs : forall x n i, (i < n)%nat ->
            sampleAt {| AudioBuffer.sampleRate := 24000;
                        AudioBuffer.channelData := [repeat x n] |} 0 i = x).
  { intros x n i Hi. unfold sampleAt. cbn [AudioBuffer.channelData nth].
    apply (repeat_spec n x), nth_In. now rewrite repeat_length. }
  repeat match goal with |- _ /\ _ => split end; intros i Hi.
  - rewrite <- (Hs (1 # 2)%Q 100%nat i Hi).
    apply (Hnth 0%nat _ 0%nat i eq_refl); [rewrite Hn; cbn; lia | exact Hi].
  - rewrite <- (Hs (1 # 4)%Q 50%nat i Hi).
    apply (Hnth 1%nat _ 0%nat i eq_refl); [rewrite Hn; cbn; lia | exact Hi].
  - rewrite <- (Hs (-1 # 8)%Q 200%nat i Hi).
    apply (Hnth 2%nat _ 0%nat i eq_refl); [rewrite Hn; cbn; lia | exact Hi].
Defined.

(** ** The batch synthesis orchestrator *)

Lemma settled_upd {A} (l : list (Promise A)) i v :
  nth_error l i = Some Pending ->
  settled v = true ->
  List.length (filter settled (upd i v l)) = S (List.length (filter settled l)).
Proof.
  revert i. induction l as [|x l IH]; intros [|i] Hi Hv; cbn in *; try discriminate.
  - inversion Hi; subst. cbn. now rewrite Hv.
  - destruct (settled x); cbn; rewrite IH; auto.
Qed.

Lemma In_upd {A} (l : list A) i v x :
  In x (upd i v l) -> x = v \/ In x l.
Proof.
  revert i. induction l as [|y l IH]; intros [|i] H; cbn in *; auto.
  - destruct H; auto.
  - destruct H as [H|H]; auto. destruct (IH _ H); auto.
Qed.

Lemma In_upd_self {A} (l : list A) i v :
  (i < List.length l)%nat -> In v (upd i v l).
Proof.
  revert i. induction l as [|y l IH]; intros [|i] H; cbn in *; try lia; auto.
  right. apply IH. lia.
Qed.

Lemma In_upd_other {A} (l : list A) i v x y :
  nth_error l i = Some y -> x <> y -> In x l -> In x (upd i v l).
Proof.
  revert i. induction l as [|z l IH]; intros [|i] Hi Hne Hin; cbn in *; try discriminate.
  - inversion Hi; subst. destruct Hin; [congruence|auto].
  - destruct Hin as [Hin|Hin]; [now left|]. right. eapply IH; eauto.
Qed.

Lemma nth_error_indexed_from {A} (l : list A) s k :
  nth_error (combine (seq s (List.length l)) l) k
  = option_map (fun x => ((s + k)%nat, x)) (nth_error l k).
Proof.
  revert s k. induction l as [|x l IH]; intros s [|k]; cbn [List.length seq combine nth_error option_map].
  - reflexivity.
  - reflexivity.
  - now rewrite Nat.add_0_r.
  - rewrite IH. destruct (nth_error l k); cbn; [|reflexivity].
    do 2 f_equal. lia.
Qed.

Lemma nth_error_indexed {A} (l : list A) k :
  nth_error (indexed l) k = option_map (fun x => (k, x)) (nth_error l k).
Proof. unfold indexed. now rewrite nth_error_indexed_from. Qed.

Lemma indexed_length {A} (l : list A) : List.length (indexed l) = List.length l.
Proof. unfold indexed. rewrite length_combine, length_seq. lia. Qed.

Lemma In_indexed {A} (l : list A) i x :
  In (i, x) (indexed l) <-> nth_error l i = Some x.
Proof.
  split.
  - intros H. apply In_nth_error in H as [k Hk].
    rewrite nth_error_indexed in Hk.
    destruct (nth_error l k) eqn:E; cbn in Hk; [|discriminate].
    inversion Hk; subst. exact E.
  - intros H. apply (nth_error_In _ i). rewrite nth_error_indexed, H. reflexivity.
Qed.

(** A loop over a list, with an invariant that knows the position. *)
Lemma fold_left_positions {A B} (f : A -> B -> A) (P : nat -> A -> Prop) (l : list B) a :
  P 0%nat a ->
  (forall k x r, nth_error l k = Some x -> P k r -> P (S k) (f r x)) ->
  P (List.length l) (fold_left f l a).
Proof.
  induction l as [|x l IH] using rev_ind; intros H0 Hstep; [exact H0|].
  rewrite fold_left_app, length_app. cbn [fold_left List.length].
  rewrite Nat.add_1_r. apply Hstep.
  - rewrite nth_error_app2, Nat.sub_diag by lia. reflexivity.
  - apply IH; [exact H0|].
    intros k y r Hk. apply Hstep.
    rewrite nth_error_app1; [exact Hk|]. apply nth_error_Some. congruence.
Qed.

Lemma fold_left_preserves {A B} (f : A -> B -> A) (P : A -> Prop) (l : list B) a :
  P a -> (forall x r, P r -> P (f r x)) -> P (fold_left f l a).
Proof.
  revert a. induction l as [|x l IH]; intros a Ha Hstep; cbn [fold_left]; auto.
Qed.

(** Settling one pending promise keeps the invariant. *)
Lemma settle_preserves p o k r r1 i segment pr :
  RunInv p o k r ->
  processedCount r1 = S (processedCount r) ->
  progressCalls r1
  = (if onProgress o
     then progressCalls r ++ [(S (processedCount r), List.length (scriptSegments o))]
     else progressCalls r) ->
  segmentPromises r1 = segmentPromises r ->
  allRejected r1 = allRejected r ->
  nth_error (scriptSegments o) i = Some segment ->
  nth_error (segmentPromises r) i = Some Pending ->
  settled pr = true ->
  promiseOk p o k i segment pr ->
  RunInv p o k (settleWith i pr r1).
Proof.
  intros [Hlen Hpr Hcount Hcalls Hrej] Hc1 Hp1 Hs1 Hr1 Hseg Hpend Hsettled Hok.
  assert (Hi : (i < List.length (segmentPromises r))%nat)
    by (apply nth_error_Some; congruence).
  unfold settleWith. constructor; cbn [segmentPromises processedCount progressCalls allRejected].
  - now rewrite Hs1, upd_length.
  - intros j s q Hs Hq. rewrite Hs1 in Hq.
    destruct (Nat.eq_dec i j) as [->|Hne].
    + rewrite nth_error_upd_eq in Hq by exact Hi. inversion Hq; subst.
      rewrite Hseg in Hs. inversion Hs; subst. exact Hok.
    + rewrite nth_error_upd_neq in Hq by exact Hne. eauto.
  - rewrite Hs1, settled_upd by assumption. congruence.
  - intros Hon. rewrite Hp1, Hon, Hcalls, Hc1 by exact Hon.
    rewrite (seq_S (S (processedCount r))), map_app. reflexivity.
  - rewrite Hr1, Hs1. destruct (allRejected r) as [e0|].
    + eapply In_upd_other; eauto. discriminate.
    + destruct pr as [|res|e].
      * discriminate.
      * intros e H. apply In_upd in H as [H|H]; [discriminate|]. now apply (Hrej e).
      * now apply In_upd_self.
Qed.

Lemma filter_settled_pending {A} n :
  filter settled (repeat (@Pending A) n) = [].
Proof. induction n; cbn; auto. Qed.

Lemma initial_inv p o : RunInv p o 0 (reportProgress o 0 (initialRun o)).
Proof.
  constructor; cbn [reportProgress initialRun segmentPromises processedCount
                    progressCalls allRejected].
  - apply repeat_length.
  - intros i segment pr _ Hpr. apply nth_error_In, repeat_spec in Hpr. subst.
    left. lia.
  - now rewrite filter_settled_pending.
  - intros ->. reflexivity.
  - intros e H. apply repeat_spec in H. discriminate.
Qed.

(** Issuing segment [k] moves the invariant from [k] to [S k]. *)
Lemma RunInv_issue p o k r :
  RunInv p o k r ->
  (forall segment,
     nth_error (scriptSegments o) k = Some segment ->
     nth_error (segmentPromises r) k = Some Pending ->
     blank segment = false) ->
  RunInv p o (S k) r.
Proof.
  intros [Hlen Hpr Hcount Hcalls Hrej] Hk.
  constructor; auto.
  intros i segment pr Hs Hq. specialize (Hpr i segment pr Hs Hq).
  destruct pr as [|res|e]; auto.
  destruct Hpr as [Hle|Hb]; [|now right].
  destruct (Nat.eq_dec i k) as [->|Hne]; [right; auto|left; lia].
Qed.

Lemma startSegment_inv p o k segment r :
  nth_error (scriptSegments o) k = Some segment ->
  RunInv p o k r ->
  (forall i, (k <= i)%nat -> (i < List.length (scriptSegments o))%nat ->
             nth_error (segmentPromises r) i = Some Pending) ->
  let r' := startSegment o r (k, segment) in
  RunInv p o (S k) r'
  /\ forall i, (S k <= i)%nat -> (i < List.length (scriptSegments o))%nat ->
               nth_error (segmentPromises r') i = Some Pending.
Proof.
  intros Hseg Hinv Htail. cbn zeta. unfold startSegment.
  assert (Hk : (k < List.length (scriptSegments o))%nat)
    by (apply nth_error_Some; congruence).
  fold (blank segment). destruct (blank segment) eqn:Hb.
  - split.
    + apply RunInv_issue.
      * eapply settle_preserves; eauto; try reflexivity.
        cbn. split; [reflexivity|]. now left.
      * intros s _ Hp. cbn [settleWith segmentPromises reportProgress] in Hp.
        rewrite nth_error_upd_eq in Hp by (rewrite (inv_length _ _ _ _ Hinv); exact Hk).
        discriminate.
    + intros i Hi HiN. cbn [settleWith segmentPromises reportProgress].
      rewrite nth_error_upd_neq by lia. apply Htail; lia.
  - split.
    + apply RunInv_issue; [exact Hinv|].
      intros s Hs _. congruence.
    + intros i Hi HiN. apply Htail; lia.
Qed.

(** Once every call has been issued, the invariant holds for the whole
    script: a promise that is still pending belongs to a call in flight. *)
Lemma issueAll_inv p o :
  RunInv p o (List.length (scriptSegments o))
         (issueAll o (reportProgress o 0 (initialRun o))).
Proof.
  unfold issueAll.
  rewrite <- (indexed_length (scriptSegments o)) at 1.
  apply (fold_left_positions (startSegment o)
           (fun k r =>
              RunInv p o k r
              /\ forall i, (k <= i)%nat -> (i < List.length (scriptSegments o))%nat ->
                           nth_error (segmentPromises r) i = Some Pending)).
  - split; [apply initial_inv|].
    intros i _ Hi. cbn [reportProgress initialRun segmentPromises].
    apply nth_error_repeat. exact Hi.
  - intros k [j segment] r Hk [Hinv Htail].
    rewrite nth_error_indexed in Hk.
    destruct (nth_error (scriptSegments o) k) as [s|] eqn:E; cbn in Hk; [|discriminate].
    inversion Hk; subst. now apply startSegment_inv.
Qed.

Lemma completeSegment_inv p o r i :
  RunInv p o (List.length (scriptSegments o)) r ->
  RunInv p o (List.length (scriptSegments o)) (completeSegment p o r i).
Proof.
  intros Hinv. unfold completeSegment.
  destruct (nth_error (scriptSegments o) i) as [segment|] eqn:Hseg; [|exact Hinv].
  destruct (nth_error (segmentPromises r) i) as [[|res|e]|] eqn:Hpr; try exact Hinv.
  assert (Hnb : blank segment = false).
  { destruct (inv_promises _ _ _ _ Hinv i segment Pending Hseg Hpr) as [H|H]; [|exact H].
    assert (i < List.length (scriptSegments o))%nat by (apply nth_error_Some; congruence).
    lia. }
  destruct (segmentAudio p o i segment) as [[audioBuffer|]|error] eqn:Haudio.
  - eapply settle_preserves; eauto; try reflexivity.
    cbn. auto.
  - eapply settle_preserves; eauto; try reflexivity.
    cbn. auto.
  - eapply settle_preserves; eauto; try reflexivity.
    cbn. auto.
Qed.

(** A settled promise is never touched again. *)
Lemma completeSegment_keeps p o r i j pr :
  nth_error (segmentPromises r) j = Some pr ->
  settled pr = true ->
  nth_error (segmentPromises (completeSegment p o r i)) j = Some pr.
Proof.
  intros Hj Hs. unfold completeSegment.
  destruct (nth_error (scriptSegments o) i) as [segment|]; [|exact Hj].
  destruct (nth_error (segmentPromises r) i) as [[|res|e]|] eqn:Hpr; try exact Hj.
  assert (Hne : i <> j) by (intros ->; rewrite Hj in Hpr; inversion Hpr; subst; discriminate).
  destruct (segmentAudio p o i segment) as [[audioBuffer|]|error];
    cbn [settleWith segmentPromises reportProgress drawUUID];
    now rewrite nth_error_upd_neq.
Qed.

(** The completion of call [i] settles promise [i]. *)
Lemma completeSegment_settles p o r i :
  List.length (segmentPromises r) = List.length (scriptSegments o) ->
  (i < List.length (scriptSegments o))%nat ->
  exists pr,
    nth_error (segmentPromises (completeSegment p o r i)) i = Some pr
    /\ settled pr = true.
Proof.
  intros Hlen Hi. unfold completeSegment.
  destruct (nth_error (scriptSegments o) i) as [segment|] eqn:Hseg.
  2:{ apply nth_error_None in Hseg. lia. }
  destruct (nth_error (segmentPromises r) i) as [[|res|e]|] eqn:Hpr.
  - destruct (segmentAudio p o i segment) as [[audioBuffer|]|error];
      cbn [settleWith segmentPromises reportProgress drawUUID];
      rewrite nth_error_upd_eq by lia; eexists; split; reflexivity.
  - eexists; split; [exact Hpr|reflexivity].
  - eexists; split; [exact Hpr|reflexivity].
  - apply nth_error_None in Hpr. lia.
Qed.

Lemma completions_keep p o completions : forall r j pr,
  nth_error (segmentPromises r) j = Some pr ->
  settled pr = true ->
  nth_error (segmentPromises (fold_left (completeSegment p o) completions r)) j = Some pr.
Proof.
  induction completions as [|i l IH]; intros r j pr Hj Hs; cbn [fold_left]; [exact Hj|].
  apply IH; [|exact Hs]. now apply completeSegment_keeps.
Qed.

Lemma completions_inv p o completions : forall r,
  RunInv p o (List.length (scriptSegments o)) r ->
  RunInv p o (List.length (scriptSegments o)) (fold_left (completeSegment p o) completions r).
Proof.
  induction completions as [|i l IH]; intros r Hinv; cbn [fold_left]; [exact Hinv|].
  apply IH. now apply completeSegment_inv.
Qed.

Lemma completions_settle p o completions : forall r i,
  RunInv p o (List.length (scriptSegments o)) r ->
  In i completions ->
  (i < List.length (scriptSegments o))%nat ->
  exists pr,
    nth_error (segmentPromises (fold_left (completeSegment p o) completions r)) i = Some pr
    /\ settled pr = true.
Proof.
  induction completions as [|j l IH]; intros r i Hinv Hin Hi; [contradiction|].
  cbn [fold_left]. destruct Hin as [->|Hin].
  - destruct (completeSegment_settles p o r i (inv_length _ _ _ _ Hinv) Hi) as (pr & Hpr & Hs).
    exists pr. split; [|exact Hs]. now apply completions_keep.
  - apply IH; auto. now apply completeSegment_inv.
Qed.

Lemma In_inFlight o i segment :
  nth_error (scriptSegments o) i = Some segment ->
  blank segment = false ->
  In i (inFlight o).
Proof.
  intros Hs Hb. unfold inFlight.
  apply in_map_iff. exists (i, segment). split; [reflexivity|].
  apply filter_In. split; [now apply In_indexed|]. cbn [snd]. now rewrite Hb.
Qed.

(** When every call in flight completes, every promise is settled. *)
Lemma all_settled p o completions r :
  RunInv p o (List.length (scriptSegments o)) r ->
  incl (inFlight o) completions ->
  let r' := fold_left (completeSegment p o) completions r in
  RunInv p o (List.length (scriptSegments o)) r'
  /\ forall i pr, nth_error (segmentPromises r') i = Some pr -> settled pr = true.
Proof.
  intros Hinv Hincl r'.
  assert (Hinv' : RunInv p o (List.length (scriptSegments o)) r')
    by now apply completions_inv.
  split; [exact Hinv'|].
  intros i pr Hpr.
  assert (Hi : (i < List.length (scriptSegments o))%nat).
  { rewrite <- (inv_length _ _ _ _ Hinv'). apply nth_error_Some. congruence. }
  destruct (nth_error (scriptSegments o) i) as [segment|] eqn:Hseg.
  2:{ apply nth_error_None in Hseg. lia. }
  destruct pr as [|res|e]; try reflexivity.
  destruct (inv_promises _ _ _ _ Hinv' i segment Pending Hseg Hpr) as [H|Hb]; [lia|].
  destruct (completions_settle p o completions r i Hinv) as (pr & Hpr' & Hs); auto.
  { apply Hincl. eapply In_inFlight; eauto. }
  fold r' in Hpr'. rewrite Hpr in Hpr'. inversion Hpr'; subst. discriminate.
Qed.

Lemma allValues_map {A} (ps : list (Promise A)) vs :
  allValues ps = Some vs -> ps = map Fulfilled vs.
Proof.
  revert vs. induction ps as [|pr ps IH]; intros vs H; cbn in H.
  - inversion H. reflexivity.
  - destruct pr as [|v|e]; try discriminate.
    destruct (allValues ps) as [vs'|]; [|discriminate].
    inversion H; subst. cbn. f_equal. now apply IH.
Qed.

Lemma allValues_fulfilled {A} (ps : list (Promise A)) :
  (forall pr, In pr ps -> settled pr = true) ->
  (forall e, ~ In (Rejected e) ps) ->
  exists vs, allValues ps = Some vs.
Proof.
  induction ps as [|pr ps IH]; intros Hs Hr; [now exists []|].
  destruct IH as [vs Hvs].
  - intros q Hq. apply Hs. now right.
  - intros e He. apply (Hr e). now right.
  - destruct pr as [|v|e].
    + specialize (Hs Pending (or_introl eq_refl)). discriminate.
    + exists (v :: vs). cbn. now rewrite Hvs.
    + exfalso. apply (Hr e). now left.
Qed.

Lemma Forall2_pointwise {A B} (R : A -> B -> Prop) (l1 : list A) (l2 : list B) :
  List.length l1 = List.length l2 ->
  (forall i a b, nth_error l1 i = Some a -> nth_error l2 i = Some b -> R a b) ->
  Forall2 R l1 l2.
Proof.
  revert l2. induction l1 as [|a l1 IH]; intros [|b l2] Hlen H; try discriminate.
  - constructor.
  - constructor.
    + apply (H 0%nat); reflexivity.
    + apply IH; [cbn in Hlen; lia|].
      intros i x y Hx Hy. apply (H (S i)); assumption.
Qed.

Lemma map_fst_indexed_from {A} (l : list A) s :
  map fst (combine (seq s (List.length l)) l) = seq s (List.length l).
Proof.
  revert s. induction l as [|x l IH]; intros s; cbn; [reflexivity|]. now rewrite IH.
Qed.

Lemma StronglySorted_seq s n : StronglySorted lt (seq s n).
Proof.
  revert s. induction n as [|n IH]; intros s; cbn; constructor; [apply IH|].
  apply Forall_forall. intros x Hx. apply in_seq in Hx. lia.
Qed.

Lemma StronglySorted_map_filter {A} (f : A -> nat) (g : A -> bool) l :
  StronglySorted lt (map f l) -> StronglySorted lt (map f (filter g l)).
Proof.
  induction l as [|x l IH]; intros H; cbn in *; [constructor|].
  inversion H as [|? ? Hs Hall]; subst.
  destruct (g x); cbn; [|auto].
  constructor; [auto|].
  rewrite Forall_forall in *. intros y Hy. apply Hall.
  apply in_map_iff in Hy as (z & <- & Hz). apply filter_In in Hz as [Hz _].
  now apply in_map.
Qed.

(** Sorting a list whose tags already increase leaves it as it is. *)
Lemma sortByIndex_sorted l :
  StronglySorted lt (map originalIndex l) -> sortByIndex l = l.
Proof.
  unfold sortByIndex. induction l as [|x l IH]; intros H; [reflexivity|].
  cbn [map] in H. inversion H as [|? ? Hs Hall]; subst.
  cbn [fold_right]. rewrite IH by exact Hs.
  destruct l as [|y l]; [reflexivity|].
  cbn [insertByIndex]. cbn [map] in Hall. inversion Hall; subst.
  replace (originalIndex x <=? originalIndex y)%nat with true
    by (symmetry; apply Nat.leb_le; lia).
  reflexivity.
Qed.

Lemma flat_map_chunkOf_filter l :
  flat_map chunkOf (filter hasChunk l) = flat_map chunkOf l.
Proof.
  induction l as [|x l IH]; [reflexivity|].
  cbn [filter]. unfold hasChunk at 1.
  destruct (chunk x) eqn:E; cbn [flat_map]; rewrite IH.
  - reflexivity.
  - unfold chunkOf at 2. now rewrite E.
Qed.

(** [orderedChunks] on results whose tags increase: the chunks, in order. *)
Lemma orderedChunks_sorted results :
  StronglySorted lt (map originalIndex results) ->
  orderedResults results = filter hasChunk results
  /\ orderedChunks results = flat_map chunkOf results.
Proof.
  intros H.
  assert (E : orderedResults results = filter hasChunk results).
  { unfold orderedResults. now apply sortByIndex_sorted, StronglySorted_map_filter. }
  split; [exact E|].
  unfold orderedChunks. rewrite E. apply flat_map_chunkOf_filter.
Qed.

Lemma results_contents p o k (l : list (nat * string)) results :
  Forall2 (fun e res => promiseOk p o k (fst e) (snd e) (Fulfilled res)) l results ->
  map originalIndex results = map fst l
  /\ map contentOf (flat_map chunkOf results) = flat_map (expectedEntry p o) l.
Proof.
  induction 1 as [|[i segment] res l results Hok _ [IH1 IH2]]; [split; reflexivity|].
  cbn [fst snd promiseOk] in Hok. destruct Hok as [Hidx Hchunk].
  split.
  - cbn [map fst]. now rewrite Hidx, IH1.
  - cbn [flat_map]. rewrite map_app, IH2. f_equal.
    unfold chunkOf, expectedEntry. cbn [fst snd].
    destruct (chunk res) as [c|].
    + destruct Hchunk as (Hb & Ht & Ha). rewrite Hb, Ha. cbn. unfold contentOf.
      now rewrite Ht.
    + destruct Hchunk as [Hb|Ha]; [now rewrite Hb|].
      rewrite Ha. now destruct (blank segment).
Qed.

Lemma filter_all {A} (f : A -> bool) l :
  (forall x, In x l -> f x = true) -> filter f l = l.
Proof.
  induction l as [|x l IH]; intros H; cbn; [reflexivity|].
  rewrite (H x (or_introl eq_refl)), IH; auto. intros y Hy. apply H. now right.
Qed.

(** A run in which the key and the speakers are accepted and every call in
    flight completes: the invariant holds at the end, every promise is
    settled, and the returned promise follows [Promise.all]. *)
Lemma generateSpeech_run p o completions :
  getGenAI p = ret tt ->
  validateSpeakers o = ret tt ->
  incl (inFlight o) completions ->
  exists run,
    RunInv p o (List.length (scriptSegments o)) run
    /\ (forall pr, In pr (segmentPromises run) -> settled pr = true)
    /\ generateSpeech p o completions
       = (match allRejected run with
          | Some e => Rejected e
          | None =>
              match allValues (segmentPromises run) with
              | Some results => Fulfilled (orderedChunks results)
              | None => Pending
              end
          end, run).
Proof.
  intros Hkey Hval Hincl. unfold generateSpeech. rewrite Hkey, Hval. cbn [ret].
  destruct (all_settled p o completions _ (issueAll_inv p o) Hincl) as [Hinv Hs].
  eexists. split; [exact Hinv|]. split; [|reflexivity].
  intros pr Hpr. apply In_nth_error in Hpr as [i Hi]. eauto.
Qed.

Lemma rejected_fails p o run e :
  RunInv p o (List.length (scriptSegments o)) run ->
  In (Rejected e) (segmentPromises run) ->
  exists i segment,
    nth_error (scriptSegments o) i = Some segment
    /\ blank segment = false
    /\ segmentAudio p o i segment = inr e.
Proof.
  intros Hinv Hin. apply In_nth_error in Hin as [i Hi].
  assert (HiN : (i < List.length (scriptSegments o))%nat).
  { rewrite <- (inv_length _ _ _ _ Hinv). apply nth_error_Some. congruence. }
  destruct (nth_error (scriptSegments o) i) as [segment|] eqn:Hseg.
  2:{ apply nth_error_None in Hseg. lia. }
  exists i, segment. split; [exact Hseg|].
  exact (inv_promises _ _ _ _ Hinv i segment _ Hseg Hi).
Qed.

Lemma anyFails_false p o i segment e :
  anyFails p o = false ->
  nth_error (scriptSegments o) i = Some segment ->
  blank segment = false ->
  segmentAudio p o i segment = inr e ->
  False.
Proof.
  unfold anyFails. intros Hany Hseg Hb Ha.
  assert (Hin : In (i, segment) (indexed (scriptSegments o))) by now apply In_indexed.
  assert (Hf : fails p o (i, segment) = true)
    by (unfold fails; cbn [fst snd]; now rewrite Hb, Ha).
  assert (existsb (fails p o) (indexed (scriptSegments o)) = true)
    by (apply existsb_exists; eauto).
  congruence.
Qed.

(** Whenever a run resolves with a list of chunks, whatever the sequence of
    completions was, the chunks are those of the segments that yielded
    audio, in script order. *)
Lemma generateSpeech_fulfilled_in_order p o completions chunks run :
  generateSpeech p o completions = (Fulfilled chunks, run) ->
  map contentOf chunks = expectedContents p o.
Proof.
  unfold generateSpeech.
  destruct (getGenAI p) as [[]|e]; [|discriminate].
  destruct (validateSpeakers o) as [[]|e]; [|discriminate].
  pose proof (completions_inv p o completions _ (issueAll_inv p o)) as Hinv.
  set (r := fold_left (completeSegment p o) completions _) in *.
  destruct (allRejected r) as [e|]; [discriminate|].
  destruct (allValues (segmentPromises r)) as [results|] eqn:Hres; [|discriminate].
  intros H. inversion H; subst. clear H.
  pose proof (allValues_map _ _ Hres) as Hmap.
  assert (HF : Forall2 (fun e res =>
                  promiseOk p o (List.length (scriptSegments o)) (fst e) (snd e)
                            (Fulfilled res))
                 (indexed (scriptSegments o)) results).
  { apply Forall2_pointwise.
    - rewrite indexed_length, <- (inv_length _ _ _ _ Hinv), Hmap. now rewrite length_map.
    - intros i [j segment] res Hi Hres'. rewrite nth_error_indexed in Hi.
      destruct (nth_error (scriptSegments o) i) as [s|] eqn:Hseg; cbn in Hi; [|discriminate].
      inversion Hi; subst. cbn [fst snd].
      apply (inv_promises _ _ _ _ Hinv j segment); [exact Hseg|].
      rewrite Hmap. now apply map_nth_error. }
  destruct (results_contents p o _ _ _ HF) as [Htags Hcont].
  assert (Hsorted : StronglySorted lt (map originalIndex results)).
  { rewrite Htags. unfold indexed. rewrite map_fst_indexed_from. apply StronglySorted_seq. }
  destruct (orderedChunks_sorted results Hsorted) as [_ Hchunks].
  now rewrite Hchunks, Hcont.
Qed.

(** The completion order of the example is an order of its calls. *)
Lemma fiveCompletions_order : Permutation fiveCompletions (inFlight fiveOptions).
Proof.
  change (inFlight fiveOptions) with [0; 1; 2; 3; 4]%nat. unfold fiveCompletions.
  apply (perm_trans (l' := [0; 2; 4; 3; 1]%nat)); [apply perm_swap|].
  apply perm_skip.
  apply (perm_trans (l' := [2; 4; 1; 3]%nat)); [do 2 apply perm_skip; apply perm_swap|].
  apply (perm_trans (l' := [2; 1; 4; 3]%nat)); [apply perm_skip, perm_swap|].
  apply (perm_trans (l' := [1; 2; 4; 3]%nat)); [apply perm_swap|].
  do 2 apply perm_skip. apply perm_swap.
Qed.

(** C1. For every list of segments and every order in which the calls in
    flight complete, when no call fails [generateSpeech] resolves with the
    chunks in the order of the segments in the script: the results
    [Promise.all] delivers carry the tags 0, 1, 2, ..., the results kept
    and sorted by tag have increasing tags, and the texts and buffers of the
    returned chunks are those of the segments that yielded audio, in script
    order, whatever the completion order. *)
Theorem generateSpeech_preserves_order p o completions :
  getGenAI p = ret tt ->
  validateSpeakers o = ret tt ->
  Permutation completions (inFlight o) ->
  anyFails p o = false ->
  exists chunks run results,
    generateSpeech p o completions = (Fulfilled chunks, run)
    /\ allValues (segmentPromises run) = Some results
    /\ map originalIndex results = seq 0 (List.length (scriptSegments o))
    /\ StronglySorted lt (map originalIndex (orderedResults results))
    /\ chunks = flat_map chunkOf (orderedResults results)
    /\ map contentOf chunks = expectedContents p o.
Proof.
  intros Hkey Hval Hperm Hnofail.
  destruct (generateSpeech_run p o completions Hkey Hval) as (run & Hinv & Hs & Hrun).
  { intros i Hi. eapply Permutation_in; [symmetry; exact Hperm|exact Hi]. }
  assert (Hnone : allRejected run = None).
  { pose proof (inv_rejected _ _ _ _ Hinv) as Hr.
    destruct (allRejected run) as [e|]; [|reflexivity].
    destruct (rejected_fails p o run e Hinv Hr) as (i & segment & H1 & H2 & H3).
    exfalso. eapply anyFails_false; eauto. }
  pose proof (inv_rejected _ _ _ _ Hinv) as Hr. rewrite Hnone in Hr, Hrun.
  destruct (allValues_fulfilled (segmentPromises run) Hs Hr) as [results Hres].
  rewrite Hres in Hrun.
  pose proof (allValues_map _ _ Hres) as Hmap.
  assert (HF : Forall2 (fun e res =>
                  promiseOk p o (List.length (scriptSegments o)) (fst e) (snd e)
                            (Fulfilled res))
                 (indexed (scriptSegments o)) results).
  { apply Forall2_pointwise.
    - rewrite indexed_length, <- (inv_length _ _ _ _ Hinv), Hmap. now rewrite length_map.
    - intros i [j segment] res Hi Hres'. rewrite nth_error_indexed in Hi.
      destruct (nth_error (scriptSegments o) i) as [s|] eqn:Hseg; cbn in Hi; [|discriminate].
      inversion Hi; subst. cbn [fst snd].
      apply (inv_promises _ _ _ _ Hinv j segment); [exact Hseg|].
      rewrite Hmap. now apply map_nth_error. }
  destruct (results_contents p o _ _ _ HF) as [Htags Hcont].
  assert (Htags' : map originalIndex results = seq 0 (List.length (scriptSegments o))).
  { rewrite Htags. apply map_fst_indexed_from. }
  assert (Hsorted : StronglySorted lt (map originalIndex results))
    by (rewrite Htags'; apply StronglySorted_seq).
  destruct (orderedChunks_sorted results Hsorted) as [Hord Hchunks].
  exists (orderedChunks results), run, results.
  repeat match goal with |- _ /\ _ => split end; auto.
  - rewrite Hord. now apply StronglySorted_map_filter.
  - rewrite Hchunks, Hcont. reflexivity.
Qed.

(** Five segments, the third resolving before the first: the chunks come
    back in script order. *)
Lemma generateSpeech_preserves_order_witness :
  getGenAI fivePlatform = ret tt
  /\ validateSpeakers fiveOptions = ret tt
  /\ Permutation fiveCompletions (inFlight fiveOptions)
  /\ anyFails fivePlatform fiveOptions = false
  /\ exists chunks run,
       generateSpeech fivePlatform fiveOptions fiveCompletions = (Fulfilled chunks, run)
       /\ map contentOf chunks = expectedContents fivePlatform fiveOptions.
Proof.
  pose proof fiveCompletions_order as Hperm.
  split; [reflexivity|]. split; [reflexivity|]. split; [exact Hperm|].
  split; [reflexivity|].
  destruct (generateSpeech_preserves_order fivePlatform fiveOptions fiveCompletions
              eq_refl eq_refl Hperm eq_refl)
    as (chunks & run & results & Hrun & _ & _ & _ & _ & Hcont).
  exists chunks, run. split; assumption.
Defined.

Lemma anyFails_true p o :
  anyFails p o = true ->
  exists i segment e,
    nth_error (scriptSegments o) i = Some segment
    /\ blank segment = false
    /\ segmentAudio p o i segment = inr e.
Proof.
  unfold anyFails. intros H. apply existsb_exists in H as ([i segment] & Hin & Hf).
  apply In_indexed in Hin. unfold fails in Hf. cbn [fst snd] in Hf.
  apply andb_prop in Hf as [Hb Ha]. apply negb_true_iff in Hb.
  destruct (segmentAudio p o i segment) as [a|e] eqn:E; [discriminate|].
  exists i, segment, e. auto.
Qed.

(** The sequential loop stops at the first failing segment. *)
Lemma generateSpeechLoop_fails p o entries : forall chunks calls,
  existsb (fails p o) entries = true ->
  exists e calls',
    generateSpeechLoop p o entries chunks calls = (inr e, calls')
    /\ exists entry, In entry entries /\ blank (snd entry) = false
                     /\ segmentAudio p o (fst entry) (snd entry) = inr e.
Proof.
  induction entries as [|[i segment] rest IH]; intros chunks calls H; [discriminate|].
  cbn [existsb] in H. cbn [generateSpeechLoop]. fold (blank segment).
  unfold fails at 1 in H. cbn [fst snd] in H.
  destruct (blank segment) eqn:Hb; cbn [negb andb orb] in H.
  - destruct (IH chunks calls H) as (e & calls' & Hrun & entry & Hin & Hrest).
    exists e, calls'. split; [exact Hrun|]. exists entry. split; [now right|exact Hrest].
  - destruct (segmentAudio p o i segment) as [[audioBuffer|]|error] eqn:Ha;
      cbn [orb] in H.
    + match goal with
      | |- context [generateSpeechLoop p o rest ?c ?k] =>
          destruct (IH c k H) as (e & calls' & Hrun & entry & Hin & Hrest)
      end.
      exists e, calls'. split; [exact Hrun|]. exists entry. split; [now right|exact Hrest].
    + match goal with
      | |- context [generateSpeechLoop p o rest ?c ?k] =>
          destruct (IH c k H) as (e & calls' & Hrun & entry & Hin & Hrest)
      end.
      exists e, calls'. split; [exact Hrun|]. exists entry. split; [now right|exact Hrest].
    + exists error, calls. split; [reflexivity|].
      exists (i, segment). cbn [fst snd]. repeat split; auto. now left.
Qed.

(** C2. If the call of any single segment fails (the request is rejected or
    its payload does not decode), the whole batch fails: in every
    completion order the promise [generateSpeech] returns is rejected with
    the error of a failing segment, and no list of chunks is returned.  The
    sequential variant throws such an error as well. *)
Theorem generateSpeech_fail_fast p o completions :
  getGenAI p = ret tt ->
  validateSpeakers o = ret tt ->
  Permutation completions (inFlight o) ->
  anyFails p o = true ->
  (exists e run,
     generateSpeech p o completions = (Rejected e, run)
     /\ exists i segment,
          nth_error (scriptSegments o) i = Some segment
          /\ segmentAudio p o i segment = inr e)
  /\ (exists e calls,
        generateSpeechSequential p o = (inr e, calls)
        /\ exists i segment,
             nth_error (scriptSegments o) i = Some segment
             /\ segmentAudio p o i segment = inr e).
Proof.
  intros Hkey Hval Hperm Hfail. split.
  - destruct (generateSpeech_run p o completions Hkey Hval) as (run & Hinv & Hs & Hrun).
    { intros i Hi. eapply Permutation_in; [symmetry; exact Hperm|exact Hi]. }
    destruct (anyFails_true p o Hfail) as (i & segment & e & Hseg & Hb & Ha).
    assert (Hrej : exists e', allRejected run = Some e').
    { pose proof (inv_rejected _ _ _ _ Hinv) as Hr.
      destruct (allRejected run) as [e'|]; [eauto|]. exfalso.
      assert (HiN : (i < List.length (segmentPromises run))%nat)
        by (rewrite (inv_length _ _ _ _ Hinv); apply nth_error_Some; congruence).
      destruct (nth_error (segmentPromises run) i) as [pr|] eqn:Hpr.
      2:{ apply nth_error_None in Hpr. lia. }
      pose proof (inv_promises _ _ _ _ Hinv i segment pr Hseg Hpr) as Hok.
      pose proof (Hs pr (nth_error_In _ _ Hpr)) as Hsettled.
      destruct pr as [|res|e'].
      - discriminate.
      - cbn in Hok. destruct Hok as [_ Hok]. destruct (chunk res).
        + destruct Hok as (_ & _ & Hok). congruence.
        + destruct Hok as [Hok|Hok]; congruence.
      - apply (Hr e'). eapply nth_error_In; eauto. }
    destruct Hrej as [e' He']. rewrite He' in Hrun.
    exists e', run. split; [exact Hrun|].
    pose proof (inv_rejected _ _ _ _ Hinv) as Hr. rewrite He' in Hr.
    destruct (rejected_fails p o run e' Hinv Hr) as (j & s & H1 & _ & H3).
    eauto.
  - unfold generateSpeechSequential. rewrite Hkey, Hval. cbn [ret].
    destruct (generateSpeechLoop_fails p o (indexed (scriptSegments o)) []
                (if onProgress o
                 then [(0%nat, List.length (scriptSegments o))] else []) Hfail)
      as (e & calls' & Hrun & [i segment] & Hin & _ & Ha).
    exists e, calls'. split; [exact Hrun|].
    apply In_indexed in Hin. cbn [fst snd] in Ha. eauto.
Qed.

(** The five-segment script when the call for the fourth segment is
    rejected: the batch is rejected with that error. *)
Lemma generateSpeech_fail_fast_witness :
  getGenAI failingPlatform = ret tt
  /\ validateSpeakers fiveOptions = ret tt
  /\ Permutation fiveCompletions (inFlight fiveOptions)
  /\ anyFails failingPlatform fiveOptions = true
  /\ fst (generateSpeech failingPlatform fiveOptions fiveCompletions)
     = Rejected (ApiError "quota")
  /\ exists e run,
       generateSpeech failingPlatform fiveOptions fiveCompletions = (Rejected e, run).
Proof.
  pose proof fiveCompletions_order as Hperm.
  split; [reflexivity|]. split; [reflexivity|]. split; [exact Hperm|].
  split; [reflexivity|]. split; [reflexivity|].
  destruct (generateSpeech_fail_fast failingPlatform fiveOptions fiveCompletions
              eq_refl eq_refl Hperm eq_refl)
    as [(e & run & Hrun & _) _].
  exists e, run. exact Hrun.
Defined.

(** C6, as the code has it.  For a batch of N segments with a progress
    callback, the callback is invoked exactly N + 1 times: once at the start
    with (0, N), then once after each segment resolves (with or without
    audio, or with an error).  Its first argument runs through 0, 1, ..., N
    in this order, whatever the completion order: it never decreases, and
    it equals N exactly at the last invocation, when all N segments have
    resolved. *)
Theorem generateSpeech_progress p o completions :
  getGenAI p = ret tt ->
  validateSpeakers o = ret tt ->
  onProgress o = true ->
  Permutation completions (inFlight o) ->
  let N := List.length (scriptSegments o) in
  let run := snd (generateSpeech p o completions) in
  progressCalls run = map (fun k => (k, N)) (seq 0 (N + 1))
  /\ List.length (progressCalls run) = (N + 1)%nat
  /\ processedCount run = N.
Proof.
  intros Hkey Hval Hon Hperm N run0.
  destruct (generateSpeech_run p o completions Hkey Hval) as (run & Hinv & Hs & Hrun).
  { intros i Hi. eapply Permutation_in; [symmetry; exact Hperm|exact Hi]. }
  subst run0. rewrite Hrun. cbn [snd].
  assert (Hcount : processedCount run = N).
  { rewrite (inv_count _ _ _ _ Hinv), (filter_all settled _ Hs).
    apply (inv_length _ _ _ _ Hinv). }
  assert (Hcalls : progressCalls run = map (fun k => (k, N)) (seq 0 (N + 1))).
  { rewrite (inv_calls _ _ _ _ Hinv Hon), Hcount, Nat.add_1_r. reflexivity. }
  split; [exact Hcalls|]. split; [|exact Hcount].
  now rewrite Hcalls, length_map, length_seq.
Qed.

Lemma generateSpeech_progress_witness :
  getGenAI fivePlatform = ret tt
  /\ validateSpeakers fiveOptions = ret tt
  /\ onProgress fiveOptions = true
  /\ Permutation fiveCompletions (inFlight fiveOptions)
  /\ progressCalls (snd (generateSpeech fivePlatform fiveOptions fiveCompletions))
     = [(0, 5); (1, 5); (2, 5); (3, 5); (4, 5); (5, 5)]%nat.
Proof.
  pose proof fiveCompletions_order as Hperm.
  split; [reflexivity|]. split; [reflexivity|]. split; [reflexivity|].
  split; [exact Hperm|].
  exact (proj1 (generateSpeech_progress fivePlatform fiveOptions fiveCompletions
                  eq_refl eq_refl eq_refl Hperm)).
Defined.

(** C6 as stated fails: for the batch of five segments the callback is
    invoked six times, not five. *)
Lemma generateSpeech_progress_not_N_calls :
  List.length (scriptSegments fiveOptions) = 5%nat
  /\ List.length
       (progressCalls (snd (generateSpeech fivePlatform fiveOptions fiveCompletions)))
     = 6%nat
  /\ ~ (List.length
          (progressCalls (snd (generateSpeech fivePlatform fiveOptions fiveCompletions)))
        = List.length (scriptSegments fiveOptions)).
Proof.
  split; [reflexivity|]. split; [reflexivity|].
  intros H. vm_compute in H. discriminate.
Qed.

(** ** The streaming playback queue *)

Lemma Math_max_l a b : (a <= Math_max a b)%Q.
Proof. unfold Math_max. qcases; lra. Qed.

Lemma Math_max_r a b : (b <= Math_max a b)%Q.
Proof. unfold Math_max. qcases; lra. Qed.







(** ** The live session manager *)

(** What the two conditional pushes of the turn-complete block do. *)
Lemma pushTurns_spec {E} (randomUUID : nat -> string) (w : World E) :
  let fullInput := currentInputTranscription (live w) in
  let fullOutput := currentOutputTranscription (live w) in
  let w1 := if String.eqb fullInput "" then w else pushTurn randomUUID user fullInput w in
  let w2 := if String.eqb fullOutput "" then w1 else pushTurn randomUUID model fullOutput w1 in
  exists records,
    map sideOf records = sealedSides fullInput fullOutput
    /\ accumulatedTurns (live w2) = accumulatedTurns (live w) ++ records
    /\ currentInputTranscription (live w2) = fullInput
    /\ currentOutputTranscription (live w2) = fullOutput
    /\ sessionPromise (live w2) = sessionPromise (live w)
    /\ mediaStream (live w2) = mediaStream (live w)
    /\ scriptProcessorNode (live w2) = scriptProcessorNode (live w)
    /\ effects w2 = effects w
    /\ consumer w2 = consumer w.
Proof.
  cbn zeta. unfold sealedSides.
  destruct (String.eqb (currentInputTranscription (live w)) "");
    destruct (String.eqb (currentOutputTranscription (live w)) "").
  - exists []. cbn. rewrite app_nil_r.
    repeat match goal with |- _ /\ _ => split end; reflexivity.
  - exists [{| LiveSpeakerTurn.id := randomUUID (turnIds w);
               LiveSpeakerTurn.speaker := model;
               LiveSpeakerTurn.text := currentOutputTranscription (live w) |}].
    cbn. repeat match goal with |- _ /\ _ => split end; reflexivity.
  - exists [{| LiveSpeakerTurn.id := randomUUID (turnIds w);
               LiveSpeakerTurn.speaker := user;
               LiveSpeakerTurn.text := currentInputTranscription (live w) |}].
    cbn. repeat match goal with |- _ /\ _ => split end; reflexivity.
  - exists [{| LiveSpeakerTurn.id := randomUUID (turnIds w);
               LiveSpeakerTurn.speaker := user;
               LiveSpeakerTurn.text := currentInputTranscription (live w) |};
            {| LiveSpeakerTurn.id := randomUUID (S (turnIds w));
               LiveSpeakerTurn.speaker := model;
               LiveSpeakerTurn.text := currentOutputTranscription (live w) |}].
    cbn. rewrite <- app_assoc.
    repeat match goal with |- _ /\ _ => split end; reflexivity.
Qed.

Lemma sealedSides_cases input output :
  (List.length (sealedSides input output) <= 2)%nat
  /\ (input = ""%string -> output <> ""%string ->
      sealedSides input output = [(model, output)])
  /\ (input <> ""%string -> output = ""%string ->
      sealedSides input output = [(user, input)])
  /\ (input <> ""%string -> output <> ""%string ->
      sealedSides input output = [(user, input); (model, output)])
  /\ (input = ""%string -> output = ""%string -> sealedSides input output = []).
Proof.
  unfold sealedSides.
  destruct (String.eqb_spec input ""), (String.eqb_spec output "");
    cbn; repeat split; intros; try congruence; lia.
Qed.

(** C7. For every state of the live session, a turn-complete event seals
    the input and output accumulators (as they stand after the message's
    own transcript deltas) into zero, one or two records, one per non-empty
    side and the user's first; it appends them to the turn history, hands
    the updated history to [onCompleteTurn], and resets both accumulators to
    the empty string.  The history is still the updated one afterwards when
    the callback leaves the manager's variables alone (as the panel's
    does), and the message's audio block, if any, runs on the state so
    obtained. *)
Theorem turnComplete_seals {E} (audioContext : AudioContext) (randomUUID : nat -> string)
    (cbs : Callbacks E) (message : LiveServerMessage) (w : World E) :
  turnComplete message = true ->
  let w1 := onmessage_transcripts cbs message w in
  let input := currentInputTranscription (live w1) in
  let output := currentOutputTranscription (live w1) in
  let history := accumulatedTurns (live w1) in
  exists records wp w2,
    map sideOf records = sealedSides input output
    /\ (List.length records <= 2)%nat
    /\ accumulatedTurns (live wp) = history ++ records
    /\ consumer wp = consumer w1
    /\ effects wp = effects w1
    /\ w2 = withLive (setTranscriptions "" "")
                     (onCompleteTurn cbs (history ++ records) wp)
    /\ currentInputTranscription (live w2) = ""%string
    /\ currentOutputTranscription (live w2) = ""%string
    /\ ((forall turns w0, live (onCompleteTurn cbs turns w0) = live w0) ->
        accumulatedTurns (live w2) = history ++ records)
    /\ onmessage audioContext randomUUID cbs message w
       = onmessage_audio audioContext cbs message w2
    /\ (inlineAudio message = None ->
        onmessage audioContext randomUUID cbs message w = w2).
Proof.
  intros Hturn. cbn zeta.
  unfold onmessage. rewrite Hturn.
  set (w1 := onmessage_transcripts cbs message w).
  destruct (pushTurns_spec randomUUID w1)
    as (records & Hsides & Hturns & Hin & Hout & _ & _ & _ & Heff & Hcons).
  cbn zeta in *.
  unfold onmessage_turnComplete.
  set (wp := if String.eqb (currentOutputTranscription (live w1)) "" then _ else _) in *.
  exists records, wp. eexists.
  split; [exact Hsides|].
  split. { rewrite <- (length_map sideOf), Hsides. apply sealedSides_cases. }
  split; [exact Hturns|]. split; [exact Hcons|]. split; [exact Heff|].
  split. { rewrite <- Hturns. reflexivity. }
  split; [reflexivity|]. split; [reflexivity|].
  split.
  { intros Hcb. unfold withLive.
    cbn [live setTranscriptions accumulatedTurns]. now rewrite Hcb. }
  split; [now rewrite Hturns|].
  intros Haudio. unfold onmessage_audio. rewrite Haudio. now rewrite Hturns.
Qed.

(** With output text only, the panel receives one new record, spoken by the
    model; with both sides, two records, the user's first. *)
Lemma turnComplete_seals_witness :
  turnComplete turnCompleteMessage = true
  /\ map sideOf
       (transcript (consumer
          (onmessage sampleContext turnUUID (panelCallbacks true 0) turnCompleteMessage
                     (panelWorld "" "Hello"))))
     = [(model, "Hello"%string)]
  /\ map sideOf
       (transcript (consumer
          (onmessage sampleContext turnUUID (panelCallbacks true 0) turnCompleteMessage
                     (panelWorld "Hi" "Hello"))))
     = [(user, "Hi"%string); (model, "Hello"%string)]
  /\ exists records wp,
       map sideOf records = sealedSides "Hi" "Hello"
       /\ onmessage sampleContext turnUUID (panelCallbacks true 0) turnCompleteMessage
                    (panelWorld "Hi" "Hello")
          = withLive (setTranscriptions "" "")
                     (onCompleteTurn (panelCallbacks true 0) ([] ++ records) wp)
       /\ accumulatedTurns
            (live (onmessage sampleContext turnUUID (panelCallbacks true 0)
                             turnCompleteMessage (panelWorld "Hi" "Hello")))
          = [] ++ records.
Proof.
  split; [reflexivity|]. split; [reflexivity|]. split; [reflexivity|].
  destruct (turnComplete_seals sampleContext turnUUID (panelCallbacks true 0)
              turnCompleteMessage (panelWorld "Hi" "Hello") eq_refl)
    as (records & wp & w2 & Hsides & _ & _ & _ & _ & Hw2 & _ & _ & Hhist & _ & Hmsg).
  exists records, wp. split; [exact Hsides|].
  cbn zeta in *. rewrite (Hmsg eq_refl).
  split; [exact Hw2|].
  apply Hhist. intros turns w0. reflexivity.
Defined.

(** [stop] releases whatever is held and clears the manager's variables. *)
Lemma stop_releases {E} (w : World E) :
  mediaStream (live (stop w)) = None
  /\ scriptProcessorNode (live (stop w)) = None
  /\ sessionPromise (live (stop w)) = None
  /\ effects (stop w) = effects w ++ releases (live w)
  /\ consumer (stop w) = consumer w
  /\ currentInputTranscription (live (stop w)) = ""%string
  /\ currentOutputTranscription (live (stop w)) = ""%string
  /\ accumulatedTurns (live (stop w)) = [].
Proof.
  unfold stop, releases.
  destruct w as [[session stream node input output turns] eff ids c].
  cbn [live mediaStream scriptProcessorNode sessionPromise].
  destruct stream as [stream|], node as [node|], session as [session|]; cbn;
    rewrite <- ?app_assoc, ?app_nil_r;
    repeat match goal with |- _ /\ _ => split end; reflexivity.
Qed.

(** Calling [stop] again changes nothing. *)
Lemma stop_idempotent {E} (w : World E) : stop (stop w) = stop w.
Proof.
  destruct w as [[session stream node input output turns] eff ids c].
  destruct stream as [stream|], node as [node|], session as [session|]; reflexivity.
Qed.

(** C8, as the code has it.  For every inbound audio payload whose decoding
    fails, the live session manager reports the decode error through the
    error callback and does nothing else: it runs no [stop] of its own.
    The microphone and the processing node are released by the error
    callback the panel registers ([handleLiveError]), which calls [stop]:
    with the panel's callbacks the handles are cleared, the tracks are
    stopped, the node is disconnected and the connection is asked to close,
    and the panel records the error and leaves the live state. *)
Theorem decode_failure_reported {E} (audioContext : AudioContext)
    (randomUUID : nat -> string) (cbs : Callbacks E)
    (message : LiveServerMessage) (w : World E) base64 error :
  inlineAudio message = Some base64 ->
  base64 <> ""%string ->
  decodeInlineAudio audioContext base64 = inr error ->
  let before :=
    let w1 := onmessage_transcripts cbs message w in
    if turnComplete message then onmessage_turnComplete randomUUID cbs w1 else w1 in
  onmessage audioContext randomUUID cbs message w = onError cbs error before
  /\ forall (closureLive : bool) (currentTime : Q) (wp : World Panel),
       let wp' := onError (panelCallbacks closureLive currentTime) error wp in
       mediaStream (live wp') = None
       /\ scriptProcessorNode (live wp') = None
       /\ sessionPromise (live wp') = None
       /\ effects wp' = effects wp ++ releases (live wp)
       /\ liveError (consumer wp') = Some error
       /\ isLiveActive (consumer wp') = false.
Proof.
  intros Haudio Hne Hdecode. cbn zeta. split.
  - unfold onmessage, onmessage_audio. rewrite Haudio.
    destruct (String.eqb_spec base64 ""); [contradiction|].
    unfold decodeInlineAudio in Hdecode. now rewrite Hdecode.
  - intros closureLive currentTime wp. cbn [panelCallbacks onError].
    unfold handleLiveError.
    destruct (stop_releases
                (withConsumer
                   (fun c =>
                      {| isLiveActive := false; isConnecting := false;
                         liveError := Some error;
                         currentInputText := currentInputText c;
                         currentOutputText := currentOutputText c;
                         transcript := transcript c; playback := playback c |}) wp))
      as (H1 & H2 & H3 & H4 & H5 & _).
    rewrite H1, H2, H3, H4, H5. cbn. repeat split.
Qed.

(** A malformed payload on an active session, handled by the panel: the
    error is shown and the microphone, the node and the connection are
    released. *)
Lemma decode_failure_reported_witness :
  inlineAudio malformedAudio = Some "A"%string
  /\ "A"%string <> ""%string
  /\ decodeInlineAudio sampleContext "A" = inr InvalidCharacterError
  /\ (let wp' := onmessage sampleContext turnUUID (panelCallbacks true 0) malformedAudio
                          (panelWorld "" "") in
      mediaStream (live wp') = None
      /\ scriptProcessorNode (live wp') = None
      /\ effects wp' = [TracksStopped 1; NodeDisconnected 2; CloseRequested 3]
      /\ liveError (consumer wp') = Some InvalidCharacterError).
Proof.
  split; [reflexivity|]. split; [discriminate|]. split; [reflexivity|].
  destruct (decode_failure_reported sampleContext turnUUID (panelCallbacks true 0)
              malformedAudio (panelWorld "" "") "A" InvalidCharacterError
              eq_refl ltac:(discriminate) eq_refl) as [Hmsg Hpanel].
  cbn zeta in *. rewrite Hmsg.
  destruct (Hpanel true 0%Q (panelWorld "" "")) as (H1 & H2 & _ & H4 & H5 & _).
  cbn [turnComplete malformedAudio onmessage_transcripts outputTranscription
       inputTranscription].
  repeat match goal with |- _ /\ _ => split end; assumption.
Defined.

(** C8 as stated fails: with callbacks that only record what they are told,
    a malformed payload on an active session is reported through the error
    callback, yet the manager keeps the microphone and the processing node
    and nothing has been stopped, disconnected or closed. *)
Lemma decode_failure_without_stop :
  errorsSeen (consumer (onmessage sampleContext turnUUID recordingCallbacks
                                  malformedAudio recordingWorld))
  = [InvalidCharacterError]
  /\ mediaStream (live (onmessage sampleContext turnUUID recordingCallbacks
                                  malformedAudio recordingWorld))
     = Some 1%nat
  /\ scriptProcessorNode (live (onmessage sampleContext turnUUID recordingCallbacks
                                          malformedAudio recordingWorld))
     = Some 2%nat
  /\ effects (onmessage sampleContext turnUUID recordingCallbacks
                        malformedAudio recordingWorld)
     = []
  /\ ~ (mediaStream (live (onmessage sampleContext turnUUID recordingCallbacks
                                     malformedAudio recordingWorld)) = None
        /\ scriptProcessorNode (live (onmessage sampleContext turnUUID recordingCallbacks
                                                malformedAudio recordingWorld)) = None).
Proof.
  repeat match goal with |- _ /\ _ => split end; try reflexivity.
  intros [H _]. vm_compute in H. discriminate.
Qed.

(* ================================================================== *)
(** * Part III: further properties of the sources                     *)
(* ================================================================== *)

(** ** [decodeAudioData] on any number of channels *)

Lemma int16At_cons2 lo hi rest k :
  int16At (lo :: hi :: rest) (S k) = int16At rest k.
Proof.
  unfold int16At, readInt16, byteAt.
  replace (2 * S k)%nat with (S (S (2 * k))) by lia. reflexivity.
Qed.

Lemma Int16Array_of_buffer_even n : forall data,
  List.length data = (2 * n)%nat ->
  Int16Array_of_buffer data = ret (map (int16At data) (seq 0 n)).
Proof.
  induction n as [|n IH]; intros data Hlen.
  - destruct data; [reflexivity|discriminate].
  - destruct data as [|lo [|hi rest]]; cbn in Hlen; try lia.
    cbn [Int16Array_of_buffer]. rewrite (IH rest) by lia. cbn [bind ret seq map].
    rewrite <- seq_shift, map_map. do 2 f_equal.
    apply map_ext. intros k. now rewrite int16At_cons2.
Qed.

Lemma Int16Array_of_buffer_odd n : forall data,
  List.length data = S (2 * n) ->
  Int16Array_of_buffer data = throw RangeError.
Proof.
  induction n as [|n IH]; intros data Hlen.
  - destruct data as [|lo [|hi rest]]; cbn in Hlen; try lia. reflexivity.
  - destruct data as [|lo [|hi rest]]; cbn in Hlen; try lia.
    cbn [Int16Array_of_buffer]. now rewrite (IH rest) by lia.
Qed.

Lemma even_length_half {A} (l : list A) :
  Nat.even (List.length l) = true -> List.length l = (2 * (List.length l / 2))%nat.
Proof.
  intros H. apply Nat.even_spec in H. destruct H as [k Hk].
  rewrite Hk. replace (2 * k)%nat with (k * 2)%nat by lia.
  rewrite Nat.div_mul by lia. lia.
Qed.

Lemma odd_length_half {A} (l : list A) :
  Nat.odd (List.length l) = true -> List.length l = S (2 * (List.length l / 2)).
Proof.
  intros H. apply Nat.odd_spec in H. destruct H as [k Hk].
  rewrite Hk.
  replace (2 * k + 1)%nat with (1 + k * 2)%nat by lia.
  rewrite Nat.div_add by lia. cbn. lia.
Qed.

Lemma getInt16_range lo hi : -32768 <= getInt16 lo hi < 32768.
Proof. apply wrapInt16_range. Qed.

(** The loop over the channels: channel [c] is replaced by [g c] of its
    former contents, for [c] from 0 below [n]. *)
Lemma channel_loop (g : nat -> list Q -> list Q) n : forall b,
  (n <= AudioBuffer.numberOfChannels b)%nat ->
  fold_left
    (fun acc channel =>
       buffer <- acc ;;
       channelData <- AudioBuffer.getChannelData buffer channel ;;
       ret (AudioBuffer.setChannelData buffer channel (g channel channelData)))
    (seq 0 n) (ret b)
  = ret {| AudioBuffer.sampleRate := AudioBuffer.sampleRate b;
           AudioBuffer.channelData :=
             map (fun c => g c (nth c (AudioBuffer.channelData b) [])) (seq 0 n)
             ++ skipn n (AudioBuffer.channelData b) |}.
Proof.
  induction n as [|n IH]; intros b Hn.
  - cbn. now destruct b.
  - rewrite seq_S, fold_left_app, IH by lia. cbn [fold_left Nat.add bind ret].
    unfold AudioBuffer.numberOfChannels in Hn.
    unfold AudioBuffer.getChannelData, AudioBuffer.setChannelData.
    cbn [AudioBuffer.channelData AudioBuffer.sampleRate].
    set (done := map _ (seq 0 n)).
    assert (Hdone : List.length done = n) by (subst done; now rewrite length_map, length_seq).
    rewrite (skipn_cons_nth n (AudioBuffer.channelData b) []) by lia.
    rewrite nth_error_app2 by lia. rewrite Hdone, Nat.sub_diag. cbn [nth_error bind ret].
    f_equal. f_equal.
    rewrite <- Hdone at 1. rewrite upd_app_length.
    rewrite map_app. cbn [map]. now rewrite <- app_assoc.
Qed.

Lemma nth_repeat_list {A} (x d : A) n i : (i < n)%nat -> nth i (repeat x n) d = x.
Proof.
  revert i; induction n as [|n IH]; intros [|i] H; cbn; try lia; auto.
  apply IH; lia.
Qed.

(** What [decodeAudioData] returns when nothing throws. *)
Lemma decodeAudioData_channels data ctx sampleRate numChannels :
  decodable data ctx sampleRate numChannels = true ->
  decodeAudioData data ctx sampleRate numChannels
  = ret {| AudioBuffer.sampleRate := sampleRate;
           AudioBuffer.channelData :=
             map (fun c =>
                    map (fun i => int16At data (i * numChannels + c) # 32768)
                        (seq 0 (List.length data / 2 / numChannels)))
                 (seq 0 numChannels) |}.
Proof.
  unfold decodable. rewrite !andb_true_iff, !Nat.leb_le.
  intros [[[[Heven Hlo] Hhi] Hframe] Hrate].
  unfold decodeAudioData.
  rewrite (Int16Array_of_buffer_even (List.length data / 2)) by now apply even_length_half.
  cbn [bind ret]. rewrite length_map, length_seq.
  set (n := (List.length data / 2)%nat) in *.
  set (F := (n / numChannels)%nat).
  assert (HF : (1 <= F)%nat).
  { subst F. apply Nat.div_le_lower_bound; lia. }
  assert (HFn : (F * numChannels <= n)%nat).
  { subst F. rewrite Nat.mul_comm. apply Nat.Div0.mul_div_le. }
  unfold createBuffer. rewrite Hrate.
  destruct (Nat.leb_spec 1 numChannels); [|lia].
  destruct (Nat.leb_spec numChannels 32); [|lia].
  destruct (Nat.leb_spec 1 F); [|lia].
  cbn [andb bind ret].
  rewrite (channel_loop (fun c cd =>
             decodeChannel (map (int16At data) (seq 0 n)) numChannels c F cd)).
  2:{ unfold AudioBuffer.numberOfChannels. cbn. rewrite repeat_length. lia. }
  cbn [AudioBuffer.sampleRate AudioBuffer.channelData].
  rewrite skipn_all2 by (rewrite repeat_length; lia). rewrite app_nil_r.
  do 2 f_equal. apply map_ext_in. intros c Hc. apply in_seq in Hc.
  rewrite nth_repeat_list by lia.
  unfold decodeChannel.
  rewrite (write_loop_repeat
             (fun i => nth (i * numChannels + c) (map (int16At data) (seq 0 n)) 0 # 32768)).
  apply map_ext_in. intros i Hi. apply in_seq in Hi.
  assert (Hk : (i * numChannels + c < n)%nat) by nia.
  rewrite (nth_indep _ 0 (int16At data 0))
    by (rewrite length_map, length_seq; exact Hk).
  rewrite map_nth. now rewrite seq_nth by exact Hk.
Qed.

(** What [decodeAudioData] throws otherwise: the view on an odd number of
    bytes is a [RangeError], anything else is refused by [createBuffer]. *)
Lemma decodeAudioData_not_decodable data ctx sampleRate numChannels :
  decodable data ctx sampleRate numChannels = false ->
  decodeAudioData data ctx sampleRate numChannels
  = throw (if Nat.even (List.length data) then NotSupportedError else RangeError).
Proof.
  unfold decodable, decodeAudioData. intros H.
  destruct (Nat.even (List.length data)) eqn:Heven.
  - rewrite (Int16Array_of_buffer_even (List.length data / 2)) by now apply even_length_half.
    cbn [bind ret]. rewrite length_map, length_seq.
    set (n := (List.length data / 2)%nat) in *.
    cbn [andb] in H. unfold createBuffer.
    destruct (Nat.leb_spec 1 numChannels) as [H1|H1]; [|reflexivity].
    destruct (Nat.leb_spec numChannels 32) as [H2|H2]; [|reflexivity].
    cbn [andb] in *.
    destruct (Nat.leb_spec numChannels n) as [H3|H3].
    + cbn [andb] in H. rewrite H. now rewrite andb_false_r.
    + rewrite Nat.div_small by lia. reflexivity.
  - rewrite (Int16Array_of_buffer_odd (List.length data / 2)); [reflexivity|].
    apply odd_length_half. rewrite <- Nat.negb_even, Heven. reflexivity.
Qed.

(** X1.  [decodeAudioData] de-interleaves: on a payload it accepts, it
    returns a buffer at the requested rate with the requested number of
    channels and one frame for every [numChannels] 16-bit samples, and the
    sample of channel [c] at frame [i] is the 16-bit little-endian integer
    number [i * numChannels + c] of the payload divided by 32768. *)
Theorem decodeAudioData_deinterleaves data ctx sampleRate numChannels :
  decodable data ctx sampleRate numChannels = true ->
  exists b,
    decodeAudioData data ctx sampleRate numChannels = ret b
    /\ AudioBuffer.sampleRate b = sampleRate
    /\ AudioBuffer.numberOfChannels b = numChannels
    /\ AudioBuffer.length b = (List.length data / 2 / numChannels)%nat
    /\ AudioBuffer.rectangular b = true
    /\ forall c i,
         (c < numChannels)%nat -> (i < List.length data / 2 / numChannels)%nat ->
         sampleAt b c i = int16At data (i * numChannels + c) # 32768.
Proof.
  intros Hd. eexists. split; [now apply decodeAudioData_channels|].
  unfold decodable in Hd. rewrite !andb_true_iff, !Nat.leb_le in Hd.
  destruct Hd as [[[[_ Hlo] _] _] _].
  set (F := (List.length data / 2 / numChannels)%nat).
  unfold AudioBuffer.numberOfChannels, AudioBuffer.length, AudioBuffer.rectangular, sampleAt.
  cbn [AudioBuffer.sampleRate AudioBuffer.channelData].
  split; [reflexivity|]. split; [now rewrite length_map, length_seq|].
  assert (Hhd : List.length
                  (hd [] (map (fun c => map (fun i => int16At data (i * numChannels + c) # 32768)
                                            (seq 0 F)) (seq 0 numChannels))) = F).
  { destruct numChannels; [lia|]. cbn [seq map hd]. now rewrite length_map, length_seq. }
  split; [exact Hhd|]. split.
  - unfold AudioBuffer.length. cbn [AudioBuffer.channelData]. rewrite Hhd.
    apply forallb_forall. intros d Hin. apply in_map_iff in Hin.
    destruct Hin as [c [<- _]]. rewrite length_map, length_seq. apply Nat.eqb_refl.
  - intros c i Hc Hi.
    rewrite (nth_indep _ [] (map (fun i => int16At data (i * numChannels + 0) # 32768) (seq 0 F)))
      by now rewrite length_map, length_seq.
    rewrite (map_nth (fun c => map (fun i => int16At data (i * numChannels + c) # 32768) (seq 0 F))).
    rewrite seq_nth by exact Hc. cbn [Nat.add].
    rewrite (nth_indep _ 0%Q (int16At data (0 * numChannels + c) # 32768))
      by now rewrite length_map, length_seq.
    rewrite (map_nth (fun i => int16At data (i * numChannels + c) # 32768)).
    now rewrite seq_nth by exact Hi.
Qed.

Lemma decodeAudioData_deinterleaves_witness :
  decodable sixBytes sampleContext 24000 3 = true
  /\ exists b,
       decodeAudioData sixBytes sampleContext 24000 3 = ret b
       /\ AudioBuffer.sampleRate b = 24000
       /\ AudioBuffer.numberOfChannels b = 3%nat
       /\ AudioBuffer.length b = (List.length sixBytes / 2 / 3)%nat
       /\ AudioBuffer.rectangular b = true
       /\ forall c i,
            (c < 3)%nat -> (i < List.length sixBytes / 2 / 3)%nat ->
            sampleAt b c i = int16At sixBytes (i * 3 + c) # 32768.
Proof.
  split; [reflexivity|].
  apply (decodeAudioData_deinterleaves sixBytes sampleContext 24000 3). reflexivity.
Defined.

(** X2.  Every sample [decodeAudioData] produces lies in [-1, 1): the
    quotient of a 16-bit integer by 32768 reaches -1 but never +1. *)
Theorem decodeAudioData_samples_in_range data ctx sampleRate numChannels b :
  decodeAudioData data ctx sampleRate numChannels = ret b ->
  Forall (Forall (fun s => -1 <= s /\ s < 1)%Q) (AudioBuffer.channelData b).
Proof.
  intros H.
  destruct (decodable data ctx sampleRate numChannels) eqn:Hd.
  - rewrite decodeAudioData_channels in H by exact Hd.
    inversion H; subst. cbn [AudioBuffer.channelData].
    apply Forall_forall. intros d Hd'. apply in_map_iff in Hd'.
    destruct Hd' as [c [<- _]].
    apply Forall_forall. intros s Hs. apply in_map_iff in Hs.
    destruct Hs as [i [<- _]].
    pose proof (getInt16_range (byteAt data (2 * (i * numChannels + c)))
                               (byteAt data (2 * (i * numChannels + c) + 1))) as Hr.
    unfold int16At, readInt16.
    set (v := getInt16 _ _) in *. clearbody v.
    unfold Qle, Qlt. cbn. lia.
  - rewrite decodeAudioData_not_decodable in H by exact Hd. discriminate.
Qed.

Lemma decodeAudioData_samples_in_range_witness :
  Forall (Forall (fun s => -1 <= s /\ s < 1)%Q)
         [[16384 # 32768]; [-16384 # 32768]; [32767 # 32768]].
Proof.
  apply (decodeAudioData_samples_in_range sixBytes sampleContext 24000 3
           {| AudioBuffer.sampleRate := 24000;
              AudioBuffer.channelData :=
                [[16384 # 32768]; [-16384 # 32768]; [32767 # 32768]] |}).
  reflexivity.
Defined.

(** X3.  The errors of [decodeAudioData]: a payload with an odd number of
    bytes is a [RangeError] (the 16-bit view cannot be built); an even one
    that holds less than one frame (the empty payload included), or that
    comes with a channel count or a sample rate the context refuses, is a
    [NotSupportedError] of [createBuffer].  No other input fails. *)
Theorem decodeAudioData_errors data ctx sampleRate numChannels :
  (Nat.odd (List.length data) = true ->
   decodeAudioData data ctx sampleRate numChannels = throw RangeError)
  /\ (Nat.even (List.length data) = true ->
      ((numChannels < 1)%nat \/ (32 < numChannels)%nat
       \/ (List.length data / 2 < numChannels)%nat
       \/ supportsSampleRate ctx sampleRate = false) ->
      decodeAudioData data ctx sampleRate numChannels = throw NotSupportedError)
  /\ (forall e, decodeAudioData data ctx sampleRate numChannels = throw e ->
      decodable data ctx sampleRate numChannels = false).
Proof.
  split; [|split].
  - intros Hodd. rewrite decodeAudioData_not_decodable.
    + rewrite <- Nat.negb_odd, Hodd. reflexivity.
    + unfold decodable. rewrite <- Nat.negb_odd, Hodd. reflexivity.
  - intros Heven Hbad. rewrite decodeAudioData_not_decodable.
    + now rewrite Heven.
    + unfold decodable. rewrite Heven. cbn [andb].
      destruct Hbad as [H|[H|[H|H]]].
      * destruct (Nat.leb_spec 1 numChannels); [lia|reflexivity].
      * destruct (Nat.leb_spec numChannels 32); [lia|]. now rewrite andb_false_r.
      * destruct (Nat.leb_spec numChannels (List.length data / 2)); [lia|].
        now rewrite !andb_false_r.
      * rewrite H. now rewrite andb_false_r.
  - intros e He. destruct (decodable data ctx sampleRate numChannels) eqn:Hd; [|reflexivity].
    rewrite decodeAudioData_channels in He by exact Hd. discriminate.
Qed.

Lemma decodeAudioData_errors_witness :
  decodeAudioData [x00] sampleContext 24000 1 = throw RangeError
  /\ decodeAudioData [] sampleContext 24000 1 = throw NotSupportedError.
Proof.
  split.
  - apply (proj1 (decodeAudioData_errors [x00] sampleContext 24000 1)). reflexivity.
  - apply (proj1 (proj2 (decodeAudioData_errors [] sampleContext 24000 1))).
    + reflexivity.
    + right. right. left. cbn. lia.
Defined.

(** ** [decode] and [encode]: malformed input, size of the output *)

Section Base64Shape.
Import Base64 Base64Aux.

Lemma In_strip_padding c l :
  In c l -> c <> pad -> In c (strip_padding l).
Proof.
  intros Hin Hc. induction l as [|x r IH]; [contradiction|].
  cbn [strip_padding].
  destruct (only_padding (x :: r)) eqn:Hp.
  - exfalso. cbn [only_padding] in Hp.
    destruct r as [|y [|z r']].
    + apply Ascii.eqb_eq in Hp. destruct Hin as [->|[]]. now apply Hc.
    + apply andb_prop in Hp as [Hx Hy].
      apply Ascii.eqb_eq in Hx. apply Ascii.eqb_eq in Hy.
      destruct Hin as [->|[->|[]]]; now apply Hc.
    + discriminate.
  - destruct Hin as [->|Hin]; [now left|]. right. now apply IH.
Qed.

Lemma sextets_foreign c l :
  In c l -> sextet_value c = None -> sextets l = None.
Proof.
  intros Hin Hc. induction l as [|x r IH]; [contradiction|].
  cbn [sextets]. destruct Hin as [->|Hin].
  - now rewrite Hc.
  - rewrite (IH Hin). now destruct (sextet_value x).
Qed.

Lemma atob_foreign s c :
  In c (list_ascii_of_string s) ->
  is_ascii_whitespace c = false ->
  sextet_value c = None ->
  c <> pad ->
  atob s = throw InvalidCharacterError.
Proof.
  intros Hin Hws Hval Hpad. unfold atob.
  set (d := filter _ _).
  assert (Hd : In c d).
  { subst d. apply filter_In. split; [exact Hin|]. now rewrite Hws. }
  match goal with
  | |- context [if ?b then strip_padding d else d] =>
      set (d' := if b then strip_padding d else d)
  end.
  assert (Hd' : In c d').
  { subst d'.
    match goal with |- In c (if ?b then _ else _) => destruct b end;
      [now apply In_strip_padding|exact Hd]. }
  match goal with |- (if ?b then _ else _) = _ => destruct b end; [reflexivity|].
  now rewrite (sextets_foreign c d' Hd' Hval).
Qed.

Lemma length_string_of_list_ascii l :
  String.length (string_of_list_ascii l) = List.length l.
Proof. induction l as [|c l IH]; cbn; [reflexivity|]. now rewrite IH. Qed.

Lemma length_list_ascii_of_string s :
  List.length (list_ascii_of_string s) = String.length s.
Proof. induction s as [|c s IH]; cbn; [reflexivity|]. now rewrite IH. Qed.

Lemma btoa_chars_exact_length l :
  List.length (btoa_chars l) = (4 * ((List.length l + 2) / 3))%nat.
Proof.
  induction l as [|a|a b|a b c rest IH] using list_ind3; cbn [btoa_chars List.length];
    try reflexivity.
  rewrite IH.
  replace (S (S (S (List.length rest))) + 2)%nat
    with (1 * 3 + (List.length rest + 2))%nat by lia.
  rewrite Nat.div_add_l by lia. lia.
Qed.

Lemma sextet_char_in_alphabet v : 0 <= v < 64 -> In (sextet_char v) alphabet.
Proof.
  intros Hv. unfold sextet_char. apply nth_In.
  change (List.length alphabet) with 64%nat. lia.
Qed.

Lemma btoa_chars_alphabet l :
  Forall (fun c => In c alphabet \/ c = pad) (btoa_chars l).
Proof.
  pose proof (btoa_sextets_range l) as Hr.
  induction l as [|a|a b|a b c rest IH] using list_ind3;
    cbn [btoa_chars btoa_sextets] in *.
  - constructor.
  - inversion Hr as [|? ? H0 Hr1]; subst. inversion Hr1 as [|? ? H1 _]; subst.
    repeat (constructor; [left; now apply sextet_char_in_alphabet|]).
    repeat (constructor; [now right|]). constructor.
  - inversion Hr as [|? ? H0 Hr1]; subst. inversion Hr1 as [|? ? H1 Hr2]; subst.
    inversion Hr2 as [|? ? H2 _]; subst.
    repeat (constructor; [left; now apply sextet_char_in_alphabet|]).
    repeat (constructor; [now right|]). constructor.
  - inversion Hr as [|? ? H0 Hr1]; subst. inversion Hr1 as [|? ? H1 Hr2]; subst.
    inversion Hr2 as [|? ? H2 Hr3]; subst. inversion Hr3 as [|? ? H3 Hr4]; subst.
    repeat (constructor; [left; now apply sextet_char_in_alphabet|]).
    now apply IH.
Qed.

End Base64Shape.

(** X4.  [decode] refuses text that is not base64: if the text holds a
    character that is neither one of the 64 digits, nor [=], nor ASCII
    white space, [decode] throws an [InvalidCharacterError] and returns no
    bytes. *)
Theorem decode_rejects_foreign_character (base64 : string) (c : ascii) :
  In c (list_ascii_of_string base64) ->
  Base64.is_ascii_whitespace c = false ->
  Base64.sextet_value c = None ->
  c <> Base64.pad ->
  decode base64 = throw InvalidCharacterError.
Proof.
  intros Hin Hws Hval Hpad. unfold decode.
  now rewrite (atob_foreign base64 c Hin Hws Hval Hpad).
Qed.

Lemma decode_rejects_foreign_character_witness :
  decode "AAE*/w==" = throw InvalidCharacterError.
Proof.
  apply (decode_rejects_foreign_character "AAE*/w==" "*"%char).
  - cbn. tauto.
  - reflexivity.
  - reflexivity.
  - discriminate.
Defined.

Lemma length_string_of_list_byte bytes :
  String.length (string_of_list_byte bytes) = List.length bytes.
Proof.
  unfold string_of_list_byte. now rewrite length_string_of_list_ascii, length_map.
Qed.

(** X5.  The size and alphabet of [encode]: [n] bytes give exactly
    [4 * ceil(n / 3)] characters, each one of the 64 base64 digits or the
    padding character [=] (so the text holds no white space and no line
    break, whatever its length). *)
Theorem encode_shape (bytes : list byte) :
  String.length (encode bytes) = (4 * ((List.length bytes + 2) / 3))%nat
  /\ Forall (fun c => In c Base64.alphabet \/ c = Base64.pad)
            (list_ascii_of_string (encode bytes)).
Proof.
  unfold encode, Base64.btoa. split.
  - rewrite length_string_of_list_ascii, btoa_chars_exact_length,
      length_list_ascii_of_string, length_string_of_list_byte. reflexivity.
  - rewrite list_ascii_of_string_of_list_ascii. apply btoa_chars_alphabet.
Qed.

(** ** [createPcmBlob]: the payload *)

Lemma int16At_flat_map_bytes16 l k :
  (k < List.length l)%nat ->
  int16At (flat_map bytes16 l) k = wrapInt16 (nth k l 0).
Proof.
  intros Hk. unfold int16At.
  rewrite <- (firstn_skipn k l) at 1.
  rewrite (skipn_cons_nth k l 0 Hk), flat_map_app. cbn [flat_map].
  set (done := flat_map bytes16 (firstn k l)).
  assert (Hdone : List.length done = (2 * k)%nat).
  { unfold done. rewrite (flat_map_length_const _ 2) by reflexivity.
    rewrite length_firstn. lia. }
  rewrite <- Hdone. apply readInt16_at.
Qed.

Lemma ToInt16_below_full_scale (s : Q) :
  (-1 <= s)%Q -> (s < 1)%Q -> ToInt16 (s * 32768) = truncate (s * 32768).
Proof.
  intros Hlo Hhi. unfold ToInt16. apply wrapInt16_small.
  destruct (truncate_bounds (s * 32768)%Q) as [Hpos Hneg].
  set (t := truncate (s * 32768)%Q) in *.
  destruct (Qlt_le_dec s 0) as [Hs|Hs].
  - destruct Hneg as [H1 H2]; [lra|].
    assert (Ha : (inject_Z (-32768) <= inject_Z t)%Q)
      by (change (inject_Z (-32768)) with (-32768)%Q; lra).
    assert (Hb : (inject_Z (t - 1) < inject_Z 0)%Q)
      by (change (inject_Z 0) with 0%Q; lra).
    rewrite <- Zle_Qle in Ha. rewrite <- Zlt_Qlt in Hb. lia.
  - destruct Hpos as [H1 H2]; [lra|].
    assert (Ha : (inject_Z t < inject_Z 32768)%Q)
      by (change (inject_Z 32768) with 32768%Q; lra).
    assert (Hb : (inject_Z (-32768) < inject_Z (t + 1))%Q)
      by (change (inject_Z (-32768)) with (-32768)%Q; lra).
    rewrite <- Zlt_Qlt in Ha, Hb. lia.
Qed.

(** X6.  The payload of [createPcmBlob]: it is tagged
    [audio/pcm;rate=16000], it always decodes, to two bytes per sample of
    the frame, and the 16-bit little-endian integer number [i] of these
    bytes is sample [i] times 32768, truncated and wrapped to 16 bits; for
    a sample in [-1, 1) no wrap occurs and the integer is the truncated
    product itself. *)
Theorem createPcmBlob_payload (x : list Q) :
  mimeType (createPcmBlob x) = "audio/pcm;rate=16000"%string
  /\ exists bytes,
       decode (data (createPcmBlob x)) = ret bytes
       /\ List.length bytes = (2 * List.length x)%nat
       /\ forall i, (i < List.length x)%nat ->
            int16At bytes i = ToInt16 (nth i x 0 * 32768)%Q
            /\ ((-1 <= nth i x 0)%Q -> (nth i x 0 < 1)%Q ->
                int16At bytes i = truncate (nth i x 0 * 32768)%Q).
Proof.
  split; [reflexivity|].
  exists (Uint8Array_of_Int16Array (createPcmBlob_int16 x)).
  unfold createPcmBlob. cbn [data].
  split; [apply decode_encode_bytes|].
  rewrite createPcmBlob_int16_map. unfold Uint8Array_of_Int16Array.
  split.
  - rewrite (flat_map_length_const _ 2) by reflexivity. now rewrite length_map.
  - intros i Hi.
    assert (Hv : int16At (flat_map bytes16 (map (fun s => ToInt16 (s * 32768)%Q) x)) i
                 = ToInt16 (nth i x 0 * 32768)%Q).
    { rewrite int16At_flat_map_bytes16 by now rewrite length_map.
      rewrite (nth_indep _ 0 (ToInt16 (0 * 32768)%Q)) by now rewrite length_map.
      rewrite (map_nth (fun s => ToInt16 (s * 32768)%Q)).
      unfold ToInt16. apply wrapInt16_idem. }
    split; [exact Hv|].
    intros Hlo Hhi. rewrite Hv. now apply ToInt16_below_full_scale.
Qed.

(** ** Splitting the script *)

Lemma matchChar_le c rest l n :
  (forall r m, rest r = Some m -> (m <= List.length r)%nat) ->
  matchChar c rest l = Some n -> (n <= List.length l)%nat.
Proof.
  intros Hrest. unfold matchChar. destruct l as [|x r]; [discriminate|].
  destruct (Ascii.eqb x c); [|discriminate].
  destruct (rest r) as [m|] eqn:E; cbn; [|discriminate].
  intros H. inversion H; subst. specialize (Hrest r m E). cbn. lia.
Qed.

Lemma matchSeq_le pat : forall l n,
  matchSeq pat l = Some n -> (n <= List.length l)%nat.
Proof.
  induction pat as [|[c|c] pat IH]; intros l n H; cbn [matchSeq] in H.
  - inversion H. lia.
  - eapply matchChar_le; eauto.
  - destruct (matchChar c (matchSeq pat) l) as [m|] eqn:E.
    + inversion H; subst. eapply matchChar_le; eauto.
    + now apply IH.
Qed.

Lemma matchAlt_le alts : forall l n,
  matchAlt alts l = Some n -> (n <= List.length l)%nat.
Proof.
  induction alts as [|pat alts IH]; intros l n H; cbn [matchAlt] in H; [discriminate|].
  destruct (matchSeq pat l) as [m|] eqn:E.
  - inversion H; subst. now apply (matchSeq_le pat).
  - now apply IH.
Qed.

(** Nothing is lost or added by the scan. *)
Lemma splitLoop_flat l : forall skip piece,
  (skip <= List.length l)%nat ->
  flat_map list_ascii_of_string (splitLoop skip piece l) = rev piece ++ skipn skip l.
Proof.
  induction l as [|c r IH]; intros skip piece Hskip.
  - cbn in Hskip. assert (skip = 0%nat) by lia. subst.
    cbn. now rewrite list_ascii_of_string_of_list_ascii, app_nil_r.
  - cbn [splitLoop]. destruct skip as [|k].
    + destruct (matchAlt separatorPattern (c :: r)) as [[|n]|] eqn:E.
      * rewrite IH by lia. cbn [rev skipn]. now rewrite <- app_assoc.
      * apply matchAlt_le in E. cbn [List.length] in E.
        cbn [flat_map]. rewrite !list_ascii_of_string_of_list_ascii.
        rewrite IH by lia. cbn [rev app firstn skipn].
        now rewrite firstn_skipn.
      * rewrite IH by lia. cbn [rev skipn]. now rewrite <- app_assoc.
    + cbn [List.length] in Hskip. rewrite IH by lia. reflexivity.
Qed.

Lemma list_ascii_of_string_app (a b : string) :
  list_ascii_of_string (a ++ b) = list_ascii_of_string a ++ list_ascii_of_string b.
Proof. induction a as [|c a IH]; cbn; [reflexivity|]. now rewrite IH. Qed.

Lemma concat_empty_flat (l : list string) :
  list_ascii_of_string (String.concat "" l) = flat_map list_ascii_of_string l.
Proof.
  induction l as [|x l IH]; [reflexivity|].
  destruct l as [|y l].
  - cbn. now rewrite app_nil_r.
  - change (String.concat "" (x :: y :: l))
      with (x ++ String.concat "" (y :: l))%string.
    rewrite list_ascii_of_string_app, IH. reflexivity.
Qed.

Lemma splitLoop_length l : forall skip piece,
  exists k, List.length (splitLoop skip piece l) = S (2 * k).
Proof.
  induction l as [|c r IH]; intros skip piece.
  - now exists 0%nat.
  - cbn [splitLoop]. destruct skip as [|k]; [|apply IH].
    destruct (matchAlt separatorPattern (c :: r)) as [[|n]|]; try apply IH.
    destruct (IH n []) as [k Hk]. exists (S k). cbn [List.length]. rewrite Hk. lia.
Qed.

(** X7.  Splitting loses nothing: the pieces and separators
    [script.split(...)] returns, concatenated in order, give back the
    script, character for character; and their number is odd (pieces and
    separators alternate, starting and ending with a piece, so that the
    empty script gives the single empty piece). *)
Theorem splitScript_lossless (script : string) :
  String.concat "" (splitScript script) = script
  /\ exists k, List.length (splitScript script) = S (2 * k).
Proof.
  split.
  - rewrite <- (string_of_list_ascii_of_string (String.concat "" (splitScript script))).
    rewrite concat_empty_flat. unfold splitScript.
    rewrite splitLoop_flat by lia. cbn [rev app skipn].
    apply string_of_list_ascii_of_string.
  - apply splitLoop_length.
Qed.

(** ** Blank text *)

Lemma trimStart_nil l : trimStart l = [] <-> forallb is_js_whitespace l = true.
Proof.
  induction l as [|c l IH]; cbn [trimStart forallb]; [tauto|].
  destruct (is_js_whitespace c); cbn [andb]; [exact IH|].
  split; discriminate.
Qed.

Lemma forallb_rev {A} (f : A -> bool) l : forallb f (rev l) = forallb f l.
Proof.
  induction l as [|x l IH]; [reflexivity|].
  cbn [rev forallb]. rewrite forallb_app, IH. cbn. rewrite andb_true_r. apply andb_comm.
Qed.

Lemma trimStart_suffix l : exists pre, l = pre ++ trimStart l /\ forallb is_js_whitespace pre = true.
Proof.
  induction l as [|c l [pre [IH1 IH2]]]; [now exists []|].
  cbn [trimStart]. destruct (is_js_whitespace c) eqn:E.
  - exists (c :: pre). cbn [app forallb]. rewrite E, IH2. split; [now f_equal|reflexivity].
  - now exists [].
Qed.

Lemma string_of_list_ascii_nil l : string_of_list_ascii l = ""%string -> l = [].
Proof. destruct l; [reflexivity|discriminate]. Qed.

(** A text is blank exactly when it is white space only. *)
Lemma blank_whitespaceOnly s : blank s = whitespaceOnly s.
Proof.
  unfold blank, whitespaceOnly, trim.
  set (l := list_ascii_of_string s).
  destruct (forallb is_js_whitespace l) eqn:E.
  - apply trimStart_nil in E. rewrite E. reflexivity.
  - apply String.eqb_neq. intros H. apply string_of_list_ascii_nil in H.
    assert (Hr : rev (rev (trimStart (rev (trimStart l)))) = []) by now rewrite H.
    rewrite rev_involutive in Hr. apply trimStart_nil in Hr.
    rewrite forallb_rev in Hr. apply trimStart_nil in Hr.
    destruct (trimStart_suffix l) as [pre [H1 H2]].
    assert (Hd : trimStart (trimStart l) = trimStart l).
    { destruct (trimStart l) as [|c r] eqn:Et; [reflexivity|].
      assert (Hc : is_js_whitespace c = false).
      { clear -Et. induction l as [|x l IH]; [discriminate|].
        cbn [trimStart] in Et. destruct (is_js_whitespace x) eqn:Ex; [now apply IH|].
        inversion Et; subst. exact Ex. }
      cbn [trimStart]. now rewrite Hc. }
    rewrite Hd in Hr. apply trimStart_nil in Hr. congruence.
Qed.

Lemma scriptSegmentsOf_nonblank script :
  Forall (fun s => blank s = false) (scriptSegmentsOf script).
Proof.
  apply Forall_forall. intros s Hs. apply filter_In in Hs as [_ Hs].
  now apply negb_true_iff in Hs.
Qed.

Lemma issue_nonblank o (entries : list (nat * string)) : forall r,
  Forall (fun e => blank (snd e) = false) entries ->
  fold_left (startSegment o) entries r = r.
Proof.
  induction entries as [|[i s] entries IH]; intros r H; [reflexivity|].
  inversion H as [|? ? Hs Hrest]; subst. cbn [fold_left startSegment].
  cbn [snd] in Hs. unfold blank in Hs. rewrite Hs. now apply IH.
Qed.

Lemma indexed_nonblank (segments : list string) :
  Forall (fun s => blank s = false) segments ->
  Forall (fun e => blank (snd e) = false) (indexed segments).
Proof.
  intros H. apply Forall_forall. intros [i s] Hin. apply In_indexed in Hin.
  rewrite Forall_forall in H. cbn [snd]. apply H. eapply nth_error_In; eauto.
Qed.

Lemma script_entries_kept script :
  filter (fun e : nat * string => negb (blank (snd e))) (indexed (scriptSegmentsOf script))
  = indexed (scriptSegmentsOf script).
Proof.
  pose proof (indexed_nonblank _ (scriptSegmentsOf_nonblank script)) as Hidx.
  apply filter_all. intros e He. rewrite Forall_forall in Hidx.
  now rewrite (Hidx e He).
Qed.

Lemma map_snd_indexed_from {A} (l : list A) s :
  map snd (combine (seq s (List.length l)) l) = l.
Proof.
  revert s. induction l as [|x l IH]; intros s; cbn; [reflexivity|]. now rewrite IH.
Qed.

(** The requests made for a script carry its segments, trimmed. *)
Lemma requestsOf_script script voiceId speakerMode configs onProgress :
  map contents (requestsOf (optionsOf script voiceId speakerMode configs onProgress))
  = map trim (scriptSegmentsOf script).
Proof.
  unfold requestsOf, optionsOf. cbn [scriptSegments].
  rewrite script_entries_kept, map_map. cbn [contents]. unfold indexed.
  rewrite <- (map_map snd trim). f_equal. apply map_snd_indexed_from.
Qed.

(** X8.  Segments made from a script are never blank: whatever the script,
    no segment [generateSpeech] works on trims to the empty string, so the
    branch of the callback for blank segments is never taken (issuing the
    calls settles no promise and reports no progress), a call is in flight
    for every segment, and the run issues one request per segment, carrying
    the trimmed segment. *)
Theorem script_segments_all_requested (script voiceId : string) (speakerMode : SpeakerMode)
    (configs : option (list SpeakerConfig.t)) (onProgress : bool) :
  Forall (fun s => trim s <> ""%string) (scriptSegmentsOf script)
  /\ inFlight (optionsOf script voiceId speakerMode configs onProgress)
     = seq 0 (List.length (scriptSegmentsOf script))
  /\ (forall r, issueAll (optionsOf script voiceId speakerMode configs onProgress) r = r)
  /\ map contents (requestsOf (optionsOf script voiceId speakerMode configs onProgress))
     = map trim (scriptSegmentsOf script).
Proof.
  pose proof (scriptSegmentsOf_nonblank script) as Hnb.
  split; [|split; [|split]].
  - apply Forall_forall. intros s Hs. rewrite Forall_forall in Hnb.
    specialize (Hnb s Hs). unfold blank in Hnb. now apply String.eqb_neq.
  - unfold inFlight, optionsOf. cbn [scriptSegments]. rewrite script_entries_kept.
    apply map_fst_indexed_from.
  - intros r. unfold issueAll, optionsOf. cbn [scriptSegments].
    apply issue_nonblank. now apply indexed_nonblank.
  - apply requestsOf_script.
Qed.

(** No separator starts at a character other than CR, LF, [.], [?], [!]. *)
Lemma matchAlt_start c r :
  startsSeparator c = false -> matchAlt separatorPattern (c :: r) = None.
Proof.
  unfold startsSeparator. rewrite !orb_false_iff.
  intros [[[[H1 H2] H3] H4] H5].
  unfold separatorPattern. cbn [matchAlt matchSeq matchChar].
  now rewrite H1, H2, H3, H4, H5.
Qed.

Lemma splitLoop_plain a : forall piece l,
  forallb (fun c => negb (startsSeparator c)) a = true ->
  splitLoop 0 piece (a ++ l) = splitLoop 0 (rev a ++ piece) l.
Proof.
  induction a as [|c a IH]; intros piece l H; [reflexivity|].
  cbn [forallb] in H. apply andb_prop in H as [Hc Ha]. apply negb_true_iff in Hc.
  cbn [app splitLoop]. rewrite (matchAlt_start c _ Hc).
  rewrite IH by exact Ha. cbn [rev]. now rewrite <- app_assoc.
Qed.

Lemma splitScript_plain (a : string) :
  plain a = true -> splitScript a = [a].
Proof.
  intros H. unfold splitScript, plain in *.
  rewrite <- (app_nil_r (list_ascii_of_string a)).
  rewrite splitLoop_plain by exact H. cbn [splitLoop].
  now rewrite app_nil_r, rev_involutive, string_of_list_ascii_of_string.
Qed.

(** A sentence mark followed by a space, and a paragraph break, between
    two stretches of plain text. *)
Lemma splitScript_mark (a b : string) (mark : ascii) :
  plain a = true -> plain b = true ->
  In mark ["."; "?"; "!"]%char ->
  splitScript (a ++ String mark " " ++ b) = [a; String mark " "; b].
Proof.
  intros Ha Hb Hmark. unfold splitScript, plain in *.
  rewrite !list_ascii_of_string_app.
  rewrite splitLoop_plain by exact Ha.
  rewrite app_nil_r, <- (app_nil_r (list_ascii_of_string b)).
  cbn [list_ascii_of_string app].
  assert (Hm : matchAlt separatorPattern
                 (mark :: " "%char :: list_ascii_of_string b ++ []) = Some 2%nat).
  { destruct Hmark as [<-|[<-|[<-|[]]]]; reflexivity. }
  cbn [splitLoop]. rewrite Hm.
  rewrite splitLoop_plain by exact Hb. cbn [splitLoop firstn].
  rewrite app_nil_r, !rev_involutive, !string_of_list_ascii_of_string.
  reflexivity.
Qed.

Lemma splitScript_paragraph (a b : string) :
  plain a = true -> plain b = true ->
  splitScript (a ++ String LF (String LF "") ++ b) = [a; String LF (String LF ""); b].
Proof.
  intros Ha Hb. unfold splitScript, plain in *.
  rewrite !list_ascii_of_string_app.
  rewrite splitLoop_plain by exact Ha.
  rewrite app_nil_r, <- (app_nil_r (list_ascii_of_string b)).
  cbn [list_ascii_of_string app].
  assert (Hm : matchAlt separatorPattern
                 (LF :: LF :: list_ascii_of_string b ++ []) = Some 2%nat).
  { unfold separatorPattern. cbn [matchAlt matchSeq matchChar].
    destruct (list_ascii_of_string b ++ []) as [|x r]; [reflexivity|].
    cbn. destruct (Ascii.eqb x CR); [|reflexivity].
    destruct r as [|y r]; [reflexivity|]. cbn. now destruct (Ascii.eqb y LF). }
  cbn [splitLoop]. rewrite Hm.
  rewrite splitLoop_plain by exact Hb. cbn [splitLoop firstn].
  rewrite app_nil_r, !rev_involutive, !string_of_list_ascii_of_string.
  reflexivity.
Qed.

(** X9.  What becomes a segment.  Between two stretches of text that hold
    no sentence mark and no line break and are not blank, a sentence mark
    followed by a space ([. ], [? ] or [! ]) is kept as a segment of its
    own, so that the script makes three requests, the middle one for the
    mark alone; a paragraph break (two line feeds) is dropped, so that the
    script makes two. *)
Theorem separators_in_segments (a b voiceId : string) (mark : ascii) (onProgress : bool) :
  plain a = true -> plain b = true ->
  whitespaceOnly a = false -> whitespaceOnly b = false ->
  In mark ["."; "?"; "!"]%char ->
  scriptSegmentsOf (a ++ String mark " " ++ b) = [a; String mark " "; b]
  /\ map contents
         (requestsOf (optionsOf (a ++ String mark " " ++ b) voiceId single None onProgress))
     = [trim a; String mark ""; trim b]
  /\ scriptSegmentsOf (a ++ String LF (String LF "") ++ b) = [a; b].
Proof.
  intros Ha Hb Hwa Hwb Hmark.
  rewrite <- blank_whitespaceOnly in Hwa, Hwb. unfold blank in Hwa, Hwb.
  assert (Hseg : scriptSegmentsOf (a ++ String mark " " ++ b) = [a; String mark " "; b]).
  { unfold scriptSegmentsOf. rewrite splitScript_mark by assumption.
    cbn [filter]. rewrite Hwa, Hwb. cbn [negb].
    destruct Hmark as [<-|[<-|[<-|[]]]]; reflexivity. }
  split; [exact Hseg|]. split.
  - rewrite requestsOf_script, Hseg. cbn [map]. f_equal. f_equal.
    destruct Hmark as [<-|[<-|[<-|[]]]]; reflexivity.
  - unfold scriptSegmentsOf. rewrite splitScript_paragraph by assumption.
    cbn [filter]. rewrite Hwa, Hwb. cbn [negb]. reflexivity.
Qed.

Lemma separators_in_segments_witness :
  scriptSegmentsOf "Hello there. How are you" = ["Hello there"; ". "; "How are you"]%string
  /\ map contents
         (requestsOf (optionsOf "Hello there. How are you" "Kore" single None true))
     = ["Hello there"; "."; "How are you"]%string.
Proof.
  destruct (separators_in_segments "Hello there" "How are you" "Kore" "."%char true
              eq_refl eq_refl eq_refl eq_refl (or_introl eq_refl))
    as (H1 & H2 & _).
  split; [exact H1|exact H2].
Defined.

Lemma splitLoop_chars l : forall skip piece s c,
  (skip <= List.length l)%nat ->
  In s (splitLoop skip piece l) ->
  In c (list_ascii_of_string s) ->
  In c (rev piece ++ skipn skip l).
Proof.
  intros skip piece s c Hskip Hs Hc.
  rewrite <- (splitLoop_flat l skip piece Hskip).
  apply in_flat_map. eauto.
Qed.

Lemma filter_none {A} (f : A -> bool) l :
  (forall x, In x l -> f x = false) -> filter f l = [].
Proof.
  induction l as [|x l IH]; intros H; cbn; [reflexivity|].
  rewrite (H x (or_introl eq_refl)). apply IH. intros y Hy. apply H. now right.
Qed.

Lemma scriptSegmentsOf_blank script :
  whitespaceOnly script = true -> scriptSegmentsOf script = [].
Proof.
  intros Hws. unfold scriptSegmentsOf. apply filter_none.
  intros s Hs. apply negb_false_iff. fold (blank s). rewrite blank_whitespaceOnly.
  unfold whitespaceOnly in *. apply forallb_forall. intros c Hc.
  rewrite forallb_forall in Hws. apply Hws.
  unfold splitScript in Hs.
  pose proof (splitLoop_chars _ 0 [] s c ltac:(lia) Hs Hc) as H.
  exact H.
Qed.

Lemma completions_no_segments p o completions : forall r,
  scriptSegments o = [] ->
  fold_left (completeSegment p o) completions r = r.
Proof.
  induction completions as [|i l IH]; intros r Hnil; [reflexivity|].
  cbn [fold_left]. unfold completeSegment at 2. rewrite Hnil.
  destruct i; cbn [nth_error]; now apply IH.
Qed.

(** X10.  A script that is white space only (the empty script included)
    yields no segment, and [generateSpeech] then makes no request: both
    variants return the empty list of chunks at once, the only progress
    report being the initial (0, 0). *)
Theorem blank_script_makes_no_request (p : Platform) (script voiceId : string)
    (speakerMode : SpeakerMode) (configs : option (list SpeakerConfig.t))
    (onProgress : bool) (completions : list nat) :
  whitespaceOnly script = true ->
  getGenAI p = ret tt ->
  validateSpeakers (optionsOf script voiceId speakerMode configs onProgress) = ret tt ->
  scriptSegmentsOf script = []
  /\ requestsOf (optionsOf script voiceId speakerMode configs onProgress) = []
  /\ fst (generateSpeech p (optionsOf script voiceId speakerMode configs onProgress)
            completions) = Fulfilled []
  /\ progressCalls
       (snd (generateSpeech p (optionsOf script voiceId speakerMode configs onProgress)
               completions))
     = (if onProgress then [(0, 0)%nat] else [])
  /\ generateSpeechSequential p (optionsOf script voiceId speakerMode configs onProgress)
     = (ret [], if onProgress then [(0, 0)%nat] else []).
Proof.
  intros Hws Hkey Hval.
  pose proof (scriptSegmentsOf_blank script Hws) as Hnil.
  split; [exact Hnil|].
  set (o := optionsOf script voiceId speakerMode configs onProgress) in *.
  assert (Ho : scriptSegments o = []) by exact Hnil.
  split; [unfold requestsOf; now rewrite Ho|].
  unfold generateSpeech, generateSpeechSequential. rewrite Hkey, Hval.
  rewrite completions_no_segments by exact Ho.
  unfold issueAll, initialRun, reportProgress. rewrite Ho.
  cbn. destruct onProgress; repeat split; reflexivity.
Qed.

Lemma blank_script_makes_no_request_witness :
  scriptSegmentsOf "   " = []
  /\ fst (generateSpeech fivePlatform (optionsOf "   " "Kore" single None true) [])
     = Fulfilled [].
Proof.
  destruct (blank_script_makes_no_request fivePlatform "   " "Kore" single None true []
              eq_refl eq_refl eq_refl) as (H1 & _ & H2 & _).
  split; [exact H1|exact H2].
Defined.

(** ** The API key and the speakers *)

Lemma getGenAI_hasApiKey p :
  getGenAI p = if hasApiKey p then ret tt else throw ApiKeyError.
Proof.
  unfold getGenAI, hasApiKey. destruct (API_KEY p) as [k|]; [|reflexivity].
  fold (blank k). rewrite blank_whitespaceOnly. now destruct (whitespaceOnly k).
Qed.

(** X11.  Without a usable API key nothing starts: when the key is missing
    or white space only, both variants of [generateSpeech] fail with the
    key error before reporting any progress and before any segment is
    looked at (no promise is settled, no identifier drawn); with any other
    key [getGenAI] succeeds. *)
Theorem generateSpeech_needs_api_key (p : Platform) (o : GenerateSpeechOptions)
    (completions : list nat) :
  (hasApiKey p = false ->
   generateSpeech p o completions = (Rejected ApiKeyError, initialRun o)
   /\ progressCalls (snd (generateSpeech p o completions)) = []
   /\ generateSpeechSequential p o = (throw ApiKeyError, []))
  /\ (hasApiKey p = true -> getGenAI p = ret tt).
Proof.
  split; intros H.
  - unfold generateSpeech, generateSpeechSequential.
    rewrite getGenAI_hasApiKey, H. repeat split; reflexivity.
  - now rewrite getGenAI_hasApiKey, H.
Qed.

Lemma generateSpeech_needs_api_key_witness :
  generateSpeech keylessPlatform fiveOptions fiveCompletions
  = (Rejected ApiKeyError, initialRun fiveOptions)
  /\ getGenAI fivePlatform = ret tt.
Proof.
  split.
  - apply (proj1 (generateSpeech_needs_api_key keylessPlatform fiveOptions fiveCompletions)).
    reflexivity.
  - apply (proj2 (generateSpeech_needs_api_key fivePlatform fiveOptions [])).
    reflexivity.
Defined.

Lemma validSpeakerConfigs_usable o :
  validSpeakerConfigs o = filter (fun s => negb (unusable s)) (configsOf o).
Proof.
  unfold validSpeakerConfigs, configsOf.
  destruct (multiSpeakerConfigs o) as [cs|]; [|reflexivity].
  apply filter_ext. intros s. unfold unusable.
  fold (blank (SpeakerConfig.name s)). fold (blank (SpeakerConfig.voiceId s)).
  rewrite !blank_whitespaceOnly. now rewrite negb_orb.
Qed.

Lemma filter_negb_nil {A} (f : A -> bool) l :
  filter (fun x => negb (f x)) l = [] <-> forallb f l = true.
Proof.
  induction l as [|x l IH]; cbn; [tauto|].
  destruct (f x); cbn; [exact IH|split; discriminate].
Qed.

Lemma validateSpeakers_usable o :
  validateSpeakers o
  = match speakerMode o with
    | single => ret tt
    | multi => if forallb unusable (configsOf o) then throw ValidationError else ret tt
    end.
Proof.
  unfold validateSpeakers. destruct (speakerMode o); [reflexivity|].
  rewrite validSpeakerConfigs_usable.
  destruct (forallb unusable (configsOf o)) eqn:E.
  - apply filter_negb_nil in E. now rewrite E.
  - destruct (filter (fun s => negb (unusable s)) (configsOf o)) eqn:F; [|reflexivity].
    apply filter_negb_nil in F. congruence.
Qed.

(** X12.  Multi-speaker mode without a usable speaker: when no speaker is
    configured, or every configured speaker has a blank name or a blank
    voice, both variants of [generateSpeech] fail with the validation error
    and make no request; the progress callback has by then been invoked
    once, with (0, N).  Single-speaker mode never fails this validation. *)
Theorem generateSpeech_needs_a_speaker (p : Platform) (o : GenerateSpeechOptions)
    (completions : list nat) :
  getGenAI p = ret tt ->
  (speakerMode o = multi -> forallb unusable (configsOf o) = true ->
   fst (generateSpeech p o completions) = Rejected ValidationError
   /\ segmentPromises (snd (generateSpeech p o completions))
      = repeat Pending (List.length (scriptSegments o))
   /\ progressCalls (snd (generateSpeech p o completions))
      = (if onProgress o then [(0%nat, List.length (scriptSegments o))] else [])
   /\ generateSpeechSequential p o
      = (throw ValidationError,
         if onProgress o then [(0%nat, List.length (scriptSegments o))] else []))
  /\ (speakerMode o = single -> validateSpeakers o = ret tt).
Proof.
  intros Hkey. split.
  - intros Hmode Hall. unfold generateSpeech, generateSpeechSequential.
    rewrite Hkey, validateSpeakers_usable, Hmode, Hall.
    unfold ret, throw.
    cbn [fst snd reportProgress initialRun segmentPromises progressCalls app].
    destruct (onProgress o); repeat split; reflexivity.
  - intros Hmode. now rewrite validateSpeakers_usable, Hmode.
Qed.

Lemma generateSpeech_needs_a_speaker_witness :
  getGenAI fivePlatform = ret tt
  /\ fst (generateSpeech fivePlatform (multiOptions blankSpeakers) [0; 1; 2]%nat)
     = Rejected ValidationError
  /\ progressCalls (snd (generateSpeech fivePlatform (multiOptions blankSpeakers) [0; 1; 2]%nat))
     = [(0, 3)%nat].
Proof.
  split; [reflexivity|].
  destruct (proj1 (generateSpeech_needs_a_speaker fivePlatform (multiOptions blankSpeakers)
                     [0; 1; 2]%nat eq_refl) eq_refl eq_refl) as (H1 & _ & H2 & _).
  split; [exact H1|exact H2].
Defined.

(** X13.  One usable speaker is enough, and the request names them all: in
    multi-speaker mode, as soon as one configured speaker has a name and a
    voice the validation passes, and every request then carries the whole
    list of configured speakers in order, those with a blank name or voice
    included (the filtered list is used for the check only). *)
Theorem multi_speaker_request_names_all (o : GenerateSpeechOptions)
    (cs : list SpeakerConfig.t) :
  speakerMode o = multi ->
  multiSpeakerConfigs o = Some cs ->
  existsb (fun s => negb (unusable s)) cs = true ->
  validateSpeakers o = ret tt
  /\ Forall (fun request =>
               config request
               = multiSpeakerVoiceConfig
                   (map (fun s => (SpeakerConfig.name s, SpeakerConfig.voiceId s)) cs))
            (requestsOf o).
Proof.
  intros Hmode Hcs Hex. split.
  - rewrite validateSpeakers_usable, Hmode. unfold configsOf. rewrite Hcs.
    destruct (forallb unusable cs) eqn:E; [|reflexivity].
    apply existsb_exists in Hex as (s & Hin & Hs).
    rewrite forallb_forall in E. rewrite (E s Hin) in Hs. discriminate.
  - apply Forall_forall. intros request Hin. unfold requestsOf in Hin.
    apply in_map_iff in Hin as (e & <- & _). cbn [config].
    unfold speechConfigOf. rewrite Hmode, Hcs.
    destruct cs as [|c cs']; [discriminate|reflexivity].
Qed.

Lemma multi_speaker_request_names_all_witness :
  validateSpeakers (multiOptions twoSpeakers) = ret tt
  /\ Forall (fun request =>
               config request
               = multiSpeakerVoiceConfig [("Speaker1", "Zephyr"); ("  ", "Kore")]%string)
            (requestsOf (multiOptions twoSpeakers)).
Proof.
  apply (multi_speaker_request_names_all (multiOptions twoSpeakers) twoSpeakers);
    reflexivity.
Defined.

(** ** The two variants of [generateSpeech] side by side *)

(** The concurrent variant resolves once every call in flight has
    completed without failure. *)
Lemma generateSpeech_resolves p o completions :
  getGenAI p = ret tt ->
  validateSpeakers o = ret tt ->
  incl (inFlight o) completions ->
  anyFails p o = false ->
  exists chunks run,
    generateSpeech p o completions = (Fulfilled chunks, run)
    /\ map contentOf chunks = expectedContents p o.
Proof.
  intros Hkey Hval Hincl Hnofail.
  destruct (generateSpeech_run p o completions Hkey Hval Hincl) as (run & Hinv & Hs & Hrun).
  assert (Hnone : allRejected run = None).
  { pose proof (inv_rejected _ _ _ _ Hinv) as Hr.
    destruct (allRejected run) as [e|]; [|reflexivity].
    destruct (rejected_fails p o run e Hinv Hr) as (i & segment & H1 & H2 & H3).
    exfalso. eapply anyFails_false; eauto. }
  pose proof (inv_rejected _ _ _ _ Hinv) as Hr. rewrite Hnone in Hr, Hrun.
  destruct (allValues_fulfilled (segmentPromises run) Hs Hr) as [results Hres].
  rewrite Hres in Hrun.
  exists (orderedChunks results), run. split; [exact Hrun|].
  eapply generateSpeech_fulfilled_in_order; eauto.
Qed.

(** The sequential loop when no call fails: the chunks of the segments
    that yield audio are appended in order, with the identifiers
    [crypto.randomUUID] hands out, and each one is followed by a progress
    report carrying the number of chunks so far. *)
Lemma generateSpeechLoop_ok p o entries : forall chunks calls,
  existsb (fails p o) entries = false ->
  exists cs,
    generateSpeechLoop p o entries chunks calls
    = (ret (chunks ++ cs),
       calls ++ (if onProgress o
                 then map (fun k => ((List.length chunks + k)%nat,
                                     List.length (scriptSegments o)))
                          (seq 1 (List.length cs))
                 else []))
    /\ map contentOf cs = flat_map (expectedEntry p o) entries
    /\ map GeneratedAudioChunk.id cs
       = map (fun k => randomUUID p (List.length chunks + k)) (seq 0 (List.length cs)).
Proof.
  induction entries as [|[i segment] rest IH]; intros chunks calls H.
  - exists []. cbn. rewrite !app_nil_r. destruct (onProgress o); now rewrite ?app_nil_r.
  - cbn [existsb] in H. apply orb_false_iff in H as [Hf Hrest].
    unfold fails in Hf. cbn [fst snd] in Hf.
    cbn [generateSpeechLoop flat_map]. fold (blank segment).
    unfold expectedEntry at 1. cbn [fst snd].
    destruct (blank segment) eqn:Hb; cbn [negb andb] in Hf.
    + destruct (IH chunks calls Hrest) as (cs & Hrun & Hcont & Hids).
      exists cs. now rewrite Hrun.
    + destruct (segmentAudio p o i segment) as [[audioBuffer|]|error] eqn:Ha;
        [| |discriminate].
      * match goal with
        | |- context [generateSpeechLoop p o rest ?c ?k] =>
            destruct (IH c k Hrest) as (cs & Hrun & Hcont & Hids)
        end.
        eexists (_ :: cs). rewrite Hrun. clear Hrun.
        rewrite length_app in Hids. rewrite !length_app. cbn [List.length] in *.
        split; [|split].
        -- rewrite <- !app_assoc. cbn [app List.length]. f_equal.
           destruct (onProgress o); [|now rewrite app_nil_r].
           rewrite <- app_assoc. f_equal. cbn [seq map app]. f_equal.
           rewrite <- (seq_shift (List.length cs) 1), map_map.
           apply map_ext. intros k. f_equal. lia.
        -- cbn [map app]. rewrite Hcont. reflexivity.
        -- cbn [map List.length seq GeneratedAudioChunk.id]. rewrite Nat.add_0_r. f_equal.
           rewrite Hids, <- (seq_shift (List.length cs) 0), map_map.
           apply map_ext. intros k. f_equal. lia.
      * destruct (IH chunks calls Hrest) as (cs & Hrun & Hcont & Hids).
        exists cs. now rewrite Hrun.
Qed.

(** X14.  The two variants agree.  When the key and the speakers are
    accepted and no call fails, the concurrent variant (whatever the order
    in which its calls complete, once all have) and the sequential variant
    return chunks with the same texts and the same audio in the same
    order: one for each segment whose call yields audio, in script order. *)
Theorem generateSpeech_variants_agree p o completions :
  getGenAI p = ret tt ->
  validateSpeakers o = ret tt ->
  incl (inFlight o) completions ->
  anyFails p o = false ->
  exists concurrent run sequential calls,
    generateSpeech p o completions = (Fulfilled concurrent, run)
    /\ generateSpeechSequential p o = (ret sequential, calls)
    /\ map contentOf concurrent = map contentOf sequential
    /\ map contentOf sequential = expectedContents p o.
Proof.
  intros Hkey Hval Hincl Hnofail.
  destruct (generateSpeech_resolves p o completions Hkey Hval Hincl Hnofail)
    as (chunks & run & Hrun & Hcont).
  unfold generateSpeechSequential. rewrite Hkey, Hval. unfold ret at 1 2.
  destruct (generateSpeechLoop_ok p o (indexed (scriptSegments o)) []
              (if onProgress o then [(0%nat, List.length (scriptSegments o))] else [])
              Hnofail) as (cs & Hseq & Hcs & _).
  cbn [app] in Hseq.
  exists chunks, run, cs. eexists.
  split; [exact Hrun|]. split; [exact Hseq|].
  split; [now rewrite Hcont, Hcs|exact Hcs].
Qed.

Lemma generateSpeech_variants_agree_witness :
  exists concurrent run sequential calls,
    generateSpeech fivePlatform fiveOptions fiveCompletions = (Fulfilled concurrent, run)
    /\ generateSpeechSequential fivePlatform fiveOptions = (ret sequential, calls)
    /\ map contentOf concurrent = map contentOf sequential
    /\ map contentOf sequential = expectedContents fivePlatform fiveOptions.
Proof.
  apply (generateSpeech_variants_agree fivePlatform fiveOptions fiveCompletions).
  - reflexivity.
  - reflexivity.
  - intros i Hi. eapply Permutation_in; [symmetry; apply fiveCompletions_order|exact Hi].
  - reflexivity.
Defined.

Lemma expectedEntries_length p o (l : list (nat * string)) :
  (List.length (flat_map (expectedEntry p o) l) <= List.length l)%nat.
Proof.
  induction l as [|e l IH]; [cbn; lia|].
  cbn [flat_map List.length]. rewrite length_app.
  assert (List.length (expectedEntry p o e) <= 1)%nat.
  { unfold expectedEntry. destruct (blank (snd e)); [cbn; lia|].
    destruct (segmentAudio p o (fst e) (snd e)) as [[a|]|]; cbn; lia. }
  lia.
Qed.

(** X15.  Progress in the sequential variant counts chunks, not segments:
    when no call fails, the callback is invoked with (0, N) and then with
    (k, N) for k from 1 to the number M of chunks returned, M + 1 times in
    all; M is at most N, so that the last report falls short of (N, N) as
    soon as one segment yields no audio. *)
Theorem generateSpeechSequential_progress p o :
  getGenAI p = ret tt ->
  validateSpeakers o = ret tt ->
  onProgress o = true ->
  anyFails p o = false ->
  exists chunks,
    generateSpeechSequential p o
    = (ret chunks,
       map (fun k => (k, List.length (scriptSegments o)))
           (seq 0 (S (List.length chunks))))
    /\ (List.length chunks <= List.length (scriptSegments o))%nat.
Proof.
  intros Hkey Hval Hon Hnofail.
  unfold generateSpeechSequential. rewrite Hkey, Hval, Hon. unfold ret at 1 2.
  destruct (generateSpeechLoop_ok p o (indexed (scriptSegments o)) []
              [(0%nat, List.length (scriptSegments o))] Hnofail)
    as (cs & Hseq & Hcs & _).
  rewrite Hon in Hseq. cbn [app List.length Nat.add] in Hseq.
  exists cs. split.
  - rewrite Hseq. cbn [seq map]. reflexivity.
  - rewrite <- (length_map contentOf), Hcs.
    rewrite <- (indexed_length (scriptSegments o)). apply expectedEntries_length.
Qed.

Lemma generateSpeechSequential_progress_witness :
  exists chunks,
    generateSpeechSequential fivePlatform fiveOptions
    = (ret chunks, map (fun k => (k, 5%nat)) (seq 0 (S (List.length chunks))))
    /\ (List.length chunks <= 5)%nat.
Proof.
  apply (generateSpeechSequential_progress fivePlatform fiveOptions); reflexivity.
Defined.

(** ** Identifiers of the chunks *)

Lemma flat_map_upd {A B} (f : A -> list B) (l : list A) i old new :
  nth_error l i = Some old ->
  exists l1 l2,
    flat_map f l = l1 ++ f old ++ l2
    /\ flat_map f (upd i new l) = l1 ++ f new ++ l2.
Proof.
  revert i. induction l as [|x l IH]; intros [|i] H; cbn in H; try discriminate.
  - inversion H; subst. exists [], (flat_map f l). split; reflexivity.
  - destruct (IH i H) as (l1 & l2 & H1 & H2).
    exists (f x ++ l1), l2. cbn [flat_map upd]. rewrite H1, H2, <- !app_assoc.
    split; reflexivity.
Qed.

Lemma NoDup_app_drop {A} (l1 m l2 : list A) :
  NoDup (l1 ++ m ++ l2) -> NoDup (l1 ++ l2).
Proof.
  induction l1 as [|x l1 IH]; cbn [app]; intros H.
  - eapply NoDup_app_remove_l; eauto.
  - inversion H as [|? ? Hx Hrest]; subst. constructor; [|now apply IH].
    intros Hin. apply Hx. apply in_app_or in Hin as [Hin|Hin]; apply in_or_app; auto.
    right. apply in_or_app. now right.
Qed.

Lemma upd_out_of_range {A} i (v : A) l :
  (List.length l <= i)%nat -> upd i v l = l.
Proof.
  revert i. induction l as [|x l IH]; intros [|i] H; cbn in *; try lia; auto.
  f_equal. apply IH. lia.
Qed.

Lemma IdInv_settle_empty p r r1 i pr :
  IdInv p r ->
  segmentPromises r1 = segmentPromises r ->
  uuidsDrawn r1 = uuidsDrawn r ->
  nth_error (segmentPromises r) i = Some Pending ->
  idsOf pr = [] ->
  IdInv p (settleWith i pr r1).
Proof.
  intros [Hnd Hk] Hs Hu Hpend Hpr. unfold IdInv, settleWith.
  cbn [segmentPromises uuidsDrawn]. rewrite Hs, Hu.
  destruct (flat_map_upd idsOf (segmentPromises r) i Pending pr Hpend)
    as (l1 & l2 & H1 & H2).
  rewrite H2, Hpr. cbn [idsOf app] in H1. rewrite H1 in Hnd, Hk. cbn [app].
  split; assumption.
Qed.

Lemma startSegment_IdInv p o r entry :
  IdInv p r -> IdInv p (startSegment o r entry).
Proof.
  intros Hinv. destruct entry as [i segment]. unfold startSegment.
  destruct (String.eqb (trim segment) ""); [|exact Hinv].
  destruct (nth_error (segmentPromises r) i) as [old|] eqn:Hold.
  - destruct Hinv as [Hnd Hk]. unfold IdInv, settleWith, reportProgress.
    cbn [segmentPromises uuidsDrawn].
    destruct (flat_map_upd idsOf (segmentPromises r) i old
                (Fulfilled {| originalIndex := i; chunk := None |}) Hold)
      as (l1 & l2 & H1 & H2).
    rewrite H2. cbn [idsOf chunkOf chunk map app]. rewrite H1 in Hnd, Hk.
    split.
    + eapply NoDup_app_drop; eauto.
    + intros x Hx. apply Hk. apply in_app_or in Hx as [Hx|Hx]; apply in_or_app; auto.
      right. apply in_or_app. now right.
  - unfold IdInv, settleWith, reportProgress. cbn [segmentPromises uuidsDrawn].
    apply nth_error_None in Hold. now rewrite upd_out_of_range by exact Hold.
Qed.

Lemma completeSegment_IdInv p o r i :
  (forall m n, randomUUID p m = randomUUID p n -> m = n) ->
  IdInv p r -> IdInv p (completeSegment p o r i).
Proof.
  intros Hinj Hinv. unfold completeSegment.
  destruct (nth_error (scriptSegments o) i) as [segment|]; [|exact Hinv].
  destruct (nth_error (segmentPromises r) i) as [[|res|e]|] eqn:Hpend; try exact Hinv.
  destruct (segmentAudio p o i segment) as [[audioBuffer|]|error].
  - destruct Hinv as [Hnd Hk]. unfold IdInv, settleWith, drawUUID, reportProgress.
    cbn [segmentPromises uuidsDrawn].
    match goal with
    | |- context [upd i ?new _] =>
        destruct (flat_map_upd idsOf (segmentPromises r) i Pending new Hpend)
          as (l1 & l2 & H1 & H2)
    end.
    rewrite H2. cbn [idsOf chunkOf chunk map GeneratedAudioChunk.id app] in *.
    rewrite H1 in Hnd, Hk. split.
    + apply (NoDup_Add (Add_app _ l1 l2)). split; [exact Hnd|].
      intros Hin. destruct (Hk _ Hin) as (k & Hlt & Heq).
      apply Hinj in Heq. lia.
    + intros x Hx. apply in_app_or in Hx as [Hx|[<-|Hx]].
      * destruct (Hk x) as (k & Hlt & Heq); [apply in_or_app; now left|].
        exists k. split; [lia|exact Heq].
      * exists (uuidsDrawn r). split; [lia|reflexivity].
      * destruct (Hk x) as (k & Hlt & Heq); [apply in_or_app; now right|].
        exists k. split; [lia|exact Heq].
  - eapply IdInv_settle_empty; eauto.
  - eapply IdInv_settle_empty; eauto.
Qed.

Lemma run_IdInv p o completions :
  (forall m n, randomUUID p m = randomUUID p n -> m = n) ->
  IdInv p (fold_left (completeSegment p o) completions
             (issueAll o (reportProgress o 0 (initialRun o)))).
Proof.
  intros Hinj.
  apply fold_left_preserves; [|intros i r; now apply completeSegment_IdInv].
  unfold issueAll.
  apply fold_left_preserves; [|intros e r; apply startSegment_IdInv].
  unfold IdInv, reportProgress, initialRun. cbn [segmentPromises uuidsDrawn].
  assert (H : flat_map idsOf (repeat (@Pending SegmentResult)
                                     (List.length (scriptSegments o))) = []).
  { induction (List.length (scriptSegments o)); cbn; auto. }
  rewrite H. split; [constructor|contradiction].
Qed.

(** A run that resolves: what it returns, read from its promises. *)
Lemma fulfilled_chunks p o completions chunks run :
  generateSpeech p o completions = (Fulfilled chunks, run) ->
  run = fold_left (completeSegment p o) completions
          (issueAll o (reportProgress o 0 (initialRun o)))
  /\ exists results,
       segmentPromises run = map Fulfilled results
       /\ chunks = flat_map chunkOf results.
Proof.
  unfold generateSpeech.
  destruct (getGenAI p) as [[]|e]; [|discriminate].
  destruct (validateSpeakers o) as [[]|e]; [|discriminate].
  pose proof (completions_inv p o completions _ (issueAll_inv p o)) as Hinv.
  set (r := fold_left (completeSegment p o) completions _) in *.
  destruct (allRejected r) as [e|]; [discriminate|].
  destruct (allValues (segmentPromises r)) as [results|] eqn:Hres; [|discriminate].
  intros H. inversion H; subst. clear H. split; [reflexivity|].
  pose proof (allValues_map _ _ Hres) as Hmap.
  exists results. split; [exact Hmap|].
  assert (HF : Forall2 (fun e res =>
                  promiseOk p o (List.length (scriptSegments o)) (fst e) (snd e)
                            (Fulfilled res))
                 (indexed (scriptSegments o)) results).
  { apply Forall2_pointwise.
    - rewrite indexed_length, <- (inv_length _ _ _ _ Hinv), Hmap. now rewrite length_map.
    - intros i [j segment] res Hi Hres'. rewrite nth_error_indexed in Hi.
      destruct (nth_error (scriptSegments o) i) as [s|] eqn:Hseg; cbn in Hi; [|discriminate].
      inversion Hi; subst. cbn [fst snd].
      apply (inv_promises _ _ _ _ Hinv j segment); [exact Hseg|].
      rewrite Hmap. now apply map_nth_error. }
  destruct (results_contents p o _ _ _ HF) as [Htags _].
  assert (Hsorted : StronglySorted lt (map originalIndex results)).
  { rewrite Htags. unfold indexed. rewrite map_fst_indexed_from. apply StronglySorted_seq. }
  now destruct (orderedChunks_sorted results Hsorted) as [_ Hchunks].
Qed.

Lemma countingUUID_injective m n : countingUUID m = countingUUID n -> m = n.
Proof.
  unfold countingUUID. intros H.
  assert (E : String.length (string_of_list_ascii (repeat "a"%char m))
              = String.length (string_of_list_ascii (repeat "a"%char n))) by now rewrite H.
  now rewrite !length_string_of_list_ascii, !repeat_length in E.
Qed.

Lemma NoDup_map_injective {A B} (f : A -> B) l :
  (forall x y, f x = f y -> x = y) -> NoDup l -> NoDup (map f l).
Proof.
  intros Hinj. induction 1 as [|x l Hx _ IH]; cbn; constructor; auto.
  intros Hin. apply in_map_iff in Hin as (y & Hy & Hin). apply Hinj in Hy. now subst.
Qed.

Lemma idsOf_fulfilled results :
  flat_map idsOf (map Fulfilled results)
  = map GeneratedAudioChunk.id (flat_map chunkOf results).
Proof.
  induction results as [|res results IH]; [reflexivity|].
  cbn [map flat_map idsOf]. now rewrite map_app, IH.
Qed.

(** X16.  Chunk identifiers are distinct.  Provided [crypto.randomUUID]
    never hands out the same identifier twice, the chunks either variant of
    [generateSpeech] returns carry pairwise distinct identifiers, whatever
    the order in which the calls completed. *)
Theorem chunk_ids_distinct p o :
  (forall m n, randomUUID p m = randomUUID p n -> m = n) ->
  (forall completions chunks run,
     generateSpeech p o completions = (Fulfilled chunks, run) ->
     NoDup (map GeneratedAudioChunk.id chunks))
  /\ (forall chunks calls,
        generateSpeechSequential p o = (ret chunks, calls) ->
        NoDup (map GeneratedAudioChunk.id chunks)).
Proof.
  intros Hinj. split.
  - intros completions chunks run Hrun.
    destruct (fulfilled_chunks p o completions chunks run Hrun)
      as (Hr & results & Hmap & Hchunks).
    destruct (run_IdInv p o completions Hinj) as [Hnd _].
    rewrite <- Hr, Hmap, idsOf_fulfilled in Hnd. now subst chunks.
  - intros chunks calls Hrun. unfold generateSpeechSequential in Hrun.
    destruct (getGenAI p) as [[]|e]; [|discriminate].
    destruct (validateSpeakers o) as [[]|e]; [|discriminate].
    destruct (existsb (fails p o) (indexed (scriptSegments o))) eqn:Hf.
    + match type of Hrun with
      | generateSpeechLoop _ _ _ ?c ?k = _ =>
          destruct (generateSpeechLoop_fails p o _ c k Hf) as (e & calls' & He & _)
      end.
      rewrite He in Hrun. discriminate.
    + match type of Hrun with
      | generateSpeechLoop _ _ _ ?c ?k = _ =>
          destruct (generateSpeechLoop_ok p o _ c k Hf) as (cs & Hok & _ & Hids)
      end.
      rewrite Hok in Hrun. inversion Hrun; subst. cbn [app List.length Nat.add] in *.
      rewrite Hids. apply NoDup_map_injective; [exact Hinj|apply seq_NoDup].
Qed.

Lemma chunk_ids_distinct_witness :
  (forall completions chunks run,
     generateSpeech countingPlatform fiveOptions completions = (Fulfilled chunks, run) ->
     NoDup (map GeneratedAudioChunk.id chunks))
  /\ (forall chunks calls,
        generateSpeechSequential countingPlatform fiveOptions = (ret chunks, calls) ->
        NoDup (map GeneratedAudioChunk.id chunks)).
Proof.
  apply (chunk_ids_distinct countingPlatform fiveOptions).
  exact countingUUID_injective.
Defined.

(** ** What the concurrent variant waits for *)

Lemma startSegment_other o r j segment i :
  i <> j ->
  nth_error (segmentPromises (startSegment o r (j, segment))) i
  = nth_error (segmentPromises r) i.
Proof.
  intros Hne. unfold startSegment.
  destruct (String.eqb (trim segment) ""); [|reflexivity].
  cbn [settleWith reportProgress segmentPromises]. now apply nth_error_upd_neq.
Qed.

(** A call in flight leaves its promise pending when the calls are issued. *)
Lemma issueAll_pending o i segment :
  nth_error (scriptSegments o) i = Some segment ->
  blank segment = false ->
  nth_error (segmentPromises (issueAll o (reportProgress o 0 (initialRun o)))) i
  = Some Pending.
Proof.
  intros Hseg Hb. unfold issueAll.
  assert (Hi : (i < List.length (scriptSegments o))%nat)
    by (apply nth_error_Some; congruence).
  apply (fold_left_positions (startSegment o)
           (fun _ r => nth_error (segmentPromises r) i = Some Pending)).
  - cbn [reportProgress initialRun segmentPromises]. now apply nth_error_repeat.
  - intros k [j s] r Hk Hp. rewrite nth_error_indexed in Hk.
    destruct (nth_error (scriptSegments o) k) as [s'|] eqn:E; cbn in Hk; [|discriminate].
    inversion Hk; subst.
    destruct (Nat.eq_dec i j) as [->|Hne].
    + rewrite Hseg in E. inversion E; subst.
      unfold startSegment. unfold blank in Hb. now rewrite Hb.
    + now rewrite startSegment_other.
Qed.

Lemma completeSegment_other p o r j i :
  i <> j ->
  nth_error (segmentPromises (completeSegment p o r j)) i
  = nth_error (segmentPromises r) i.
Proof.
  intros Hne. unfold completeSegment.
  destruct (nth_error (scriptSegments o) j) as [segment|]; [|reflexivity].
  destruct (nth_error (segmentPromises r) j) as [[|res|e]|]; try reflexivity.
  destruct (segmentAudio p o j segment) as [[audioBuffer|]|error];
    cbn [settleWith segmentPromises reportProgress drawUUID];
    now apply nth_error_upd_neq.
Qed.

Lemma completions_other p o completions i : forall r,
  ~ In i completions ->
  nth_error (segmentPromises (fold_left (completeSegment p o) completions r)) i
  = nth_error (segmentPromises r) i.
Proof.
  induction completions as [|j l IH]; intros r Hnin; [reflexivity|].
  cbn [fold_left]. rewrite IH by (intros H; apply Hnin; now right).
  apply completeSegment_other. intros ->. apply Hnin. now left.
Qed.

(** A run is rejected only with the error of a call that has completed. *)
Lemma completions_rejected p o completions : forall r e,
  allRejected r = None ->
  allRejected (fold_left (completeSegment p o) completions r) = Some e ->
  exists i segment,
    In i completions
    /\ nth_error (scriptSegments o) i = Some segment
    /\ segmentAudio p o i segment = inr e.
Proof.
  induction completions as [|j l IH]; intros r e Hnone Hsome.
  - cbn in Hsome. congruence.
  - cbn [fold_left] in Hsome.
    destruct (allRejected (completeSegment p o r j)) as [e'|] eqn:Hstep.
    + assert (He : e' = e).
      { clear IH. revert Hsome. generalize (completeSegment p o r j) Hstep.
        induction l as [|k l IHl]; intros r' Hr' Hs; cbn [fold_left] in Hs.
        - congruence.
        - apply (IHl (completeSegment p o r' k)); [|exact Hs].
          unfold completeSegment.
          destruct (nth_error (scriptSegments o) k) as [segment|]; [|exact Hr'].
          destruct (nth_error (segmentPromises r') k) as [[|res|e0]|]; try exact Hr'.
          destruct (segmentAudio p o k segment) as [[audioBuffer|]|error];
            cbn [settleWith allRejected reportProgress drawUUID]; now rewrite Hr'. }
      subst e'. unfold completeSegment in Hstep.
      destruct (nth_error (scriptSegments o) j) as [segment|] eqn:Hseg; [|congruence].
      destruct (nth_error (segmentPromises r) j) as [[|res|e0]|]; try congruence.
      destruct (segmentAudio p o j segment) as [[audioBuffer|]|error] eqn:Ha;
        cbn [settleWith allRejected reportProgress drawUUID] in Hstep;
        rewrite Hnone in Hstep; try discriminate.
      inversion Hstep; subst. exists j, segment. split; [now left|]. split; assumption.
    + destruct (IH _ e Hstep Hsome) as (i & segment & Hin & Hrest).
      exists i, segment. split; [now right|exact Hrest].
Qed.

Lemma issueAll_not_rejected o :
  allRejected (issueAll o (reportProgress o 0 (initialRun o))) = None.
Proof.
  unfold issueAll. apply fold_left_preserves; [reflexivity|].
  intros [i segment] r Hr. unfold startSegment.
  destruct (String.eqb (trim segment) ""); [|exact Hr].
  cbn [settleWith allRejected reportProgress]. now rewrite Hr.
Qed.

(** X17.  The concurrent variant settles on the calls that have completed
    only.  It resolves with chunks only once every call in flight has
    completed (a call still in flight keeps the returned promise from
    resolving), and when it rejects after the key and the speakers were
    accepted, the error is that of a call that has completed. *)
Theorem generateSpeech_settles_on_completed p o completions :
  (forall chunks run,
     generateSpeech p o completions = (Fulfilled chunks, run) ->
     incl (inFlight o) completions)
  /\ (forall e run,
        getGenAI p = ret tt -> validateSpeakers o = ret tt ->
        generateSpeech p o completions = (Rejected e, run) ->
        exists i segment,
          In i completions
          /\ nth_error (scriptSegments o) i = Some segment
          /\ segmentAudio p o i segment = inr e).
Proof.
  split.
  - intros chunks run Hrun i Hi.
    destruct (fulfilled_chunks p o completions chunks run Hrun)
      as (Hr & results & Hmap & _).
    destruct (in_dec Nat.eq_dec i completions) as [Hin|Hnin]; [exact Hin|exfalso].
    unfold inFlight in Hi. apply in_map_iff in Hi as ([j segment] & Hj & Hin).
    cbn [fst] in Hj. subst j.
    apply filter_In in Hin as [Hin Hb]. apply In_indexed in Hin.
    cbn [snd] in Hb. apply negb_true_iff in Hb.
    pose proof (completions_other p o completions i
                  (issueAll o (reportProgress o 0 (initialRun o))) Hnin) as Hkeep.
    rewrite (issueAll_pending o i segment Hin Hb), <- Hr, Hmap in Hkeep.
    rewrite nth_error_map in Hkeep.
    destruct (nth_error results i); discriminate.
  - intros e run Hkey Hval Hrun. unfold generateSpeech in Hrun.
    rewrite Hkey, Hval in Hrun. unfold ret in Hrun.
    set (r := fold_left (completeSegment p o) completions _) in *.
    destruct (allRejected r) as [e'|] eqn:Hrej.
    + inversion Hrun; subst.
      exact (completions_rejected p o completions _ e (issueAll_not_rejected o) Hrej).
    + destruct (allValues (segmentPromises r)); discriminate.
Qed.

Lemma generateSpeech_settles_on_completed_witness :
  incl (inFlight fiveOptions) fiveCompletions.
Proof.
  eapply (proj1 (generateSpeech_settles_on_completed fivePlatform fiveOptions
                   fiveCompletions)).
  vm_compute. reflexivity.
Defined.

(** ** Starting and stopping a live session *)

Ltac split_all := repeat match goal with |- _ /\ _ => split end.

(** [start] replaces the session.  When the key is accepted, the
    microphone is granted and the connection is made, [start] first
    releases whatever the manager still held (tracks stopped, node
    disconnected, connection asked to close, each once), then holds exactly
    the new stream, node and session, with both accumulators empty and an
    empty history; it invokes no callback, and its promise resolves. *)
Theorem start_replaces_session {E} (p : Platform) (sp : StartPlatform)
    (cbs : Callbacks E) (w : World E) stream session :
  getGenAI p = ret tt ->
  getUserMedia sp = ret stream ->
  connect sp = ret session ->
  fst (start p sp cbs w) = ret tt
  /\ live (snd (start p sp cbs w))
     = {| sessionPromise := Some session;
          mediaStream := Some stream;
          scriptProcessorNode := Some (createScriptProcessor sp);
          currentInputTranscription := "";
          currentOutputTranscription := "";
          accumulatedTurns := [] |}
  /\ effects (snd (start p sp cbs w)) = effects w ++ releases (live w)
  /\ consumer (snd (start p sp cbs w)) = consumer w.
Proof.
  intros Hkey Hmedia Hconnect. unfold start. rewrite Hkey, Hmedia, Hconnect.
  unfold ret. cbn [fst snd].
  destruct (stop_releases w) as (H1 & H2 & H3 & H4 & H5 & _).
  split_all.
  - reflexivity.
  - cbn. reflexivity.
  - cbn. exact H4.
  - cbn. exact H5.
Qed.

Lemma start_replaces_session_witness :
  live (snd (start fivePlatform grantingPlatform recordingCallbacks recordingWorld))
  = {| sessionPromise := Some 13%nat;
       mediaStream := Some 11%nat;
       scriptProcessorNode := Some 12%nat;
       currentInputTranscription := "";
       currentOutputTranscription := "";
       accumulatedTurns := [] |}
  /\ effects (snd (start fivePlatform grantingPlatform recordingCallbacks recordingWorld))
     = [TracksStopped 1; NodeDisconnected 2; CloseRequested 3].
Proof.
  destruct (start_replaces_session fivePlatform grantingPlatform recordingCallbacks
              recordingWorld 11%nat 13%nat eq_refl eq_refl eq_refl)
    as (_ & H1 & H2 & _).
  split; [exact H1|exact H2].
Defined.

Ltac destruct_world w :=
  let session := fresh "session0" in
  let stream := fresh "stream0" in
  let node := fresh "node0" in
  destruct w as [[session stream node ? ? ?] ? ? ?];
  destruct stream, node, session.

(** X18.  A failed [start] holds nothing.  With the panel's callbacks,
    when the microphone is refused, or when it is granted and the
    connection then throws, the error reaches the panel ([liveError] is
    set, the live state is left), whatever had been acquired is released
    again (the tracks of the new stream stopped, the new node
    disconnected), the manager holds no handle afterwards, and the promise
    of [start] resolves all the same. *)
Theorem start_failure_releases (p : Platform) (sp : StartPlatform)
    (closureLive : bool) (currentTime : Q) (w : World Panel) (error : Error) :
  getGenAI p = ret tt ->
  getUserMedia sp = throw error
  \/ (exists stream, getUserMedia sp = ret stream) /\ connect sp = throw error ->
  fst (start p sp (panelCallbacks closureLive currentTime) w) = ret tt
  /\ handlesOf (live (snd (start p sp (panelCallbacks closureLive currentTime) w)))
     = (None, None, None)
  /\ liveError (consumer (snd (start p sp (panelCallbacks closureLive currentTime) w)))
     = Some error
  /\ isLiveActive (consumer (snd (start p sp (panelCallbacks closureLive currentTime) w)))
     = false
  /\ effects (snd (start p sp (panelCallbacks closureLive currentTime) w))
     = effects w ++ releases (live w)
       ++ match getUserMedia sp with
          | inl stream => [TracksStopped stream; NodeDisconnected (createScriptProcessor sp)]
          | inr _ => []
          end.
Proof.
  intros Hkey Hfail. unfold start. rewrite Hkey.
  destruct Hfail as [Hmedia|[[stream Hmedia] Hconnect]].
  - rewrite Hmedia. unfold throw, ret.
    destruct_world w; cbn; rewrite <- ?app_assoc, ?app_nil_r; split_all; reflexivity.
  - rewrite Hmedia, Hconnect. unfold throw, ret.
    destruct_world w; cbn; rewrite <- ?app_assoc, ?app_nil_r; split_all; reflexivity.
Qed.

Lemma start_failure_releases_witness :
  handlesOf (live (snd (start fivePlatform refusingPlatform (panelCallbacks true 0)
                          (panelWorld "" ""))))
  = (None, None, None)
  /\ effects (snd (start fivePlatform refusingPlatform (panelCallbacks true 0)
                     (panelWorld "" "")))
     = [TracksStopped 1; NodeDisconnected 2; CloseRequested 3;
        TracksStopped 11; NodeDisconnected 12].
Proof.
  destruct (start_failure_releases fivePlatform refusingPlatform true 0 (panelWorld "" "")
              (ApiError "connect") eq_refl
              (or_intror (conj (ex_intro _ 11%nat eq_refl) eq_refl)))
    as (_ & H1 & _ & _ & H2).
  split; [exact H1|exact H2].
Defined.

(** X19.  How [startLiveSession] leaves the panel.  On success the panel
    is live, not connecting and without error, and the manager holds the
    new handles.  Without a usable API key the key error is shown and the
    panel is not live.  When the microphone is refused the error is shown
    and the manager holds nothing, yet the panel is marked live: the
    manager has handled the error itself, its promise resolves, and
    [setIsLiveActive(true)] runs after the error handler has cleared the
    flag. *)
Theorem startLiveSession_outcomes (p : Platform) (sp : StartPlatform)
    (closureLive : bool) (currentTime : Q) (w : World Panel) :
  (forall stream session,
     getGenAI p = ret tt -> getUserMedia sp = ret stream -> connect sp = ret session ->
     isLiveActive (consumer (startLiveSession p sp closureLive currentTime w)) = true
     /\ isConnecting (consumer (startLiveSession p sp closureLive currentTime w)) = false
     /\ liveError (consumer (startLiveSession p sp closureLive currentTime w)) = None
     /\ handlesOf (live (startLiveSession p sp closureLive currentTime w))
        = (Some stream, Some (createScriptProcessor sp), Some session))
  /\ (hasApiKey p = false ->
      isLiveActive (consumer (startLiveSession p sp closureLive currentTime w)) = false
      /\ isConnecting (consumer (startLiveSession p sp closureLive currentTime w)) = false
      /\ liveError (consumer (startLiveSession p sp closureLive currentTime w))
         = Some ApiKeyError
      /\ handlesOf (live (startLiveSession p sp closureLive currentTime w))
         = (None, None, None))
  /\ (forall error,
      getGenAI p = ret tt -> getUserMedia sp = throw error ->
      isLiveActive (consumer (startLiveSession p sp closureLive currentTime w)) = true
      /\ isConnecting (consumer (startLiveSession p sp closureLive currentTime w)) = false
      /\ liveError (consumer (startLiveSession p sp closureLive currentTime w))
         = Some error
      /\ handlesOf (live (startLiveSession p sp closureLive currentTime w))
         = (None, None, None)).
Proof.
  split; [|split].
  - intros stream session Hkey Hmedia Hconnect.
    unfold startLiveSession, start. rewrite Hkey, Hmedia, Hconnect. unfold ret.
    destruct_world w; cbn; split_all; reflexivity.
  - intros Hkey. unfold startLiveSession, start.
    rewrite getGenAI_hasApiKey, Hkey. unfold throw.
    destruct_world w; cbn; split_all; reflexivity.
  - intros error Hkey Hmedia.
    unfold startLiveSession, start. rewrite Hkey, Hmedia. unfold ret, throw.
    destruct_world w; cbn; split_all; reflexivity.
Qed.

Lemma startLiveSession_outcomes_witness :
  isLiveActive (consumer (startLiveSession fivePlatform denyingPlatform false 0
                            (panelWorld "" ""))) = true
  /\ liveError (consumer (startLiveSession fivePlatform denyingPlatform false 0
                            (panelWorld "" ""))) = Some (ApiError "NotAllowedError")
  /\ handlesOf (live (startLiveSession fivePlatform denyingPlatform false 0
                        (panelWorld "" ""))) = (None, None, None).
Proof.
  destruct (proj2 (proj2 (startLiveSession_outcomes fivePlatform denyingPlatform false 0
                            (panelWorld "" "")))
              (ApiError "NotAllowedError") eq_refl eq_refl) as (H1 & _ & H2 & H3).
  split; [exact H1|]. split; [exact H2|exact H3].
Defined.

(** X20.  Stopping undoes starting.  After a successful [startLiveSession],
    [stopLiveSession] stops the tracks of the stream, disconnects the node
    and asks the connection to close, each exactly once and in this order,
    leaves the manager without any handle and with an empty history, and
    leaves the panel not live, without error and with an empty queue. *)
Theorem stopLiveSession_after_start (p : Platform) (sp : StartPlatform)
    (closureLive : bool) (currentTime : Q) (w : World Panel) stream session :
  getGenAI p = ret tt ->
  getUserMedia sp = ret stream ->
  connect sp = ret session ->
  live (stopLiveSession (startLiveSession p sp closureLive currentTime w)) = idleSession
  /\ effects (stopLiveSession (startLiveSession p sp closureLive currentTime w))
     = effects w ++ releases (live w)
       ++ [TracksStopped stream; NodeDisconnected (createScriptProcessor sp);
           CloseRequested session]
  /\ isLiveActive (consumer (stopLiveSession
                               (startLiveSession p sp closureLive currentTime w))) = false
  /\ liveError (consumer (stopLiveSession
                            (startLiveSession p sp closureLive currentTime w))) = None
  /\ audioQueue (playback (consumer (stopLiveSession
                                       (startLiveSession p sp closureLive currentTime w))))
     = [].
Proof.
  intros Hkey Hmedia Hconnect.
  unfold stopLiveSession, startLiveSession, start. rewrite Hkey, Hmedia, Hconnect.
  unfold ret.
  destruct_world w; cbn; rewrite <- ?app_assoc, ?app_nil_r; split_all; reflexivity.
Qed.

Lemma stopLiveSession_after_start_witness :
  live (stopLiveSession (startLiveSession fivePlatform grantingPlatform true 0
                           (panelWorld "" ""))) = idleSession
  /\ effects (stopLiveSession (startLiveSession fivePlatform grantingPlatform true 0
                                 (panelWorld "" "")))
     = [TracksStopped 1; NodeDisconnected 2; CloseRequested 3;
        TracksStopped 11; NodeDisconnected 12; CloseRequested 13].
Proof.
  destruct (stopLiveSession_after_start fivePlatform grantingPlatform true 0
              (panelWorld "" "") 11%nat 13%nat eq_refl eq_refl eq_refl)
    as (H1 & H2 & _).
  split; [exact H1|exact H2].
Defined.

(** ** Inbound messages, as the panel sees them *)

Lemma append_empty_r (s : string) : (s ++ "")%string = s.
Proof. induction s as [|c s IH]; cbn; [reflexivity|]. now rewrite IH. Qed.

(** X21.  The panel mirrors the manager.  With the panel's callbacks, a
    message whose audio (if any) decodes leaves the panel showing exactly
    the manager's two accumulators, provided it did before; it touches no
    handle and causes no effect; the history only grows; without
    [turnComplete] each accumulator is its former value followed by the
    message's delta, and with it the transcript handed to the application
    is the manager's history. *)
Theorem panel_mirrors_manager (audioContext : AudioContext) (randomUUID : nat -> string)
    (closureLive : bool) (currentTime : Q) (message : LiveServerMessage)
    (w : World Panel) :
  audioDecodes audioContext message = true ->
  synced w ->
  synced (onmessage audioContext randomUUID (panelCallbacks closureLive currentTime)
            message w)
  /\ handlesOf (live (onmessage audioContext randomUUID
                        (panelCallbacks closureLive currentTime) message w))
     = handlesOf (live w)
  /\ effects (onmessage audioContext randomUUID (panelCallbacks closureLive currentTime)
                message w)
     = effects w
  /\ (exists records,
        accumulatedTurns (live (onmessage audioContext randomUUID
                                  (panelCallbacks closureLive currentTime) message w))
        = accumulatedTurns (live w) ++ records)
  /\ (turnComplete message = false ->
      currentInputTranscription
        (live (onmessage audioContext randomUUID (panelCallbacks closureLive currentTime)
                 message w))
      = (currentInputTranscription (live w) ++ deltaOf (inputTranscription message))%string
      /\ currentOutputTranscription
           (live (onmessage audioContext randomUUID
                    (panelCallbacks closureLive currentTime) message w))
         = (currentOutputTranscription (live w)
            ++ deltaOf (outputTranscription message))%string)
  /\ (turnComplete message = true ->
      transcript (consumer (onmessage audioContext randomUUID
                              (panelCallbacks closureLive currentTime) message w))
      = accumulatedTurns (live (onmessage audioContext randomUUID
                                  (panelCallbacks closureLive currentTime) message w))).
Proof.
  intros Haudio [Hin Hout].
  destruct message as [dout din complete audio].
  destruct w as [[session stream node input output turns] eff ids c].
  cbn [live consumer currentInputTranscription currentOutputTranscription] in Hin, Hout.
  unfold onmessage, onmessage_audio, audioDecodes in *.
  cbn [inlineAudio turnComplete outputTranscription inputTranscription] in *.
  assert (Hblock :
    forall w0 : World Panel,
      match audio with
      | Some base64 =>
          if String.eqb base64 "" then w0
          else match (bytes <- decode base64 ;;
                      decodeAudioData bytes audioContext DEFAULT_SAMPLE_RATE 1) with
               | inl audioBuffer =>
                   onAudioChunk (panelCallbacks closureLive currentTime) audioBuffer w0
               | inr audioDecodeError =>
                   onError (panelCallbacks closureLive currentTime) audioDecodeError w0
               end
      | None => w0
      end
      = withConsumer (fun c0 =>
          {| isLiveActive := isLiveActive c0; isConnecting := isConnecting c0;
             liveError := liveError c0;
             currentInputText := currentInputText c0;
             currentOutputText := currentOutputText c0;
             transcript := transcript c0;
             playback :=
               match audio with
               | Some base64 =>
                   if String.eqb base64 "" then playback c0
                   else match decodeInlineAudio audioContext base64 with
                        | inl audioBuffer =>
                            handleLiveAudioChunk closureLive audioBuffer currentTime
                                                 (playback c0)
                        | inr _ => playback c0
                        end
               | None => playback c0
               end |}) w0).
  { intros [l0 e0 i0 [a0 b0 c0 d0 f0 g0 h0]]. unfold withConsumer. cbn [live effects turnIds consumer].
    destruct audio as [base64|]; [|reflexivity].
    destruct (String.eqb base64 ""); [reflexivity|].
    cbn [orb] in Haudio. unfold decodeInlineAudio in *.
    destruct (bytes <- decode base64 ;; decodeAudioData bytes audioContext DEFAULT_SAMPLE_RATE 1);
      [reflexivity|discriminate]. }
  rewrite !Hblock. clear Hblock Haudio.
  unfold synced, onmessage_transcripts, onmessage_turnComplete, handlesOf.
  cbn [outputTranscription inputTranscription].
  destruct dout as [dout|], din as [din|], complete;
    cbn -[String.eqb append];
    unfold deltaOf; rewrite ?append_empty_r;
    repeat match goal with
           | |- context [String.eqb ?s ""] => destruct (String.eqb s "")
           end;
    cbn -[append];
    split_all; try reflexivity; try assumption; try discriminate;
    try (intros _; split; reflexivity);
    try (eexists; reflexivity);
    try (eexists; rewrite <- app_assoc; reflexivity);
    try (exists []; now rewrite app_nil_r).
Qed.

Lemma panel_mirrors_manager_witness :
  synced (onmessage sampleContext turnUUID (panelCallbacks true 0) deltaMessage
            (panelWorld "" ""))
  /\ currentOutputText
       (consumer (onmessage sampleContext turnUUID (panelCallbacks true 0) deltaMessage
                    (panelWorld "" "")))
     = "Hi"%string.
Proof.
  destruct (panel_mirrors_manager sampleContext turnUUID true 0 deltaMessage
              (panelWorld "" "") eq_refl (conj eq_refl eq_refl)) as (H1 & _).
  split; [exact H1|reflexivity].
Defined.

(** X22.  The end of the connection releases everything once.  With the
    panel's callbacks, the connection's [onerror] runs [stop] twice (once
    in the panel's error handler, once in the manager) and [onclose] once;
    in either case each handle held is released exactly once and the
    manager holds none afterwards, and a close event that follows an error
    releases nothing again. *)
Theorem connection_end_releases_once (closureLive : bool) (currentTime : Q)
    (e : Error) (w : World Panel) :
  effects (onerror (panelCallbacks closureLive currentTime) e w)
  = effects w ++ releases (live w)
  /\ live (onerror (panelCallbacks closureLive currentTime) e w) = idleSession
  /\ liveError (consumer (onerror (panelCallbacks closureLive currentTime) e w)) = Some e
  /\ effects (onclose (panelCallbacks closureLive currentTime) w)
     = effects w ++ releases (live w)
  /\ live (onclose (panelCallbacks closureLive currentTime) w) = idleSession
  /\ isLiveActive (consumer (onclose (panelCallbacks closureLive currentTime) w)) = false
  /\ effects (onclose (panelCallbacks closureLive currentTime)
                (onerror (panelCallbacks closureLive currentTime) e w))
     = effects w ++ releases (live w).
Proof.
  unfold onerror, onclose. cbn [panelCallbacks onError onClose].
  unfold handleLiveError, handleLiveClose.
  destruct_world w; cbn; rewrite <- ?app_assoc, ?app_nil_r; split_all; reflexivity.
Qed.

(** ** The playback queue over a run of events *)

Lemma spaced_app prevEnd l1 l2 :
  spaced prevEnd l1 -> spaced (finalEnd prevEnd l1) l2 -> spaced prevEnd (l1 ++ l2).
Proof.
  revert prevEnd. induction l1 as [|s l1 IH]; intros prevEnd H1 H2; [exact H2|].
  cbn [spaced app] in *. destruct H1 as [Hs H1]. split; [exact Hs|].
  apply IH; [exact H1|exact H2].
Qed.

Lemma finalEnd_app prevEnd l1 l2 :
  finalEnd prevEnd (l1 ++ l2) = finalEnd (finalEnd prevEnd l1) l2.
Proof. unfold finalEnd. apply fold_left_app. Qed.

(** One event: what is appended to the trace, to the queue and to the
    cursor. *)
Lemma playbackStep_run live st e :
  exists added,
    started (playbackStep live st e) = started st ++ added
    /\ spaced (nextStartTime st) added
    /\ nextStartTime (playbackStep live st e) = finalEnd (nextStartTime st) added
    /\ map buffer added ++ audioQueue (playbackStep live st e)
       = audioQueue st ++ arrivals [e]
    /\ (live = false -> added = []).
Proof.
  assert (Hplay : forall t q n nodes s,
            let st0 := {| audioQueue := q; nextStartTime := n;
                          audioSourceNodes := nodes; started := s |} in
            exists added,
              started (playQueuedAudio live t st0) = s ++ added
              /\ spaced n added
              /\ nextStartTime (playQueuedAudio live t st0) = finalEnd n added
              /\ map buffer added ++ audioQueue (playQueuedAudio live t st0) = q
              /\ (live = false -> added = [])).
  { intros t q n nodes s. cbn zeta. unfold playQueuedAudio. cbn [audioQueue].
    destruct q as [|b rest].
    - exists []. cbn. rewrite app_nil_r. split_all; auto.
    - destruct live; cbn [negb].
      + eexists [_]. cbn [started nextStartTime audioQueue map buffer app spaced finalEnd
                          fold_left endOf when].
        split_all; try reflexivity; try exact I.
        * apply Math_max_l.
        * discriminate.
      + exists []. cbn. rewrite app_nil_r. split_all; auto. }
  destruct e as [b t|src t]; cbn [playbackStep arrivals flat_map app].
  - unfold handleLiveAudioChunk. cbn [audioSourceNodes nextStartTime audioQueue started].
    destruct ((List.length (audioSourceNodes st) =? 0)%nat
              || Qle_bool (nextStartTime st) t).
    + apply Hplay.
    + exists []. cbn. rewrite app_nil_r. split_all; auto.
  - unfold onended. cbn [audioSourceNodes nextStartTime audioQueue started].
    rewrite app_nil_r.
    destruct (0 <? List.length (audioQueue st))%nat.
    + apply Hplay.
    + exists []. cbn. rewrite app_nil_r. split_all; auto.
Qed.

Lemma playbackRun_run live events : forall st,
  exists added,
    started (playbackRun live events st) = started st ++ added
    /\ spaced (nextStartTime st) added
    /\ nextStartTime (playbackRun live events st) = finalEnd (nextStartTime st) added
    /\ map buffer added ++ audioQueue (playbackRun live events st)
       = audioQueue st ++ arrivals events
    /\ (live = false -> added = []).
Proof.
  induction events as [|e events IH]; intros st.
  - exists []. cbn. rewrite !app_nil_r. split_all; auto.
  - cbn [playbackRun fold_left]. fold (playbackRun live events (playbackStep live st e)).
    destruct (playbackStep_run live st e) as (a1 & S1 & P1 & C1 & Q1 & L1).
    destruct (IH (playbackStep live st e)) as (a2 & S2 & P2 & C2 & Q2 & L2).
    exists (a1 ++ a2). split_all.
    + now rewrite S2, S1, app_assoc.
    + apply spaced_app; [exact P1|]. now rewrite <- C1.
    + now rewrite C2, C1, finalEnd_app.
    + rewrite map_app, <- app_assoc, Q2, app_assoc, Q1, <- app_assoc.
      change (e :: events) with ([e] ++ events). unfold arrivals.
      now rewrite flat_map_app.
    + intros Hl. now rewrite (L1 Hl), (L2 Hl).
Qed.

(** X23.  Sources never overlap.  Over any sequence of arrivals and source
    ends, whatever the clock readings, every source the queue starts begins
    no earlier than the cursor it found, that is, no earlier than the end
    of the source started before it; and the cursor ends at the end of the
    last source started. *)
Theorem playback_never_overlaps (live : bool) (events : list PlaybackEvent)
    (st : Playback) :
  exists added,
    started (playbackRun live events st) = started st ++ added
    /\ spaced (nextStartTime st) added
    /\ nextStartTime (playbackRun live events st) = finalEnd (nextStartTime st) added.
Proof.
  destruct (playbackRun_run live events st) as (added & H1 & H2 & H3 & _).
  exists added. auto.
Qed.

(** X24.  The queue is first in, first out and loses nothing.  Over any
    sequence of events, the buffers started during the run followed by the
    buffers still queued are the buffers queued at the beginning followed
    by the arrivals, in order of arrival. *)
Theorem playback_fifo (live : bool) (events : list PlaybackEvent) (st : Playback) :
  exists added,
    started (playbackRun live events st) = started st ++ added
    /\ map buffer added ++ audioQueue (playbackRun live events st)
       = audioQueue st ++ arrivals events.
Proof.
  destruct (playbackRun_run live events st) as (added & H1 & _ & _ & H4 & _).
  exists added. auto.
Qed.

(** X25.  A scheduler whose closure holds [isLiveActive = false] never
    plays.  Over any sequence of events handled by such a closure, no
    source is started and the cursor does not move: every chunk that
    arrives stays in the queue, behind those already there. *)
Theorem inactive_closure_never_plays (events : list PlaybackEvent) (st : Playback) :
  started (playbackRun false events st) = started st
  /\ nextStartTime (playbackRun false events st) = nextStartTime st
  /\ audioQueue (playbackRun false events st) = audioQueue st ++ arrivals events.
Proof.
  destruct (playbackRun_run false events st) as (added & H1 & _ & H3 & H4 & H5).
  rewrite (H5 eq_refl) in *. cbn [map app] in H4. rewrite app_nil_r in H1.
  split; [exact H1|]. split; [exact H3|exact H4].
Qed.

Lemma playQueuedAudio_fed t st :
  audioQueue st <> [] -> fed (playQueuedAudio true t st).
Proof.
  intros Hq. unfold playQueuedAudio, fed.
  destruct (audioQueue st) as [|b rest]; [contradiction|].
  cbn [negb audioQueue audioSourceNodes]. right.
  intros H. apply app_eq_nil in H as [_ H]. discriminate.
Qed.

Lemma playbackStep_fed st e : fed st -> fed (playbackStep true st e).
Proof.
  intros Hfed. destruct e as [b t|src t]; cbn [playbackStep].
  - unfold handleLiveAudioChunk. cbn [audioSourceNodes nextStartTime].
    destruct ((List.length (audioSourceNodes st) =? 0)%nat
              || Qle_bool (nextStartTime st) t) eqn:E.
    + apply playQueuedAudio_fed. cbn [audioQueue].
      intros H. apply app_eq_nil in H as [_ H]. discriminate.
    + apply orb_false_iff in E as [E _]. apply Nat.eqb_neq in E.
      right. cbn [audioSourceNodes]. intros H. rewrite H in E. now apply E.
  - unfold onended. cbn [audioQueue].
    destruct (0 <? List.length (audioQueue st))%nat eqn:E.
    + apply playQueuedAudio_fed. cbn [audioQueue].
      apply Nat.ltb_lt in E. intros H. rewrite H in E. cbn in E. lia.
    + left. cbn [audioQueue]. apply Nat.ltb_ge in E.
      destruct (audioQueue st); [reflexivity|cbn in E; lia].
Qed.

(** X26.  No chunk is left stranded.  With a scheduler whose closure holds
    [isLiveActive = true], whenever chunks wait in the queue a source is
    still in the set of sources that have not ended, so that an [onended]
    is still to come and will start the next chunk; this holds after any
    sequence of events, from any state in which it held (the empty queue
    in particular). *)
Theorem playback_never_strands (events : list PlaybackEvent) (st : Playback) :
  fed st -> fed (playbackRun true events st).
Proof.
  revert st. induction events as [|e events IH]; intros st H; [exact H|].
  cbn [playbackRun fold_left]. apply IH. now apply playbackStep_fed.
Qed.

Lemma playback_never_strands_witness :
  fed (playbackRun true sampleEvents emptyPlayback).
Proof.
  apply (playback_never_strands sampleEvents emptyPlayback). now left.
Defined.

(** ** [mixAudioBuffers] *)

(** A loop [for (i = 0; i < n; i++) a[i] = f(i, a[i])] rewrites the first
    [n] cells, each from its former value. *)
Lemma modify_loop {A} (f : nat -> A -> A) (d : A) n : forall init,
  (n <= List.length init)%nat ->
  fold_left (fun acc i => upd i (f i (nth i acc d)) acc) (seq 0 n) init
  = map (fun i => f i (nth i init d)) (seq 0 n) ++ skipn n init.
Proof.
  induction n as [|n IH]; intros init Hn; [reflexivity|].
  rewrite seq_S, fold_left_app, IH by lia. cbn [fold_left Nat.add].
  rewrite map_app. cbn [map].
  set (done := map (fun i => f i (nth i init d)) (seq 0 n)).
  assert (Hdone : List.length done = n) by (subst done; now rewrite length_map, length_seq).
  rewrite (skipn_cons_nth n init d) by lia.
  rewrite app_nth2 by lia. rewrite Hdone, Nat.sub_diag. cbn [nth].
  rewrite <- Hdone at 1. rewrite upd_app_length, <- app_assoc. reflexivity.
Qed.

Lemma tabulate_channels rate f N L :
  AudioBuffer.numberOfChannels (tabulate rate f N L) = N.
Proof. unfold tabulate, AudioBuffer.numberOfChannels. cbn. now rewrite length_map, length_seq. Qed.

Lemma tabulate_length rate f N L :
  (1 <= N)%nat -> AudioBuffer.length (tabulate rate f N L) = L.
Proof.
  intros HN. unfold tabulate, AudioBuffer.length. cbn [AudioBuffer.channelData].
  destruct N; [lia|]. cbn [seq map hd]. now rewrite length_map, length_seq.
Qed.

Lemma nth_tabulated (f : nat -> nat -> Q) N L c :
  (c < N)%nat ->
  nth c (map (fun c0 => map (fun i => f c0 i) (seq 0 L)) (seq 0 N)) []
  = map (fun i => f c i) (seq 0 L).
Proof.
  intros Hc.
  rewrite (nth_indep _ [] (map (fun i => f 0%nat i) (seq 0 L)))
    by now rewrite length_map, length_seq.
  rewrite (map_nth (fun c => map (fun i => f c i) (seq 0 L))).
  now rewrite seq_nth by exact Hc.
Qed.

Lemma tabulate_channel rate f N L c :
  (c < N)%nat ->
  nth c (AudioBuffer.channelData (tabulate rate f N L)) [] = map (fun i => f c i) (seq 0 L).
Proof. intros Hc. unfold tabulate. cbn [AudioBuffer.channelData]. now apply nth_tabulated. Qed.

Lemma tabulate_sample rate f N L c i :
  (c < N)%nat -> (i < L)%nat -> sampleAt (tabulate rate f N L) c i = f c i.
Proof.
  intros Hc Hi. unfold sampleAt. rewrite tabulate_channel by exact Hc.
  rewrite (nth_indep _ 0%Q (f c 0%nat)) by now rewrite length_map, length_seq.
  rewrite (map_nth (fun i => f c i)). now rewrite seq_nth by exact Hi.
Qed.

Lemma tabulate_ext rate f g N L :
  (forall c i, (c < N)%nat -> (i < L)%nat -> f c i = g c i) ->
  tabulate rate f N L = tabulate rate g N L.
Proof.
  intros H. unfold tabulate. f_equal.
  apply map_ext_in. intros c Hc. apply in_seq in Hc.
  apply map_ext_in. intros i Hi. apply in_seq in Hi. apply H; lia.
Qed.

Lemma tabulate_rectangular rate f N L :
  AudioBuffer.rectangular (tabulate rate f N L) = true.
Proof.
  unfold AudioBuffer.rectangular. apply forallb_forall. intros d Hd.
  destruct N as [|N]; [contradiction|].
  rewrite tabulate_length by lia.
  unfold tabulate in Hd. cbn [AudioBuffer.channelData] in Hd.
  apply in_map_iff in Hd as (c & <- & _). rewrite length_map, length_seq.
  apply Nat.eqb_refl.
Qed.

Lemma map_const_seq {A} (x : A) s n : map (fun _ => x) (seq s n) = repeat x n.
Proof.
  revert s. induction n as [|n IH]; intros s; cbn [repeat seq map]; [reflexivity|].
  f_equal. apply IH.
Qed.

Lemma createBuffer_tabulate ctx N L rate :
  (1 <= N <= 32)%nat -> (1 <= L)%nat -> supportsSampleRate ctx rate = true ->
  createBuffer ctx N L rate = ret (tabulate rate (fun _ _ => 0%Q) N L).
Proof.
  intros HN HL Hrate. unfold createBuffer. rewrite Hrate.
  destruct (Nat.leb_spec 1 N); [|lia]. destruct (Nat.leb_spec N 32); [|lia].
  destruct (Nat.leb_spec 1 L); [|lia]. cbn [andb]. unfold tabulate. do 2 f_equal.
  now rewrite !map_const_seq.
Qed.

(** The loop over the channels, when both buffers have the channels it
    asks for. *)
Lemma two_channel_loop (g : list Q -> list Q -> list Q) (source : AudioBuffer) n :
  forall b,
  (n <= AudioBuffer.numberOfChannels b)%nat ->
  (n <= AudioBuffer.numberOfChannels source)%nat ->
  fold_left
    (fun acc channel =>
       buffer <- acc ;;
       target <- AudioBuffer.getChannelData buffer channel ;;
       data <- AudioBuffer.getChannelData source channel ;;
       ret (AudioBuffer.setChannelData buffer channel (g data target)))
    (seq 0 n) (ret b)
  = ret {| AudioBuffer.sampleRate := AudioBuffer.sampleRate b;
           AudioBuffer.channelData :=
             map (fun c => g (nth c (AudioBuffer.channelData source) [])
                             (nth c (AudioBuffer.channelData b) []))
                 (seq 0 n)
             ++ skipn n (AudioBuffer.channelData b) |}.
Proof.
  induction n as [|n IH]; intros b Hn Hs.
  - cbn. now destruct b.
  - rewrite seq_S, fold_left_app, IH by lia. cbn [fold_left Nat.add bind ret].
    unfold AudioBuffer.numberOfChannels in Hn, Hs.
    unfold AudioBuffer.getChannelData, AudioBuffer.setChannelData.
    cbn [AudioBuffer.channelData AudioBuffer.sampleRate].
    set (done := map _ (seq 0 n)).
    assert (Hdone : List.length done = n) by (subst done; now rewrite length_map, length_seq).
    rewrite (skipn_cons_nth n (AudioBuffer.channelData b) []) by lia.
    rewrite nth_error_app2 by lia. rewrite Hdone, Nat.sub_diag. cbn [nth_error bind ret].
    rewrite (nth_error_nth' (AudioBuffer.channelData source) []) by lia.
    cbn [bind ret]. f_equal. f_equal.
    rewrite <- Hdone at 1. rewrite upd_app_length.
    rewrite map_app. cbn [map]. now rewrite <- app_assoc.
Qed.

Lemma fold_left_throw {A B} (f : Result A -> B -> Result A) (l : list B) e :
  (forall x, f (throw e) x = throw e) -> fold_left f l (throw e) = throw e.
Proof.
  intros Hf. induction l as [|x l IH]; [reflexivity|]. cbn [fold_left]. now rewrite Hf.
Qed.

(** Mixing one buffer into the buffer of sums. *)
Lemma mixBuffer_tabulate fl rate f N L b :
  (1 <= N)%nat ->
  (N <= AudioBuffer.numberOfChannels b)%nat ->
  (AudioBuffer.length b <= L)%nat ->
  mixBuffer fl N b (tabulate rate f N L)
  = ret (tabulate rate
           (fun c i => if (i <? AudioBuffer.length b)%nat
                       then addInto fl (f c i) (sampleAt b c i) else f c i) N L).
Proof.
  intros HN Hb HL. unfold mixBuffer.
  rewrite (two_channel_loop (fun data target =>
             mixChannel fl data (AudioBuffer.length b) target) b N)
    by (rewrite ?tabulate_channels; lia).
  unfold tabulate. cbn [AudioBuffer.sampleRate AudioBuffer.channelData].
  rewrite skipn_all2 by (rewrite length_map, length_seq; lia). rewrite app_nil_r.
  do 2 f_equal.
  apply map_ext_in. intros c Hc. apply in_seq in Hc.
  rewrite nth_tabulated by lia.
  unfold mixChannel.
  rewrite (modify_loop (fun i old => addInto fl old
                                       (nth i (nth c (AudioBuffer.channelData b) []) 0%Q)) 0%Q)
    by (rewrite length_map, length_seq; lia).
  set (len := AudioBuffer.length b) in *.
  assert (Hsplit : seq 0 L = seq 0 len ++ seq len (L - len)).
  { rewrite <- seq_app. f_equal. lia. }
  transitivity
    (map (fun i => if (i <? len)%nat then addInto fl (f c i) (sampleAt b c i) else f c i)
         (seq 0 len ++ seq len (L - len))); [|now rewrite <- Hsplit].
  rewrite map_app. f_equal.
  - apply map_ext_in. intros i Hi. apply in_seq in Hi.
    destruct (Nat.ltb_spec i len); [|lia].
    unfold sampleAt. f_equal.
    rewrite (nth_indep _ 0%Q (f c 0%nat)) by (rewrite length_map, length_seq; lia).
    rewrite (map_nth (fun i => f c i)). now rewrite seq_nth by lia.
  - rewrite skipn_map, skipn_seq. cbn [Nat.add].
    apply map_ext_in. intros i Hi. apply in_seq in Hi.
    destruct (Nat.ltb_spec i len); [lia|reflexivity].
Qed.

Lemma mixBuffer_fails fl rate f N L b :
  (AudioBuffer.numberOfChannels b < N)%nat ->
  mixBuffer fl N b (tabulate rate f N L) = throw IndexSizeError.
Proof.
  intros Hb. unfold mixBuffer.
  set (k := AudioBuffer.numberOfChannels b) in *.
  assert (Hsplit : seq 0 N = seq 0 k ++ k :: seq (S k) (N - S k)).
  { change (k :: seq (S k) (N - S k)) with (seq k (S (N - S k))).
    rewrite <- seq_app. f_equal. lia. }
  rewrite Hsplit, fold_left_app.
  rewrite (two_channel_loop (fun data target =>
             mixChannel fl data (AudioBuffer.length b) target) b k)
    by (rewrite ?tabulate_channels; lia).
  cbn [fold_left bind ret].
  assert (Hnone : AudioBuffer.getChannelData b k = throw IndexSizeError).
  { unfold AudioBuffer.getChannelData.
    assert (H : nth_error (AudioBuffer.channelData b) k = None)
      by (apply nth_error_None; unfold AudioBuffer.numberOfChannels in k; lia).
    now rewrite H. }
  rewrite Hnone.
  match goal with
  | |- context [AudioBuffer.getChannelData
                  {| AudioBuffer.sampleRate := ?r; AudioBuffer.channelData := ?cd |} k] =>
      destruct (AudioBuffer.getChannelData
                  {| AudioBuffer.sampleRate := r; AudioBuffer.channelData := cd |} k)
        as [d|e] eqn:E
  end; cbn [bind throw].
  - apply fold_left_throw. reflexivity.
  - unfold AudioBuffer.getChannelData in E.
    match type of E with
    | match ?x with _ => _ end = _ => destruct x; [discriminate|]
    end.
    inversion E; subst. apply fold_left_throw. reflexivity.
Qed.

Lemma fold_left_ext_in {A B} (f g : A -> B -> A) (l : list B) :
  (forall a x, In x l -> f a x = g a x) ->
  forall a, fold_left f l a = fold_left g l a.
Proof.
  induction l as [|x l IH]; intros H a; [reflexivity|].
  cbn [fold_left]. rewrite H by now left. apply IH. intros b y Hy. apply H. now right.
Qed.

(** Mixing every buffer: the sums, position by position. *)
Lemma mixAll_tabulate fl rate N L buffers : forall f,
  (1 <= N)%nat ->
  (forall b, In b buffers ->
     (N <= AudioBuffer.numberOfChannels b)%nat /\ (AudioBuffer.length b <= L)%nat) ->
  fold_left (fun acc buffer => mixedBuffer <- acc ;; mixBuffer fl N buffer mixedBuffer)
            buffers (ret (tabulate rate f N L))
  = ret (tabulate rate
           (fun c i =>
              fold_left
                (fun acc b => if (i <? AudioBuffer.length b)%nat
                              then addInto fl acc (sampleAt b c i) else acc)
                buffers (f c i)) N L).
Proof.
  induction buffers as [|b buffers IH]; intros f HN Hall; [reflexivity|].
  cbn [fold_left bind ret].
  destruct (Hall b (or_introl eq_refl)) as [Hc Hl].
  rewrite mixBuffer_tabulate by assumption.
  rewrite IH; [reflexivity|exact HN|]. intros b' Hb'. apply Hall. now right.
Qed.

Lemma mixAll_fails fl rate N L buffers : forall f,
  (1 <= N)%nat ->
  (forall b, In b buffers -> (AudioBuffer.length b <= L)%nat) ->
  (exists b, In b buffers /\ (AudioBuffer.numberOfChannels b < N)%nat) ->
  fold_left (fun acc buffer => mixedBuffer <- acc ;; mixBuffer fl N buffer mixedBuffer)
            buffers (ret (tabulate rate f N L))
  = throw IndexSizeError.
Proof.
  induction buffers as [|b buffers IH]; intros f HN Hall [bad [Hin Hbad]]; [contradiction|].
  cbn [fold_left bind ret].
  destruct (Nat.lt_ge_cases (AudioBuffer.numberOfChannels b) N) as [Hlt|Hge].
  - rewrite mixBuffer_fails by exact Hlt. apply fold_left_throw. reflexivity.
  - rewrite mixBuffer_tabulate; [|exact HN|exact Hge|apply Hall; now left].
    apply IH; [exact HN| |].
    + intros b' Hb'. apply Hall. now right.
    + destruct Hin as [->|Hin]; [lia|]. exists bad. auto.
Qed.

Lemma getChannelData_tabulate rate f N L c :
  (c < N)%nat ->
  AudioBuffer.getChannelData (tabulate rate f N L) c = ret (map (fun i => f c i) (seq 0 L)).
Proof.
  intros Hc. unfold AudioBuffer.getChannelData.
  rewrite (nth_error_nth' _ []) by (pose proof (tabulate_channels rate f N L) as H;
                                    unfold AudioBuffer.numberOfChannels in H; lia).
  now rewrite tabulate_channel.
Qed.

Lemma nth_map_seq (g : nat -> Q) L i :
  (i < L)%nat -> nth i (map g (seq 0 L)) 0%Q = g i.
Proof.
  intros Hi. rewrite (nth_indep _ 0%Q (g 0%nat)) by now rewrite length_map, length_seq.
  rewrite (map_nth g). now rewrite seq_nth by exact Hi.
Qed.

Lemma peakOf_tabulate rate f N L :
  (1 <= N)%nat ->
  peakOf N (tabulate rate f N L)
  = ret (fold_left
           (fun maxVal c =>
              fold_left (fun maxVal i => Math_max maxVal (Qabs (f c i))) (seq 0 L) maxVal)
           (seq 0 N) 0%Q).
Proof.
  intros HN. unfold peakOf. rewrite tabulate_length by exact HN.
  assert (H : forall l m, (forall c, In c l -> (c < N)%nat) ->
            fold_left
              (fun acc channel =>
                 maxVal <- acc ;;
                 channelData <- AudioBuffer.getChannelData (tabulate rate f N L) channel ;;
                 ret (peakOfChannel L channelData maxVal)) l (ret m)
            = ret (fold_left
                     (fun maxVal c =>
                        fold_left (fun maxVal i => Math_max maxVal (Qabs (f c i)))
                                  (seq 0 L) maxVal) l m)).
  { induction l as [|c l IH]; intros m Hl; [reflexivity|].
    cbn [fold_left bind ret]. rewrite getChannelData_tabulate by (apply Hl; now left).
    cbn [bind ret]. rewrite IH by (intros c' Hc'; apply Hl; now right).
    do 2 f_equal. unfold peakOfChannel. apply fold_left_ext_in.
    intros a i Hi. apply in_seq in Hi. now rewrite nth_map_seq by lia. }
  apply H. intros c Hc. apply in_seq in Hc. lia.
Qed.

Lemma upd_map_seq {A} (G : nat -> A) (v : A) N : forall s c,
  (c < N)%nat ->
  upd c v (map G (seq s N))
  = map (fun c' => if (c' =? s + c)%nat then v else G c') (seq s N).
Proof.
  induction N as [|N IH]; intros s c Hc; [lia|].
  cbn [seq map]. destruct c as [|c]; cbn [upd].
  - rewrite Nat.add_0_r, Nat.eqb_refl. f_equal.
    apply map_ext_in. intros c' Hc'. apply in_seq in Hc'.
    destruct (Nat.eqb_spec c' s); [lia|reflexivity].
  - destruct (Nat.eqb_spec s (s + S c)); [lia|]. f_equal.
    rewrite IH by lia. apply map_ext. intros c'.
    now replace (S s + c)%nat with (s + S c)%nat by lia.
Qed.

Lemma setChannelData_tabulate rate f N L c (h : nat -> Q) :
  (c < N)%nat ->
  AudioBuffer.setChannelData (tabulate rate f N L) c (map h (seq 0 L))
  = tabulate rate (fun c' i => if (c' =? c)%nat then h i else f c' i) N L.
Proof.
  intros Hc. unfold AudioBuffer.setChannelData, tabulate.
  cbn [AudioBuffer.sampleRate AudioBuffer.channelData]. f_equal.
  rewrite upd_map_seq by exact Hc. cbn [Nat.add].
  apply map_ext. intros c'. now destruct (c' =? c)%nat.
Qed.

Lemma normalize_loop fl rate N L gain n : forall f,
  (n <= N)%nat ->
  fold_left
    (fun acc channel =>
       mixedBuffer <- acc ;;
       channelData <- AudioBuffer.getChannelData mixedBuffer channel ;;
       ret (AudioBuffer.setChannelData mixedBuffer channel
              (scaleChannel fl gain (AudioBuffer.length mixedBuffer) channelData)))
    (seq 0 n) (ret (tabulate rate f N L))
  = ret (tabulate rate
           (fun c i => if (c <? n)%nat then scaleInto fl (f c i) gain else f c i) N L).
Proof.
  induction n as [|n IH]; intros f Hn; [reflexivity|].
  rewrite seq_S, fold_left_app, IH by lia. cbn [fold_left Nat.add bind ret].
  rewrite getChannelData_tabulate by lia. cbn [bind ret].
  rewrite tabulate_length by lia. f_equal. unfold scaleChannel.
  rewrite (modify_loop (fun _ old => scaleInto fl old gain) 0%Q)
    by (rewrite length_map, length_seq; lia).
  rewrite skipn_all2 by (rewrite length_map, length_seq; lia). rewrite app_nil_r.
  rewrite (setChannelData_tabulate rate _ N L n
             (fun i => scaleInto fl
                         (nth i (map (fun i0 => if (n <? n)%nat
                                                then scaleInto fl (f n i0) gain
                                                else f n i0) (seq 0 L)) 0%Q) gain))
    by lia.
  apply tabulate_ext. intros c i Hc Hi.
  destruct (Nat.eqb_spec c n) as [->|Hne].
  - rewrite nth_map_seq by exact Hi. rewrite Nat.ltb_irrefl.
    destruct (Nat.ltb_spec n (S n)); [reflexivity|lia].
  - destruct (Nat.ltb_spec c n), (Nat.ltb_spec c (S n)); try lia; reflexivity.
Qed.

Lemma normalize_tabulate fl rate f N L maxVal :
  (1 <= N)%nat ->
  normalize fl N maxVal (tabulate rate f N L)
  = ret (tabulate rate (fun c i => normalized fl maxVal (f c i)) N L).
Proof.
  intros HN. unfold normalize, normalized.
  destruct (Qlt_bool 1 maxVal); [|reflexivity].
  rewrite normalize_loop by lia. f_equal.
  apply tabulate_ext. intros c i Hc Hi.
  destruct (Nat.ltb_spec c N); [reflexivity|lia].
Qed.

Lemma maxLength_from (buffers : list AudioBuffer) : forall m b,
  (In b buffers -> AudioBuffer.length b
                   <= fold_left (fun max buffer => Nat.max max (AudioBuffer.length buffer))
                                buffers m)%nat
  /\ (m <= fold_left (fun max buffer => Nat.max max (AudioBuffer.length buffer))
                     buffers m)%nat.
Proof.
  induction buffers as [|x buffers IH]; intros m b; cbn [fold_left]; [split; [contradiction|lia]|].
  destruct (IH (Nat.max m (AudioBuffer.length x)) b) as [H1 H2].
  destruct (IH (Nat.max m (AudioBuffer.length x)) x) as [_ H3].
  split; [|lia]. intros [->|Hin]; [lia|auto].
Qed.

(** What [mixAudioBuffers] resolves with. *)
Lemma mixAudioBuffers_tabulate fl ctx first rest :
  mixable ctx (first :: rest) = true ->
  mixAudioBuffers fl (first :: rest) ctx
  = Resolved
      (tabulate (AudioBuffer.sampleRate first)
         (fun c i =>
            normalized fl
              (mixedPeak fl (first :: rest) (AudioBuffer.numberOfChannels first)
                         (maxLength (first :: rest)))
              (mixedSample fl (first :: rest) c i))
         (AudioBuffer.numberOfChannels first) (maxLength (first :: rest))).
Proof.
  unfold mixable. intros H. apply andb_prop in H as [Hwf Hch].
  rewrite forallb_forall in Hwf, Hch.
  pose proof (Hwf first (or_introl eq_refl)) as Hfirst.
  unfold wf_buffer in Hfirst. rewrite !andb_true_iff, !Nat.leb_le in Hfirst.
  destruct Hfirst as [[[[HN1 HN2] HL] Hrate] _].
  unfold mixAudioBuffers. fold (maxLength (first :: rest)).
  set (N := AudioBuffer.numberOfChannels first) in *.
  set (L := maxLength (first :: rest)).
  assert (HLmax : forall b, In b (first :: rest) -> (AudioBuffer.length b <= L)%nat).
  { intros b Hb. now apply (maxLength_from (first :: rest) 0%nat b). }
  assert (HL1 : (1 <= L)%nat) by (specialize (HLmax first (or_introl eq_refl)); lia).
  rewrite createBuffer_tabulate by (try split; assumption). cbn [bind ret].
  rewrite mixAll_tabulate.
  2: lia.
  2:{ intros b Hb. split; [|now apply HLmax].
      specialize (Hch b Hb). cbn [hd] in Hch. now apply Nat.leb_le in Hch. }
  cbn [bind ret]. rewrite peakOf_tabulate by lia. cbn [bind ret].
  rewrite normalize_tabulate by lia. reflexivity.
Qed.

(** X27.  What [mixAudioBuffers] settles to.  Without any buffer it
    rejects with its own error.  On buffers of the context that each have
    at least the channels of the first, it resolves with a buffer at the
    sample rate and with the channel count of the first, as long as the
    longest input; the sample of channel [c] at frame [i] is the sum, added
    one after the other, of the samples at that position of the buffers
    that reach frame [i], multiplied by 1 / peak when the peak of these
    sums exceeds 1.  When a later buffer has fewer channels than the first,
    it rejects with an [IndexSizeError] instead of mixing what it can. *)
Theorem mixAudioBuffers_outcomes (fl : Rounding) (ctx : AudioContext) :
  mixAudioBuffers fl [] ctx = NoAudioBuffers
  /\ (forall first rest,
        mixable ctx (first :: rest) = true ->
        exists mixed,
          mixAudioBuffers fl (first :: rest) ctx = Resolved mixed
          /\ AudioBuffer.sampleRate mixed = AudioBuffer.sampleRate first
          /\ AudioBuffer.numberOfChannels mixed = AudioBuffer.numberOfChannels first
          /\ AudioBuffer.length mixed = maxLength (first :: rest)
          /\ AudioBuffer.rectangular mixed = true
          /\ forall c i,
               (c < AudioBuffer.numberOfChannels first)%nat ->
               (i < maxLength (first :: rest))%nat ->
               sampleAt mixed c i
               = normalized fl
                   (mixedPeak fl (first :: rest) (AudioBuffer.numberOfChannels first)
                              (maxLength (first :: rest)))
                   (mixedSample fl (first :: rest) c i))
  /\ (forall first rest,
        forallb (wf_buffer ctx) (first :: rest) = true ->
        (exists b, In b rest
                   /\ (AudioBuffer.numberOfChannels b
                       < AudioBuffer.numberOfChannels first)%nat) ->
        mixAudioBuffers fl (first :: rest) ctx = Thrown IndexSizeError).
Proof.
  split; [reflexivity|]. split.
  - intros first rest Hmix. eexists. split; [now apply mixAudioBuffers_tabulate|].
    assert (HN : (1 <= AudioBuffer.numberOfChannels first)%nat).
    { unfold mixable in Hmix. apply andb_prop in Hmix as [Hwf _].
      rewrite forallb_forall in Hwf. specialize (Hwf first (or_introl eq_refl)).
      unfold wf_buffer in Hwf. rewrite !andb_true_iff, !Nat.leb_le in Hwf. tauto. }
    split_all.
    + reflexivity.
    + apply tabulate_channels.
    + now apply tabulate_length.
    + apply tabulate_rectangular.
    + intros c i Hc Hi. now apply tabulate_sample.
  - intros first rest Hwf [bad [Hin Hbad]].
    rewrite forallb_forall in Hwf.
    pose proof (Hwf first (or_introl eq_refl)) as Hfirst.
    unfold wf_buffer in Hfirst. rewrite !andb_true_iff, !Nat.leb_le in Hfirst.
    destruct Hfirst as [[[[HN1 HN2] HL] Hrate] _].
    unfold mixAudioBuffers. fold (maxLength (first :: rest)).
    set (N := AudioBuffer.numberOfChannels first) in *.
    set (L := maxLength (first :: rest)).
    assert (HLmax : forall b, In b (first :: rest) -> (AudioBuffer.length b <= L)%nat).
    { intros b Hb. now apply (maxLength_from (first :: rest) 0%nat b). }
    assert (HL1 : (1 <= L)%nat) by (specialize (HLmax first (or_introl eq_refl)); lia).
    rewrite createBuffer_tabulate by (try split; assumption). cbn [bind ret].
    rewrite mixAll_fails; [reflexivity|lia|exact HLmax|].
    exists bad. split; [now right|exact Hbad].
Qed.

Lemma mixAudioBuffers_outcomes_witness :
  exists mixed,
    mixAudioBuffers exactArithmetic loudPair sampleContext = Resolved mixed
    /\ AudioBuffer.length mixed = 3%nat
    /\ sampleAt mixed 0 1 = normalized exactArithmetic
                              (mixedPeak exactArithmetic loudPair 1 3)
                              (mixedSample exactArithmetic loudPair 0 1).
Proof.
  destruct (proj1 (proj2 (mixAudioBuffers_outcomes exactArithmetic sampleContext))
              (hd (silence 1) loudPair) (tl loudPair) eq_refl)
    as (mixed & H1 & _ & _ & H2 & _ & H3).
  exists mixed. split; [exact H1|]. split; [exact H2|].
  apply (H3 0%nat 1%nat); cbn; lia.
Defined.

Lemma fold_max_ge (h : nat -> Q) l : forall m,
  (m <= fold_left (fun m i => Math_max m (h i)) l m)%Q
  /\ forall i, In i l -> (h i <= fold_left (fun m i => Math_max m (h i)) l m)%Q.
Proof.
  induction l as [|x l IH]; intros m; cbn [fold_left].
  - split; [lra|contradiction].
  - destruct (IH (Math_max m (h x))) as [H1 H2].
    pose proof (Math_max_l m (h x)). pose proof (Math_max_r m (h x)).
    split; [lra|]. intros i [->|Hi]; [lra|auto].
Qed.

Lemma nested_max_ge (g : nat -> nat -> Q) frames l : forall m,
  (m <= fold_left (fun m c => fold_left (fun m i => Math_max m (g c i)) (seq 0 frames) m)
                  l m)%Q
  /\ forall c i, In c l -> (i < frames)%nat ->
       (g c i <= fold_left
                   (fun m c => fold_left (fun m i => Math_max m (g c i)) (seq 0 frames) m)
                   l m)%Q.
Proof.
  induction l as [|x l IH]; intros m; cbn [fold_left].
  - split; [lra|contradiction].
  - destruct (IH (fold_left (fun m i => Math_max m (g x i)) (seq 0 frames) m)) as [H1 H2].
    destruct (fold_max_ge (g x) (seq 0 frames) m) as [H3 H4].
    split; [lra|]. intros c i [->|Hc] Hi; [|auto].
    specialize (H4 i). rewrite in_seq in H4. specialize (H4 ltac:(lia)). lra.
Qed.

Lemma mixedPeak_ge fl buffers channels frames c i :
  (c < channels)%nat -> (i < frames)%nat ->
  (Qabs (mixedSample fl buffers c i) <= mixedPeak fl buffers channels frames)%Q.
Proof.
  intros Hc Hi. unfold mixedPeak.
  apply (nested_max_ge (fun c i => Qabs (mixedSample fl buffers c i)) frames
           (seq 0 channels) 0%Q); [apply in_seq; lia|exact Hi].
Qed.

(** The sample returned for a sum that does not exceed the peak. *)
Lemma normalized_bound fl maxVal x :
  RoundsWell fl -> (Qabs x <= maxVal)%Q ->
  (-1 <= normalized fl maxVal x /\ normalized fl maxVal x <= 1)%Q.
Proof.
  intros Hfl Hx. apply Qabs_Qle_condition in Hx as [Hlo Hhi].
  unfold normalized, Qlt_bool.
  destruct (Qle_bool maxVal 1) eqn:E; cbn [negb].
  - apply Qle_bool_iff in E. split; lra.
  - apply Qle_bool_false in E.
    set (g := toFloat64 fl (1 / maxVal)).
    assert (Hg : (0 <= g)%Q).
    { rewrite <- (toFloat64_zero fl Hfl). apply (toFloat64_monotone fl Hfl).
      apply Qle_shift_div_l; lra. }
    unfold scaleInto. split.
    + rewrite <- (toFloat32_minus_one fl Hfl). apply (toFloat32_monotone fl Hfl).
      apply Qle_trans with (toFloat64 fl (- maxVal * g)).
      * apply (reciprocal_down fl Hfl). exact E.
      * apply (toFloat64_monotone fl Hfl). apply Qmult_le_compat_r; assumption.
    + rewrite <- (toFloat32_one fl Hfl). apply (toFloat32_monotone fl Hfl).
      apply Qle_trans with (toFloat64 fl (maxVal * g)).
      * apply (toFloat64_monotone fl Hfl). apply Qmult_le_compat_r; assumption.
      * apply (reciprocal_up fl Hfl). exact E.
Qed.

(** X28.  [mixAudioBuffers] never clips.  With roundings that are monotone,
    keep 0, 1 and -1, and round the product of a peak above 1 with its
    rounded reciprocal to at most 1 in absolute value (as round-to-nearest
    does), every sample of the buffer [mixAudioBuffers] resolves with lies
    in [-1, 1], however loud the sum of the inputs. *)
Theorem mixAudioBuffers_never_clips (fl : Rounding) (ctx : AudioContext)
    (buffers : list AudioBuffer) (mixed : AudioBuffer) :
  RoundsWell fl ->
  mixable ctx buffers = true ->
  mixAudioBuffers fl buffers ctx = Resolved mixed ->
  Forall (Forall (fun s => -1 <= s /\ s <= 1)%Q) (AudioBuffer.channelData mixed).
Proof.
  intros Hfl Hmix Hres. destruct buffers as [|first rest]; [discriminate|].
  rewrite mixAudioBuffers_tabulate in Hres by exact Hmix.
  inversion Hres; subst. clear Hres.
  unfold tabulate. cbn [AudioBuffer.channelData].
  apply Forall_forall. intros d Hd. apply in_map_iff in Hd as (c & <- & Hc).
  apply Forall_forall. intros s Hs. apply in_map_iff in Hs as (i & <- & Hi).
  apply in_seq in Hc. apply in_seq in Hi.
  apply normalized_bound; [exact Hfl|]. apply mixedPeak_ge; lia.
Qed.

Lemma exactArithmetic_rounds_well : RoundsWell exactArithmetic.
Proof.
  constructor; cbn; intros; try lra; try reflexivity.
  - rewrite Qmult_div_r by lra. lra.
  - assert (H0 : (- m * (1 / m) == - (m * (1 / m)))%Q) by ring.
    rewrite H0, Qmult_div_r by lra. lra.
Qed.

Lemma mixAudioBuffers_never_clips_witness :
  Forall (Forall (fun s => -1 <= s /\ s <= 1)%Q) [[64 # 96; 384 # 384; -16 # 24]%Q].
Proof.
  apply (mixAudioBuffers_never_clips exactArithmetic sampleContext loudPair
           {| AudioBuffer.sampleRate := 24000;
              AudioBuffer.channelData := [[64 # 96; 384 # 384; -16 # 24]%Q] |}).
  - exact exactArithmetic_rounds_well.
  - reflexivity.
  - reflexivity.
Defined.

(** ** From generated speech to the combined download *)

(** The shape of the buffer the combiner builds. *)
Lemma combinedBuffer_shape ctx (chunks : list GeneratedAudioChunk) first :
  hd_error (map GeneratedAudioChunk.audioBuffer chunks) = Some first ->
  combinable ctx (map GeneratedAudioChunk.audioBuffer chunks) = true ->
  exists out,
    combinedBuffer ctx chunks = Some (ret out)
    /\ AudioBuffer.sampleRate out = AudioBuffer.sampleRate first
    /\ AudioBuffer.numberOfChannels out = AudioBuffer.numberOfChannels first
    /\ AudioBuffer.length out = totalFrames (map GeneratedAudioChunk.audioBuffer chunks).
Proof.
  intros Hfirst Hcomb.
  destruct chunks as [|ch0 others]; [discriminate|].
  cbn [map hd_error] in Hfirst. inversion Hfirst; subst first. clear Hfirst.
  set (buffers := map GeneratedAudioChunk.audioBuffer (ch0 :: others)) in *.
  set (first := GeneratedAudioChunk.audioBuffer ch0).
  set (N := AudioBuffer.numberOfChannels first).
  pose proof (combinable_inv ctx buffers Hcomb) as Hinv.
  assert (Hall : forall b, In b buffers ->
            AudioBuffer.numberOfChannels b = N /\ AudioBuffer.rectangular b = true).
  { intros b Hb. destruct (Hinv b Hb) as (_ & Hr & _ & Hsame).
    destruct (Hsame first eq_refl) as [HN _]. auto. }
  destruct (Hinv first (or_introl eq_refl)) as (Hwf & Hrect & Hlen1 & _).
  unfold wf_buffer in Hwf. rewrite !andb_true_iff, !Nat.leb_le in Hwf.
  destruct Hwf as [[[[HN1 HN32] _] Hrate] _]. fold N in HN1, HN32.
  assert (Hgoal : exists out,
            combinedBuffer ctx (ch0 :: others) = Some (ret out)
            /\ AudioBuffer.sampleRate out = AudioBuffer.sampleRate first
            /\ AudioBuffer.numberOfChannels out = N
            /\ channel out 0 = concatChannel buffers 0).
  { destruct others as [|ch1 others'].
    - exists first. cbn [combinedBuffer]. split_all; auto.
      subst buffers. cbn [map]. fold first.
      change (concatChannel [first] 0) with (channel first 0 ++ []).
      now rewrite app_nil_r.
    - unfold combinedBuffer. fold buffers. fold first. fold N.
      rewrite fold_left_add_length. cbn [Nat.add].
      assert (Htotal : (1 <= totalFrames buffers)%nat).
      { subst buffers. cbn [map]. rewrite totalFrames_cons. fold first. lia. }
      destruct (createBuffer ctx N (totalFrames buffers) (AudioBuffer.sampleRate first))
        as [cb|e] eqn:Ecb.
      2:{ exfalso. unfold createBuffer in Ecb. rewrite Hrate in Ecb.
          destruct (Nat.leb_spec 1 N); [|lia]. destruct (Nat.leb_spec N 32); [|lia].
          destruct (Nat.leb_spec 1 (totalFrames buffers)); [|lia]. discriminate. }
      destruct (createBuffer_channel ctx N (totalFrames buffers)
                  (AudioBuffer.sampleRate first) cb 0 Ecb) as (Hcr & Hcn & _).
      destruct (copyBuffers_spec N (totalFrames buffers) buffers [] cb) as
        (cb' & Hfold & Hrate' & Hn' & Hch'); auto.
      { intros c Hc. split; [reflexivity|].
        destruct (createBuffer_channel ctx N (totalFrames buffers)
                    (AudioBuffer.sampleRate first) cb c Ecb) as (_ & _ & Hz).
        rewrite Hz by exact Hc. cbn [concatChannel map List.concat app].
        change (totalFrames []) with 0%nat. now rewrite Nat.sub_0_r. }
      change (totalFrames []) with 0%nat in Hfold.
      cbn [bind ret]. rewrite Hfold. cbn [bind ret fst].
      exists cb'. split_all; auto; try congruence; apply Hch'; lia. }
  destruct Hgoal as (out & Hout & Hr & Hn & Hch).
  exists out. split_all; auto.
  unfold AudioBuffer.length.
  assert (H0 : hd [] (AudioBuffer.channelData out) = channel out 0).
  { unfold channel. now destruct (AudioBuffer.channelData out). }
  rewrite H0, Hch. apply (concatChannel_length buffers N); auto; lia.
Qed.

(** A buffer of generated speech is a mono buffer of the context at the
    output sample rate. *)
Lemma segmentAudio_buffer p o i segment b :
  segmentAudio p o i segment = inl (Some b) ->
  wf_buffer (outputAudioContext p) b = true
  /\ AudioBuffer.numberOfChannels b = 1%nat
  /\ AudioBuffer.sampleRate b = DEFAULT_SAMPLE_RATE.
Proof.
  unfold segmentAudio.
  destruct (generateContent p i _) as [[base64|]|e]; try discriminate.
  destruct (String.eqb base64 ""); [discriminate|].
  destruct (decode base64) as [bytes|e]; cbn [bind]; [|discriminate].
  destruct (decodable bytes (outputAudioContext p) DEFAULT_SAMPLE_RATE 1) eqn:Hd.
  - rewrite decodeAudioData_channels by exact Hd. cbn [bind ret].
    unfold decodable in Hd. rewrite !andb_true_iff, !Nat.leb_le in Hd.
    destruct Hd as [[[[_ _] _] Hframe] Hrate].
    set (F := (List.length bytes / 2 / 1)%nat).
    assert (HF : (1 <= F)%nat) by (subst F; rewrite Nat.div_1_r; lia).
    change {| AudioBuffer.sampleRate := DEFAULT_SAMPLE_RATE;
              AudioBuffer.channelData :=
                map (fun c => map (fun i => int16At bytes (i * 1 + c) # 32768) (seq 0 F))
                    (seq 0 1) |}
      with (tabulate DEFAULT_SAMPLE_RATE (fun c i => int16At bytes (i * 1 + c) # 32768) 1 F).
    generalize (fun c i : nat => int16At bytes (i * 1 + c) # 32768). clearbody F.
    intros f [= <-].
    unfold wf_buffer.
    rewrite tabulate_channels, tabulate_length, tabulate_rectangular by lia.
    cbn [AudioBuffer.sampleRate tabulate]. rewrite Hrate.
    destruct (Nat.leb_spec 1 F); [|lia]. split_all; reflexivity.
  - rewrite decodeAudioData_not_decodable by exact Hd. discriminate.
Qed.

Lemma fulfilled_chunk_audio p o completions chunks run c :
  generateSpeech p o completions = (Fulfilled chunks, run) ->
  In c chunks ->
  exists i segment,
    nth_error (scriptSegments o) i = Some segment
    /\ segmentAudio p o i segment = inl (Some (GeneratedAudioChunk.audioBuffer c)).
Proof.
  intros Hrun Hc.
  destruct (fulfilled_chunks p o completions chunks run Hrun)
    as (Hr & results & Hmap & Hchunks).
  pose proof (completions_inv p o completions _ (issueAll_inv p o)) as Hinv.
  rewrite <- Hr in Hinv. subst chunks.
  apply in_flat_map in Hc as (res & Hres & Hc).
  apply In_nth_error in Hres as [i Hi].
  assert (Hpr : nth_error (segmentPromises run) i = Some (Fulfilled res))
    by (rewrite Hmap; now apply map_nth_error).
  assert (HiN : (i < List.length (scriptSegments o))%nat).
  { rewrite <- (inv_length _ _ _ _ Hinv). apply nth_error_Some. congruence. }
  destruct (nth_error (scriptSegments o) i) as [segment|] eqn:Hseg.
  2:{ apply nth_error_None in Hseg. lia. }
  pose proof (inv_promises _ _ _ _ Hinv i segment _ Hseg Hpr) as Hok.
  cbn [promiseOk] in Hok. destruct Hok as [_ Hok].
  unfold chunkOf in Hc. destruct (chunk res) as [c'|]; [|contradiction].
  destruct Hc as [<-|[]]. destruct Hok as (_ & _ & Ha).
  exists i, segment. split; [exact Hseg|exact Ha].
Qed.

(** X29.  Generated speech always downloads.  Whatever chunks
    [generateSpeech] resolves with (at least one), [handleDownloadCombined]
    succeeds on them: the chunks are mono buffers at 24000 Hz, the combined
    buffer is mono at 24000 Hz with as many frames as the chunks have
    together, and the blob is a WAV file of 44 bytes plus two bytes per
    frame. *)
Theorem generated_speech_downloads p o completions chunks run :
  generateSpeech p o completions = (Fulfilled chunks, run) ->
  chunks <> [] ->
  exists out blob,
    combinedBuffer (outputAudioContext p) chunks = Some (ret out)
    /\ AudioBuffer.numberOfChannels out = 1%nat
    /\ AudioBuffer.sampleRate out = 24000
    /\ AudioBuffer.length out = totalFrames (map GeneratedAudioChunk.audioBuffer chunks)
    /\ handleDownloadCombined (outputAudioContext p) chunks = Some (ret blob)
    /\ blobType blob = "audio/wav"%string
    /\ List.length (blobBytes blob)
       = (44 + 2 * totalFrames (map GeneratedAudioChunk.audioBuffer chunks))%nat.
Proof.
  intros Hrun Hne.
  assert (Hall : forall c, In c chunks ->
            wf_buffer (outputAudioContext p) (GeneratedAudioChunk.audioBuffer c) = true
            /\ AudioBuffer.numberOfChannels (GeneratedAudioChunk.audioBuffer c) = 1%nat
            /\ AudioBuffer.sampleRate (GeneratedAudioChunk.audioBuffer c)
               = DEFAULT_SAMPLE_RATE).
  { intros c Hc.
    destruct (fulfilled_chunk_audio p o completions chunks run c Hrun Hc)
      as (i & segment & _ & Ha).
    eapply segmentAudio_buffer; eauto. }
  destruct chunks as [|ch0 others]; [contradiction|].
  assert (Hcomb : combinable (outputAudioContext p)
                    (map GeneratedAudioChunk.audioBuffer (ch0 :: others)) = true).
  { unfold combinable. apply andb_true_intro. split.
    - apply forallb_forall. intros b Hb. apply in_map_iff in Hb as (c & <- & Hc).
      now apply Hall.
    - apply forallb_forall. intros b Hb. apply in_map_iff in Hb as (c & <- & Hc).
      cbn [map hd].
      destruct (Hall c Hc) as (_ & H1 & H2).
      destruct (Hall ch0 (or_introl eq_refl)) as (_ & H3 & H4).
      rewrite H1, H2, H3, H4. reflexivity. }
  destruct (combinedBuffer_shape (outputAudioContext p) (ch0 :: others)
              (GeneratedAudioChunk.audioBuffer ch0) eq_refl Hcomb)
    as (out & Hout & Hrate & Hn & Hlen).
  destruct (Hall ch0 (or_introl eq_refl)) as (_ & H1 & H2).
  rewrite H1 in Hn. rewrite H2 in Hrate.
  destruct (audioBufferToWavBlob_bytes out) as (interleaved & _ & Hil & _ & Hblob).
  exists out. eexists. split_all; try eassumption.
  - unfold handleDownloadCombined. rewrite Hout. cbn [bind ret]. now rewrite Hblob.
  - reflexivity.
  - cbn [blobBytes]. rewrite length_app, wavHeader_length.
    rewrite (flat_map_length_const _ 2) by reflexivity.
    rewrite Hil, Hlen, Hn. lia.
Qed.

Lemma generated_speech_downloads_witness :
  exists out blob,
    handleDownloadCombined sampleContext
      (match fst (generateSpeech fivePlatform fiveOptions fiveCompletions) with
       | Fulfilled chunks => chunks
       | _ => []
       end) = Some (ret blob)
    /\ AudioBuffer.length out = 8%nat
    /\ List.length (blobBytes blob) = 60%nat.
Proof.
  destruct (generated_speech_downloads fivePlatform fiveOptions fiveCompletions
              (match fst (generateSpeech fivePlatform fiveOptions fiveCompletions) with
               | Fulfilled chunks => chunks
               | _ => []
               end)
              (snd (generateSpeech fivePlatform fiveOptions fiveCompletions)))
    as (out & blob & _ & _ & _ & Hlen & Hblob & _ & Hsize).
  - vm_compute. reflexivity.
  - vm_compute. discriminate.
  - exists out, blob. split; [exact Hblob|]. split.
    + rewrite Hlen. vm_compute. reflexivity.
    + rewrite Hsize. vm_compute. reflexivity.
Defined.

(** ** The end of a turn and the playback queue *)

Lemma onmessage_transcripts_playback (closureLive : bool) (currentTime : Q)
    (message : LiveServerMessage) (w : World Panel) :
  playback (consumer (onmessage_transcripts (panelCallbacks closureLive currentTime)
                        message w))
  = playback (consumer w).
Proof.
  unfold onmessage_transcripts.
  destruct (outputTranscription message), (inputTranscription message); reflexivity.
Qed.

Lemma onmessage_turnComplete_playback (randomUUID : nat -> string) (closureLive : bool)
    (currentTime : Q) (w : World Panel) :
  playback (consumer (onmessage_turnComplete randomUUID
                        (panelCallbacks closureLive currentTime) w))
  = {| audioQueue := []; nextStartTime := 0; audioSourceNodes := [];
       started := started (playback (consumer w)) |}.
Proof.
  unfold onmessage_turnComplete.
  destruct (String.eqb (currentInputTranscription (live w)) ""),
           (String.eqb (currentOutputTranscription (live w)) ""); reflexivity.
Qed.

(** X30.  The end of a turn empties the playback queue.  With the panel's
    callbacks (the scheduler's closure holding [isLiveActive = true]), a
    message with [turnComplete] drops every chunk still queued, forgets
    every source playing and resets the cursor to 0, whatever was queued
    or playing, and only then handles its own audio: if the message
    carries audio that decodes, that chunk alone is started, at once (at
    the current reading of the clock), and is the only source held; if it
    carries none, the queue is left empty and idle. *)
Theorem turn_complete_flushes_playback (audioContext : AudioContext)
    (randomUUID : nat -> string) (currentTime : Q) (message : LiveServerMessage)
    (w : World Panel) :
  turnComplete message = true ->
  (inlineAudio message = None ->
   playback (consumer (onmessage audioContext randomUUID (panelCallbacks true currentTime)
                         message w))
   = {| audioQueue := []; nextStartTime := 0; audioSourceNodes := [];
        started := started (playback (consumer w)) |})
  /\ (forall base64 audioBuffer,
        inlineAudio message = Some base64 ->
        base64 <> ""%string ->
        decodeInlineAudio audioContext base64 = ret audioBuffer ->
        playback (consumer (onmessage audioContext randomUUID
                              (panelCallbacks true currentTime) message w))
        = {| audioQueue := [];
             nextStartTime := (Math_max 0 currentTime + AudioBuffer.duration audioBuffer)%Q;
             audioSourceNodes := [List.length (started (playback (consumer w)))];
             started :=
               started (playback (consumer w))
               ++ [{| source := List.length (started (playback (consumer w)));
                      buffer := audioBuffer;
                      when := Math_max 0 currentTime |}] |}).
Proof.
  intros Hturn. unfold onmessage. rewrite Hturn.
  set (w1 := onmessage_transcripts (panelCallbacks true currentTime) message w).
  set (w2 := onmessage_turnComplete randomUUID (panelCallbacks true currentTime) w1).
  assert (H2 : playback (consumer w2)
               = {| audioQueue := []; nextStartTime := 0; audioSourceNodes := [];
                    started := started (playback (consumer w)) |}).
  { unfold w2. rewrite onmessage_turnComplete_playback. unfold w1.
    now rewrite onmessage_transcripts_playback. }
  split.
  - intros Hnone. unfold onmessage_audio. rewrite Hnone. exact H2.
  - intros base64 audioBuffer Hsome Hne Hdec. unfold onmessage_audio. rewrite Hsome.
    destruct (String.eqb_spec base64 ""); [contradiction|].
    unfold decodeInlineAudio in Hdec. rewrite Hdec. unfold ret.
    cbn [panelCallbacks onAudioChunk withConsumer consumer playback].
    rewrite H2. reflexivity.
Qed.

Lemma turn_complete_flushes_playback_witness :
  turnComplete closingMessage = true
  /\ exists audioBuffer,
       decodeInlineAudio sampleContext "AAEC/w==" = ret audioBuffer
       /\ audioQueue (playback (consumer (onmessage sampleContext turnUUID
                                            (panelCallbacks true 5) closingMessage
                                            (panelWorld "" ""))))
          = []
       /\ map buffer (started (playback (consumer (onmessage sampleContext turnUUID
                                            (panelCallbacks true 5) closingMessage
                                            (panelWorld "" "")))))
          = [audioBuffer].
Proof.
  split; [reflexivity|].
  destruct (turn_complete_flushes_playback sampleContext turnUUID 5 closingMessage
              (panelWorld "" "") eq_refl) as [_ H].
  destruct (decodeInlineAudio sampleContext "AAEC/w==") as [audioBuffer|e] eqn:Hdec;
    [|vm_compute in Hdec; discriminate].
  exists audioBuffer. split; [reflexivity|].
  rewrite (H "AAEC/w=="%string audioBuffer eq_refl ltac:(discriminate) Hdec).
  split; reflexivity.
Defined.
